(** * splitter: delimiter scanning and chunk accumulation

    A shallow embedding of the Go package [github.com/zlyuancn/splitter].

    The sources hold three revisions of the package.  The one with
    [RunSplit] (and the value reader with a byte counter and an optional
    rate limiter) is embedded at top level.  The revision whose [Split]
    takes the first chunk number from [StartChunkSn] is embedded in
    [Module V1]; the third revision only contributes its [flushChunk], in
    [Module V2].

    Conventions.
    - A [[]byte] is a [list byte]; the [nil] slice and the empty slice are
      both [[]] (the code only ever looks at [len]).
    - Go's [error] results are [option error]; [None] is [nil].
    - [int], [int32] and [int64] counters are [Z] with the wrap-around of
      their [++] written out ([int] is taken to be 64 bits wide).  Lengths of
      slices are [Z.of_nat (length _)]: they are bounded by the address
      space, so the sums of two lengths the code computes cannot wrap.
    - The flush handler and the value filter are callbacks.  The filter is
      a function on byte strings; every call of either callback is
      recorded, in order, in a [world]. *)

From Stdlib Require Import ZArith List Lia Bool Strings.Byte.
From Stdlib Require Strings.String.
Import ListNotations.
Import String.StringSyntax.
Delimit Scope string_scope with string.
Local Open Scope Z_scope.

Set Implicit Arguments.

(** ** Bytes and machine integers *)

Definition bytes := list byte.

Definition len {A : Type} (l : list A) : Z := Z.of_nat (length l).

(** [bytes.Equal] *)
Fixpoint bytes_eqb (a b : bytes) : bool :=
  match a, b with
  | [], [] => true
  | x :: a', y :: b' => if Byte.eqb x y then bytes_eqb a' b' else false
  | _, _ => false
  end.

(** Two's complement wrap-around of a [w]-bit signed integer. *)
Definition wrap (w : Z) (x : Z) : Z :=
  (x + 2 ^ (w - 1)) mod 2 ^ w - 2 ^ (w - 1).

Definition wrap32 : Z -> Z := wrap 32.
Definition wrap64 : Z -> Z := wrap 64.

Definition MinChunkSizeLimit : Z := 16.
Definition MinValueMaxScanSizeLimit : Z := 4096.

(** ** Errors *)

Inductive error : Type :=
| EOF                              (* io.EOF *)
| ErrValueReaderMaxScanSizeLimit
| ErrSplitterIsStarted
| ErrSplitterIsStopped
| ErrRepeatCallSplit               (* errors.New in [Split] *)
| ErrIO (code : nat)               (* any other error of the byte source *)
| ErrWait (code : nat).            (* an error of the rate limiter *)

(** [err == io.EOF] *)
Definition isEOFErr (e : error) : bool :=
  match e with EOF => true | _ => false end.

(** ** The byte source

    [bufio.Reader] over the caller's [io.Reader]: the bytes still to be
    delivered, the error that [ReadByte] reports once they are used up
    ([EOF] for a stream that simply ends), and the number of [ReadByte]
    calls made so far. *)

Record Reader : Type := mkReader {
  rd_data  : bytes;
  rd_err   : error;
  rd_calls : nat
}.

Definition ReadByte (r : Reader) : (byte + error) * Reader :=
  match rd_data r with
  | b :: rest => (inl b, mkReader rest (rd_err r) (S (rd_calls r)))
  | [] => (inr (rd_err r), mkReader [] (rd_err r) (S (rd_calls r)))
  end.

(** ** The rate limiter

    [rate.Limiter.Wait] blocks and then reports an error or [nil].  Only
    that result reaches [Next]; it is given by an oracle indexed by the
    number of earlier calls. *)

Record Limiter : Type := mkLimiter {
  lim_result : nat -> option error;
  lim_calls  : nat
}.

Definition Wait (l : Limiter) : option error * Limiter :=
  (lim_result l (lim_calls l), mkLimiter (lim_result l) (S (lim_calls l))).

(** ** valueReader

    [readBuffer] is scratch storage: [Next] writes [readBuffer[0..l)] from
    the bytes it reads in this call and only ever returns slices of that
    range, so the field is represented by the list of bytes read in the
    current call ([buf] below, with [l = len buf]). *)

Record valueReader : Type := mkValueReader {
  reader                : Reader;
  delim                 : bytes;
  valueMaxScanSizeLimit : Z;
  scanByteNum           : Z;
  isEOF                 : bool;
  limiter               : option Limiter
}.

Definition GetScanByteNum (v : valueReader) : Z := scanByteNum v.

(** [b == last && l >= delimLen && bytes.Equal(bs[l-delimLen:], v.delim)],
    evaluated left to right as [&&] does.  [last] is [v.delim[delimLen-1]];
    the index is in range because the constructor refuses an empty
    delimiter. *)
Definition tailIsDelim (b : byte) (bs d : bytes) : bool :=
  if Byte.eqb b (last d x00) then
    if len d <=? len bs then
      bytes_eqb (skipn (length bs - length d) bs) d
    else false
  else false.

(** The limiter step at the top of the read loop. *)
Definition waitLimiter (lim : option Limiter) : option error * option Limiter :=
  match lim with
  | None => (None, None)
  | Some l => let (e, l') := Wait l in (e, Some l')
  end.

(** The [for] loop of [Next].  [data] and [calls] are the state of the
    byte source, [lim] the limiter, [sbn] the byte counter and [buf] is
    [readBuffer[:l]].  Every iteration ends the call or consumes one byte,
    so the loop is structural in [data]; the two branches on [data] are the
    two outcomes of [ReadByte]. *)
Fixpoint scanLoop (v : valueReader) (data : bytes) (calls : nat)
    (lim : option Limiter) (sbn : Z) (buf : bytes) {struct data}
  : (bytes * option error) * valueReader :=
  let st data' calls' lim' sbn' eof :=
    mkValueReader (mkReader data' (rd_err (reader v)) calls')
                  (delim v) (valueMaxScanSizeLimit v) sbn' eof lim' in
  match waitLimiter lim with
  | (Some e, lim') => (([], Some e), st data calls lim' sbn (isEOF v))
  | (None, lim') =>
    match data with
    | [] =>
      if isEOFErr (rd_err (reader v))
      then ((buf, None), st [] (S calls) lim' sbn true)
      else (([], Some (rd_err (reader v))), st [] (S calls) lim' sbn (isEOF v))
    | b :: data' =>
      let sbn' := wrap64 (sbn + 1) in
      let bs := buf ++ [b] in
      if tailIsDelim b bs (delim v) then
        ((firstn (length bs - length (delim v)) bs, None),
         st data' (S calls) lim' sbn' (isEOF v))
      else if len bs =? valueMaxScanSizeLimit v then
        ((bs, Some ErrValueReaderMaxScanSizeLimit),
         st data' (S calls) lim' sbn' (isEOF v))
      else scanLoop v data' (S calls) lim' sbn' bs
    end
  end.

Definition Next (v : valueReader) : (bytes * option error) * valueReader :=
  if isEOF v then (([], Some EOF), v)
  else scanLoop v (rd_data (reader v)) (rd_calls (reader v))
                (limiter v) (scanByteNum v) [].

(** [NewValueReaderAndLimiter]; [None] is the panic on an empty delimiter.
    [lm] is the limiter that [rate.NewLimiter] builds when [rateLimit > 0]. *)
Definition NewValueReaderAndLimiter (rd : Reader) (d : bytes)
    (scanLimit : Z) (rateLimit : Z) (lm : Limiter) : option valueReader :=
  if len d =? 0 then None
  else
    let bufLen := Z.max scanLimit MinValueMaxScanSizeLimit in
    Some (mkValueReader rd d bufLen 0 false
            (if 0 <? rateLimit then Some lm else None)).

Definition NewValueReader (rd : Reader) (d : bytes) (scanLimit : Z)
  : option valueReader :=
  NewValueReaderAndLimiter rd d scanLimit 0 (mkLimiter (fun _ => None) 0).

(** ** The splitter *)

Record FlushChunkArgs : Type := mkFlushChunkArgs {
  ChunkSn      : Z;      (* int *)
  StartValueSn : Z;      (* int64 *)
  EndValueSn   : Z;      (* int64 *)
  ChunkData    : bytes;
  ScanByteNum  : Z       (* int64 *)
}.

(** [Conf].  The [FlushChunkHandler] field has no counterpart: whatever
    handler is installed, each of its calls is recorded in the [world]. *)
Record Conf : Type := mkConf {
  Delim                 : bytes;
  ChunkSizeLimit        : Z;
  ValueMaxScanSizeLimit : Z;
  ValueFilter           : option (bytes -> bytes)
}.

Record splitter : Type := mkSplitter {
  chunkSizeLimit          : Z;
  chunkBuffer             : bytes;
  chunkSn                 : Z;       (* int *)
  chunkStartValueSn       : Z;       (* int64 *)
  nextValueSn             : Z;       (* int64 *)
  delimiter               : bytes;
  s_valueMaxScanSizeLimit : Z;       (* the field valueMaxScanSizeLimit *)
  valueFilter             : option (bytes -> bytes);
  started                 : Z;       (* int32 *)
  stopped                 : Z        (* int32 *)
}.

(** What the callbacks have seen: the arguments of every flush handler
    call and the argument of every filter call, oldest first. *)
Record world : Type := mkWorld {
  flushed     : list FlushChunkArgs;
  filterCalls : list bytes
}.

Definition world0 : world := mkWorld [] [].

(** A call either returns an error value or panics. *)
Inductive outcome : Type :=
| Returned (err : option error)
| Panicked.

(** [NewSplitter]; [None] is a panic: the explicit one on an empty
    delimiter, or the one of [make([]byte, 0, conf.ChunkSizeLimit)] on a
    negative capacity. *)
Definition NewSplitter (conf : Conf) : option splitter :=
  if len (Delim conf) =? 0 then None
  else if ChunkSizeLimit conf <? 0 then None
  else Some (mkSplitter
               (Z.max (ChunkSizeLimit conf) MinChunkSizeLimit)
               [] 0 0 0
               (Delim conf)
               (Z.max (ValueMaxScanSizeLimit conf) MinValueMaxScanSizeLimit)
               (ValueFilter conf)
               0 0).

Definition set_chunkBuffer (s : splitter) (b : bytes) : splitter :=
  mkSplitter (chunkSizeLimit s) b (chunkSn s) (chunkStartValueSn s)
    (nextValueSn s) (delimiter s) (s_valueMaxScanSizeLimit s) (valueFilter s)
    (started s) (stopped s).

Definition set_chunkSn (s : splitter) (n : Z) : splitter :=
  mkSplitter (chunkSizeLimit s) (chunkBuffer s) n (chunkStartValueSn s)
    (nextValueSn s) (delimiter s) (s_valueMaxScanSizeLimit s) (valueFilter s)
    (started s) (stopped s).

Definition set_chunkStartValueSn (s : splitter) (n : Z) : splitter :=
  mkSplitter (chunkSizeLimit s) (chunkBuffer s) (chunkSn s) n
    (nextValueSn s) (delimiter s) (s_valueMaxScanSizeLimit s) (valueFilter s)
    (started s) (stopped s).

Definition set_nextValueSn (s : splitter) (n : Z) : splitter :=
  mkSplitter (chunkSizeLimit s) (chunkBuffer s) (chunkSn s)
    (chunkStartValueSn s) n (delimiter s) (s_valueMaxScanSizeLimit s)
    (valueFilter s) (started s) (stopped s).

Definition set_started (s : splitter) (n : Z) : splitter :=
  mkSplitter (chunkSizeLimit s) (chunkBuffer s) (chunkSn s)
    (chunkStartValueSn s) (nextValueSn s) (delimiter s)
    (s_valueMaxScanSizeLimit s) (valueFilter s) n (stopped s).

Definition set_stopped (s : splitter) (n : Z) : splitter :=
  mkSplitter (chunkSizeLimit s) (chunkBuffer s) (chunkSn s)
    (chunkStartValueSn s) (nextValueSn s) (delimiter s)
    (s_valueMaxScanSizeLimit s) (valueFilter s) (started s) n.

(** [Stop]: [atomic.AddInt32(&s.stopped, 1)] *)
Definition Stop (s : splitter) : splitter :=
  set_stopped s (wrap32 (stopped s + 1)).

(** [flushChunk]: drop the last [len(delimiter)] bytes, copy, hand the
    arguments to the handler.  [None] is the panic of the slice expression
    [args.ChunkData[:len(args.ChunkData)-len(s.delimiter)]] on a negative
    bound. *)
Definition flushChunk (s : splitter) (args : FlushChunkArgs) (w : world)
  : option world :=
  if len (ChunkData args) - len (delimiter s) <? 0 then None
  else
    let src := firstn (length (ChunkData args) - length (delimiter s))
                      (ChunkData args) in
    let args' := mkFlushChunkArgs (ChunkSn args) (StartValueSn args)
                   (EndValueSn args) src (ScanByteNum args) in
    Some (mkWorld (flushed w ++ [args']) (filterCalls w)).

(** The block that both flush sites of [RunSplit] share, word for word:
    [chunkSn := s.chunkSn; s.chunkSn++; s.flushChunk(&FlushChunkArgs{...});
    s.chunkBuffer.Reset()]. *)
Definition emitChunk (s : splitter) (vr : valueReader) (w : world)
  : option (splitter * world) :=
  let sn := chunkSn s in
  let s1 := set_chunkSn s (wrap64 (chunkSn s + 1)) in
  let args := mkFlushChunkArgs sn (chunkStartValueSn s1)
                (wrap64 (nextValueSn s1 - 1)) (chunkBuffer s1)
                (GetScanByteNum vr) in
  match flushChunk s1 args w with
  | None => None
  | Some w' => Some (set_chunkBuffer s1 [], w')
  end.

(** [if s.valueFilter != nil && len(value) > 0 { value = s.valueFilter(value) }] *)
Definition applyFilter (s : splitter) (value : bytes) (w : world)
  : bytes * world :=
  match valueFilter s with
  | Some f =>
    if len value >? 0
    then (f value, mkWorld (flushed w) (filterCalls w ++ [value]))
    else (value, w)
  | None => (value, w)
  end.

(** The condition of the flush before a value is appended. *)
Definition preFlushCond (s : splitter) (value : bytes) : bool :=
  (len (chunkBuffer s) + len value >? chunkSizeLimit s)
  && (len (chunkBuffer s) >? 0).

(** [if len(value) > 0 { ... }]: flush first when [preFlushCond] holds,
    then write the value and the delimiter and count the value. *)
Definition appendValue (s : splitter) (vr : valueReader) (value : bytes)
    (w : world) : option (splitter * world) :=
  if len value >? 0 then
    let flushedFirst :=
      if preFlushCond s value then
        match emitChunk s vr w with
        | None => None
        | Some (s1, w1) => Some (set_chunkStartValueSn s1 (nextValueSn s1), w1)
        end
      else Some (s, w) in
    match flushedFirst with
    | None => None
    | Some (s1, w1) =>
      let s2 := set_chunkBuffer s1 (chunkBuffer s1 ++ value) in
      let s3 := set_chunkBuffer s2 (chunkBuffer s2 ++ delimiter s2) in
      Some (set_nextValueSn s3 (wrap64 (nextValueSn s3 + 1)), w1)
    end
  else Some (s, w).

(** [if err == io.EOF { if s.chunkBuffer.Len() > 0 { ... }; break }],
    the part inside the outer [if]. *)
Definition flushAtEOF (s : splitter) (vr : valueReader) (w : world)
  : option (splitter * world) :=
  if len (chunkBuffer s) >? 0 then emitChunk s vr w else Some (s, w).

(** [err != nil && err != io.EOF] *)
Definition isFatal (err : option error) : bool :=
  match err with
  | Some e => negb (isEOFErr e)
  | None => false
  end.

Definition isEOFResult (err : option error) : bool :=
  match err with
  | Some e => isEOFErr e
  | None => false
  end.

(** The [for] loop of [RunSplit].

    [Stop] may be called from other goroutines at any time; the loop only
    notices at its [atomic.LoadInt32].  [sched i = true] says that a [Stop]
    call takes effect between the previous load and the load of iteration
    [i] (before the first load, for [i = 0]).

    The loop is not structural, so it runs on [fuel]; [None] means the fuel
    ran out, and [RunSplit_structure] shows it never does. *)
Fixpoint runLoop (sched : nat -> bool) (fuel : nat) (i : nat) (s : splitter)
    (vr : valueReader) (w : world)
  : option (outcome * splitter * valueReader * world) :=
  match fuel with
  | O => None
  | S fuel' =>
    let s := if sched i then Stop s else s in
    if stopped s >? 0 then
      Some (Returned (Some ErrSplitterIsStopped), s, vr, w)
    else
      let '((value, err), vr1) := Next vr in
      if isFatal err then Some (Returned err, s, vr1, w)
      else
        let '(value1, w1) := applyFilter s value w in
        match appendValue s vr1 value1 w1 with
        | None => Some (Panicked, s, vr1, w1)
        | Some (s2, w2) =>
          if isEOFResult err then
            match flushAtEOF s2 vr1 w2 with
            | None => Some (Panicked, s2, vr1, w2)
            | Some (s3, w3) => Some (Returned None, s3, vr1, w3)
            end
          else runLoop sched fuel' (S i) s2 vr1 w2
        end
  end.

(** [RunSplit].  The result carries the state of the byte source, to show
    what was read from it. *)
Definition RunSplit (sched : nat -> bool) (s : splitter) (rd : Reader)
    (w : world) : option (outcome * splitter * Reader * world) :=
  let s1 := set_started s (wrap32 (started s + 1)) in
  if negb (started s1 =? 1) then
    Some (Returned (Some ErrSplitterIsStarted), s1, rd, w)
  else
    match NewValueReader rd (delimiter s1) (s_valueMaxScanSizeLimit s1) with
    | None => Some (Panicked, s1, rd, w)
    | Some vr =>
      match runLoop sched (S (S (length (rd_data rd)))) 0 s1 vr w with
      | None => None
      | Some (o, s', vr', w') => Some (o, s', reader vr', w')
      end
    end.

(** No [Stop] call at all. *)
Definition noStop : nat -> bool := fun _ => false.

(** Byte-string literals for the examples. *)
Definition bytesOf (s : String.string) : bytes := String.list_byte_of_string s.
Arguments bytesOf s%_string.

(** ** Specification-side vocabulary *)

(** [join d [v1; ...; vn] = v1 ++ d ++ ... ++ d ++ vn]: values with the
    delimiter between them. *)
Fixpoint join (d : bytes) (vs : list bytes) : bytes :=
  match vs with
  | [] => []
  | [v] => v
  | v :: rest => v ++ d ++ join d rest
  end.

(** [framed d [v1; ...; vn] = v1 ++ d ++ ... ++ vn ++ d]: what the chunk
    buffer holds after those values were written. *)
Fixpoint framed (d : bytes) (vs : list bytes) : bytes :=
  match vs with
  | [] => []
  | v :: rest => v ++ d ++ framed d rest
  end.

(** [bs] ends with [d]. *)
Definition endsWith (d bs : bytes) : bool :=
  (len d <=? len bs) && bytes_eqb (skipn (length bs - length d) bs) d.

(** No prefix of [bs] ends with [d]: [d] does not occur in [bs]. *)
Definition delimFree (d bs : bytes) : bool :=
  forallb (fun n => negb (endsWith d (firstn n bs))) (seq 0 (S (length bs))).

(** The values that successive [Next] calls return with a [nil] error,
    up to the first call that reports an error (end of stream included). *)
Fixpoint scanValues (fuel : nat) (vr : valueReader) : list bytes :=
  match fuel with
  | O => []
  | S fuel' =>
    let '((v, e), vr') := Next vr in
    match e with
    | None => v :: scanValues fuel' vr'
    | Some _ => []
    end
  end.

(** The error that ends that sequence of calls, if the fuel reaches it. *)
Fixpoint scanEnd (fuel : nat) (vr : valueReader) : option error :=
  match fuel with
  | O => None
  | S fuel' =>
    let '((v, e), vr') := Next vr in
    match e with
    | None => scanEnd fuel' vr'
    | Some x => Some x
    end
  end.

Definition inputValues (d : bytes) (scanLimit : Z) (rd : Reader) : list bytes :=
  match NewValueReader rd d scanLimit with
  | Some vr => scanValues (S (S (length (rd_data rd)))) vr
  | None => []
  end.

(** What the filter makes of a value; it is not consulted on an empty one. *)
Definition filterValue (flt : option (bytes -> bytes)) (v : bytes) : bytes :=
  match flt with
  | Some f => if len v >? 0 then f v else v
  | None => v
  end.

(** The accepted values: filtered, and non-empty afterwards. *)
Definition accept (flt : option (bytes -> bytes)) (vs : list bytes)
  : list bytes :=
  filter (fun v => len v >? 0) (map (filterValue flt) vs).

Definition acceptedValues (s : splitter) (rd : Reader) : list bytes :=
  accept (valueFilter s)
         (inputValues (delimiter s) (s_valueMaxScanSizeLimit s) rd).

(** Sequence numbers of a list of chunks are contiguous: chunk numbers
    count up from [csn], each chunk's values are numbered from where the
    previous chunk stopped, starting at [vsn], and no chunk is empty. *)
Fixpoint contiguous (csn vsn : Z) (cs : list FlushChunkArgs) : Prop :=
  match cs with
  | [] => True
  | c :: rest =>
    ChunkSn c = csn /\ StartValueSn c = vsn /\ StartValueSn c <= EndValueSn c
    /\ contiguous (csn + 1) (EndValueSn c + 1) rest
  end.

(** How many value sequence numbers a list of chunks uses. *)
Definition snCount (cs : list FlushChunkArgs) : Z :=
  fold_right (fun c n => EndValueSn c - StartValueSn c + 1 + n) 0 cs.

(** ** The loop invariant

    The chunks flushed so far are described by a list of groups of values
    [gs]; the values written to the buffer since the last flush are [cur]. *)

(** A chunk is within the limit, or it is a single value that is not. *)
Definition sizeOK (d : bytes) (limit : Z) (g : list bytes) : Prop :=
  len (join d g) <= limit \/ exists v, g = [v] /\ limit < len v.

(** Chunk number [csn + i] carries group [i], whose values are numbered
    from [vsn] plus the sizes of the groups before it. *)
Fixpoint described (d : bytes) (csn vsn : Z) (gs : list (list bytes))
    (cs : list FlushChunkArgs) : Prop :=
  match gs, cs with
  | [], [] => True
  | g :: gs', c :: cs' =>
    g <> []
    /\ ChunkSn c = wrap64 csn
    /\ StartValueSn c = wrap64 vsn
    /\ EndValueSn c = wrap64 (vsn + len g - 1)
    /\ ChunkData c = join d g
    /\ described d (csn + 1) (vsn + len g) gs' cs'
  | _, _ => False
  end.

Definition nonEmpty (v : bytes) : Prop := v <> [].

Record OutInv (d : bytes) (limit : Z) (w : world) (gs : list (list bytes))
  : Prop := mkOutInv {
  out_described : described d 0 0 gs (flushed w);
  out_size      : Forall (sizeOK d limit) gs;
  out_nonempty  : Forall (Forall nonEmpty) gs
}.

Record StInv (d : bytes) (limit : Z) (flt : option (bytes -> bytes))
    (s : splitter) (gs : list (list bytes)) (cur : list bytes) : Prop :=
  mkStInv {
  st_delim  : delimiter s = d;
  st_limit  : chunkSizeLimit s = limit;
  st_filter : valueFilter s = flt;
  st_buffer : chunkBuffer s = framed d cur;
  st_csn    : chunkSn s = wrap64 (len gs);
  st_start  : chunkStartValueSn s = wrap64 (len (concat gs));
  st_next   : nextValueSn s = wrap64 (len (concat gs) + len cur);
  st_values : Forall nonEmpty cur;
  st_size   : cur <> [] -> sizeOK d limit cur
}.

(** ** Example configurations *)

(** The filter of the package's example: drop ["banana"]. *)
Definition dropBanana (v : bytes) : bytes :=
  if bytes_eqb v (bytesOf "banana") then [] else v.

Definition readme_conf : Conf :=
  mkConf (bytesOf ",") 16 0 (Some dropBanana).

Definition readme_splitter : splitter :=
  mkSplitter 16 [] 0 0 0 (bytesOf ",") 4096 (Some dropBanana) 0 0.

Definition readme_stream : Reader :=
  mkReader (bytesOf "apple,banana,pear,peach,cherry") EOF 0.

Definition readme_chunks : list FlushChunkArgs :=
  [ mkFlushChunkArgs 0 0 2 (bytesOf "apple,pear,peach") 30;
    mkFlushChunkArgs 1 3 3 (bytesOf "cherry") 30 ].

Definition readme_world : world :=
  mkWorld readme_chunks
    [bytesOf "apple"; bytesOf "banana"; bytesOf "pear"; bytesOf "peach";
     bytesOf "cherry"].

Definition readme_final : splitter :=
  mkSplitter 16 [] 2 3 4 (bytesOf ",") 4096 (Some dropBanana) 1 0.

(** A plain comma splitter with the minimal limits and no filter. *)
Definition comma_conf : Conf := mkConf (bytesOf ",") 16 0 None.

Definition comma_splitter : splitter :=
  mkSplitter 16 [] 0 0 0 (bytesOf ",") 4096 None 0 0.

(** A stream whose source fails after the bytes ["a,b"]. *)
Definition failing_stream : Reader := mkReader (bytesOf "a,b") (ErrIO 5) 0.

(** The splitter of the example run after ["apple"] and ["pear"] were
    buffered (["banana"] was dropped in between). *)
Definition two_buffered : splitter :=
  mkSplitter 16 (bytesOf "apple,pear,") 0 0 2 (bytesOf ",") 4096
             (Some dropBanana) 1 0.

Definition three_buffered : splitter :=
  mkSplitter 16 (bytesOf "apple,pear,peach,") 0 0 3 (bytesOf ",") 4096
             (Some dropBanana) 1 0.

(** Some value reader; what [appendValue] takes from it is the byte count
    it puts into a flushed chunk. *)
Definition idle_reader : valueReader :=
  mkValueReader (mkReader [] EOF 0) (bytesOf ",") 4096 0 false None.

(** A reader over the two bytes ["ab"], which hold no delimiter. *)
Definition partial_reader : valueReader :=
  mkValueReader (mkReader (bytesOf "ab") EOF 0) (bytesOf ",") 4096 0 false
                None.

Definition partial_reader_done : valueReader :=
  mkValueReader (mkReader [] EOF 3) (bytesOf ",") 4096 2 true None.

(** [n] further calls of [Next], of which only the reader is kept. *)
Definition afterCalls (n : nat) (v : valueReader) : valueReader :=
  Nat.iter n (fun r => snd (Next r)) v.

(** Thirty bytes without a comma. *)
Definition thirty_bytes : bytes := bytesOf "123456789012345678901234567890".

(** The result of a loop, with the [started] counter overwritten. *)
Definition withStarted (k : Z)
    (r : option (outcome * splitter * valueReader * world))
  : option (outcome * splitter * valueReader * world) :=
  match r with
  | Some (o, s, vr, w) => Some (o, set_started s k, vr, w)
  | None => None
  end.

(** A [Stop] call lands just before the second load of the loop. *)
Definition stopAtSecond (i : nat) : bool := Nat.eqb i 1.

(** The example splitter after a stop that came while ["a,"] was buffered. *)
Definition stopped_with_buffer : splitter :=
  mkSplitter 16 (bytesOf "a,") 0 0 1 (bytesOf ",") 4096 None 1 1.

(** A stream with two delimiters in a row and one at its end. *)
Definition gappy_stream : Reader := mkReader (bytesOf "a,,b,") EOF 0.

(** ** The revision with [Split] and a configurable first chunk number

    Its value reader has neither the byte counter nor the limiter; [Next]
    above with no limiter installed behaves as that reader does once the
    counter is ignored.  The flush handler takes four arguments, recorded
    as a [FlushCall]. *)
Module V1.

Record Conf : Type := mkConf {
  Delim                 : bytes;
  ChunkSizeLimit        : Z;
  ValueMaxScanSizeLimit : Z;
  ValueFilter           : option (bytes -> bytes);
  StartChunkSn          : Z
}.

Record FlushCall : Type := mkFlushCall {
  fc_chunkSn  : Z;
  fc_startIdx : Z;
  fc_endIdx   : Z;
  fc_data     : bytes
}.

Record splitter : Type := mkSplitter {
  chunkSizeLimit        : Z;
  chunkBuffer           : bytes;
  chunkSn               : Z;
  chunkStartIndex       : Z;
  dataValueIndex        : Z;
  delimiter             : bytes;
  valueMaxScanSizeLimit : Z;
  valueFilter           : option (bytes -> bytes);
  started               : Z;
  stopped               : Z
}.

Definition NewSplitter (conf : Conf) : option splitter :=
  if len (Delim conf) =? 0 then None
  else if ChunkSizeLimit conf <? 0 then None
  else Some (mkSplitter
               (Z.max (ChunkSizeLimit conf) MinChunkSizeLimit)
               [] (StartChunkSn conf) 0 (-1)
               (Delim conf)
               (Z.max (ValueMaxScanSizeLimit conf) MinValueMaxScanSizeLimit)
               (ValueFilter conf)
               0 0).

Definition set_chunkBuffer (s : splitter) (b : bytes) : splitter :=
  mkSplitter (chunkSizeLimit s) b (chunkSn s) (chunkStartIndex s)
    (dataValueIndex s) (delimiter s) (valueMaxScanSizeLimit s) (valueFilter s)
    (started s) (stopped s).

Definition set_chunkSn (s : splitter) (n : Z) : splitter :=
  mkSplitter (chunkSizeLimit s) (chunkBuffer s) n (chunkStartIndex s)
    (dataValueIndex s) (delimiter s) (valueMaxScanSizeLimit s) (valueFilter s)
    (started s) (stopped s).

Definition set_chunkStartIndex (s : splitter) (n : Z) : splitter :=
  mkSplitter (chunkSizeLimit s) (chunkBuffer s) (chunkSn s) n
    (dataValueIndex s) (delimiter s) (valueMaxScanSizeLimit s) (valueFilter s)
    (started s) (stopped s).

Definition set_dataValueIndex (s : splitter) (n : Z) : splitter :=
  mkSplitter (chunkSizeLimit s) (chunkBuffer s) (chunkSn s)
    (chunkStartIndex s) n (delimiter s) (valueMaxScanSizeLimit s)
    (valueFilter s) (started s) (stopped s).

Definition set_started (s : splitter) (n : Z) : splitter :=
  mkSplitter (chunkSizeLimit s) (chunkBuffer s) (chunkSn s)
    (chunkStartIndex s) (dataValueIndex s) (delimiter s)
    (valueMaxScanSizeLimit s) (valueFilter s) n (stopped s).

Definition set_stopped (s : splitter) (n : Z) : splitter :=
  mkSplitter (chunkSizeLimit s) (chunkBuffer s) (chunkSn s)
    (chunkStartIndex s) (dataValueIndex s) (delimiter s)
    (valueMaxScanSizeLimit s) (valueFilter s) (started s) n.

Definition Stop (s : splitter) : splitter :=
  set_stopped s (wrap32 (stopped s + 1)).

(** [flushChunk(chunkSn, startIdx, endIdx, data)] *)
Definition flushChunk (s : splitter) (sn startIdx endIdx : Z) (data : bytes)
    (w : list FlushCall) : option (list FlushCall) :=
  if len data - len (delimiter s) <? 0 then None
  else
    let src := firstn (length data - length (delimiter s)) data in
    Some (w ++ [mkFlushCall sn startIdx endIdx src]).

(** [chunkSn := s.chunkSn; s.chunkSn++; s.flushChunk(...);
    s.chunkBuffer.Reset()] *)
Definition emitChunk (s : splitter) (w : list FlushCall)
  : option (splitter * list FlushCall) :=
  let sn := chunkSn s in
  let s1 := set_chunkSn s (wrap64 (chunkSn s + 1)) in
  match flushChunk s1 sn (chunkStartIndex s1) (dataValueIndex s1)
          (chunkBuffer s1) w with
  | None => None
  | Some w' => Some (set_chunkBuffer s1 [], w')
  end.

Definition applyFilter (s : splitter) (value : bytes) : bytes :=
  match valueFilter s with
  | Some f => if len value >? 0 then f value else value
  | None => value
  end.

Definition appendValue (s : splitter) (value : bytes) (w : list FlushCall)
  : option (splitter * list FlushCall) :=
  if len value >? 0 then
    let flushedFirst :=
      if (len (chunkBuffer s) + len value >? chunkSizeLimit s)
         && (len (chunkBuffer s) >? 0) then
        match emitChunk s w with
        | None => None
        | Some (s1, w1) =>
          Some (set_chunkStartIndex s1 (wrap64 (dataValueIndex s1 + 1)), w1)
        end
      else Some (s, w) in
    match flushedFirst with
    | None => None
    | Some (s1, w1) =>
      let s2 := set_chunkBuffer s1 (chunkBuffer s1 ++ value) in
      let s3 := set_chunkBuffer s2 (chunkBuffer s2 ++ delimiter s2) in
      Some (set_dataValueIndex s3 (wrap64 (dataValueIndex s3 + 1)), w1)
    end
  else Some (s, w).

Definition flushAtEOF (s : splitter) (w : list FlushCall)
  : option (splitter * list FlushCall) :=
  if len (chunkBuffer s) >? 0 then emitChunk s w else Some (s, w).

(** The loop of [Split]; a stop makes it [return nil]. *)
Fixpoint splitLoop (sched : nat -> bool) (fuel : nat) (i : nat) (s : splitter)
    (vr : valueReader) (w : list FlushCall)
  : option (outcome * splitter * valueReader * list FlushCall) :=
  match fuel with
  | O => None
  | S fuel' =>
    let s := if sched i then Stop s else s in
    if stopped s >? 0 then Some (Returned None, s, vr, w)
    else
      let '((value, err), vr1) := Next vr in
      if isFatal err then Some (Returned err, s, vr1, w)
      else
        match appendValue s (applyFilter s value) w with
        | None => Some (Panicked, s, vr1, w)
        | Some (s2, w2) =>
          if isEOFResult err then
            match flushAtEOF s2 w2 with
            | None => Some (Panicked, s2, vr1, w2)
            | Some (s3, w3) => Some (Returned None, s3, vr1, w3)
            end
          else splitLoop sched fuel' (S i) s2 vr1 w2
        end
  end.

Definition Split (sched : nat -> bool) (s : splitter) (rd : Reader)
    (w : list FlushCall) : option (outcome * splitter * Reader * list FlushCall) :=
  let s1 := set_started s (wrap32 (started s + 1)) in
  if negb (started s1 =? 1) then
    Some (Returned (Some ErrRepeatCallSplit), s1, rd, w)
  else
    match NewValueReader rd (delimiter s1) (valueMaxScanSizeLimit s1) with
    | None => Some (Panicked, s1, rd, w)
    | Some vr =>
      match splitLoop sched (S (S (length (rd_data rd)))) 0 s1 vr w with
      | None => None
      | Some (o, s', vr', w') => Some (o, s', reader vr', w')
      end
    end.

(** The calls are numbered from [start], one after the other. *)
Definition numbered (start : Z) (cs : list FlushCall) : Prop :=
  forall i c, nth_error cs i = Some c ->
              fc_chunkSn c = wrap64 (start + Z.of_nat i).

(** The package's example with the chunk numbers starting at 7. *)
Definition example_conf : Conf :=
  mkConf (bytesOf ",") 16 0 (Some dropBanana) 7.

Definition example_splitter : splitter :=
  mkSplitter 16 [] 7 0 (-1) (bytesOf ",") 4096 (Some dropBanana) 0 0.

Definition example_final : splitter :=
  mkSplitter 16 [] 9 3 3 (bytesOf ",") 4096 (Some dropBanana) 1 0.

Definition example_calls : list FlushCall :=
  [ mkFlushCall 7 0 2 (bytesOf "apple,pear,peach");
    mkFlushCall 8 3 3 (bytesOf "cherry") ].

End V1.

(** ** The revision with [Split] and [FlushChunkArgs]: its [flushChunk]

    The stripped copy [bs] is made and then not used: the handler receives
    [args] as they came in. *)
Module V2.

Record FlushChunkArgs : Type := mkFlushChunkArgs {
  ChunkSn     : Z;
  StartDataSn : Z;
  EndDataSn   : Z;
  Data        : bytes;
  ScanByteNum : Z
}.

Definition flushChunk (delimiter : bytes) (args : FlushChunkArgs)
    (w : list FlushChunkArgs) : option (list FlushChunkArgs) :=
  if len (Data args) - len delimiter <? 0 then None
  else
    let src := firstn (length (Data args) - length delimiter) (Data args) in
    let bs := src in
    Some (w ++ [args]).

(** The rest of that revision.  [Conf] has the fields of the last
    revision's.  The handler is given [s.chunkBuffer.Bytes()] itself; the
    record of a call holds those bytes as they are during the call. *)
Record splitter : Type := mkSplitter {
  chunkSizeLimit        : Z;
  chunkBuffer           : bytes;
  chunkSn               : Z;       (* int *)
  chunkStartDataSn      : Z;       (* int64 *)
  nowDataValueSn        : Z;       (* int64 *)
  delimiter             : bytes;
  valueMaxScanSizeLimit : Z;
  valueFilter           : option (bytes -> bytes);
  started               : Z;       (* int32 *)
  stopped               : Z        (* int32 *)
}.

Definition NewSplitter (conf : Conf) : option splitter :=
  if len (Delim conf) =? 0 then None
  else if ChunkSizeLimit conf <? 0 then None
  else Some (mkSplitter
               (Z.max (ChunkSizeLimit conf) MinChunkSizeLimit)
               [] 0 0 (-1)
               (Delim conf)
               (Z.max (ValueMaxScanSizeLimit conf) MinValueMaxScanSizeLimit)
               (ValueFilter conf)
               0 0).

Definition set_chunkBuffer (s : splitter) (b : bytes) : splitter :=
  mkSplitter (chunkSizeLimit s) b (chunkSn s) (chunkStartDataSn s)
    (nowDataValueSn s) (delimiter s) (valueMaxScanSizeLimit s)
    (valueFilter s) (started s) (stopped s).

Definition set_chunkSn (s : splitter) (n : Z) : splitter :=
  mkSplitter (chunkSizeLimit s) (chunkBuffer s) n (chunkStartDataSn s)
    (nowDataValueSn s) (delimiter s) (valueMaxScanSizeLimit s)
    (valueFilter s) (started s) (stopped s).

Definition set_chunkStartDataSn (s : splitter) (n : Z) : splitter :=
  mkSplitter (chunkSizeLimit s) (chunkBuffer s) (chunkSn s) n
    (nowDataValueSn s) (delimiter s) (valueMaxScanSizeLimit s)
    (valueFilter s) (started s) (stopped s).

Definition set_nowDataValueSn (s : splitter) (n : Z) : splitter :=
  mkSplitter (chunkSizeLimit s) (chunkBuffer s) (chunkSn s)
    (chunkStartDataSn s) n (delimiter s) (valueMaxScanSizeLimit s)
    (valueFilter s) (started s) (stopped s).

Definition set_started (s : splitter) (n : Z) : splitter :=
  mkSplitter (chunkSizeLimit s) (chunkBuffer s) (chunkSn s)
    (chunkStartDataSn s) (nowDataValueSn s) (delimiter s)
    (valueMaxScanSizeLimit s) (valueFilter s) n (stopped s).

Definition set_stopped (s : splitter) (n : Z) : splitter :=
  mkSplitter (chunkSizeLimit s) (chunkBuffer s) (chunkSn s)
    (chunkStartDataSn s) (nowDataValueSn s) (delimiter s)
    (valueMaxScanSizeLimit s) (valueFilter s) (started s) n.

Definition Stop (s : splitter) : splitter :=
  set_stopped s (wrap32 (stopped s + 1)).

(** [chunkSn := s.chunkSn; s.chunkSn++; s.flushChunk(&FlushChunkArgs{...});
    s.chunkBuffer.Reset()] *)
Definition emitChunk (s : splitter) (vr : valueReader)
    (w : list FlushChunkArgs) : option (splitter * list FlushChunkArgs) :=
  let sn := chunkSn s in
  let s1 := set_chunkSn s (wrap64 (chunkSn s + 1)) in
  let args := mkFlushChunkArgs sn (chunkStartDataSn s1) (nowDataValueSn s1)
                (chunkBuffer s1) (GetScanByteNum vr) in
  match flushChunk (delimiter s1) args w with
  | None => None
  | Some w' => Some (set_chunkBuffer s1 [], w')
  end.

Definition applyFilter (s : splitter) (value : bytes) : bytes :=
  match valueFilter s with
  | Some f => if len value >? 0 then f value else value
  | None => value
  end.

Definition appendValue (s : splitter) (vr : valueReader) (value : bytes)
    (w : list FlushChunkArgs) : option (splitter * list FlushChunkArgs) :=
  if len value >? 0 then
    let flushedFirst :=
      if (len (chunkBuffer s) + len value >? chunkSizeLimit s)
         && (len (chunkBuffer s) >? 0) then
        match emitChunk s vr w with
        | None => None
        | Some (s1, w1) =>
          Some (set_chunkStartDataSn s1 (wrap64 (nowDataValueSn s1 + 1)), w1)
        end
      else Some (s, w) in
    match flushedFirst with
    | None => None
    | Some (s1, w1) =>
      let s2 := set_chunkBuffer s1 (chunkBuffer s1 ++ value) in
      let s3 := set_chunkBuffer s2 (chunkBuffer s2 ++ delimiter s2) in
      Some (set_nowDataValueSn s3 (wrap64 (nowDataValueSn s3 + 1)), w1)
    end
  else Some (s, w).

Definition flushAtEOF (s : splitter) (vr : valueReader)
    (w : list FlushChunkArgs) : option (splitter * list FlushChunkArgs) :=
  if len (chunkBuffer s) >? 0 then emitChunk s vr w else Some (s, w).

(** The loop of [Split]; a stop makes it [return nil]. *)
Fixpoint splitLoop (sched : nat -> bool) (fuel : nat) (i : nat) (s : splitter)
    (vr : valueReader) (w : list FlushChunkArgs)
  : option (outcome * splitter * valueReader * list FlushChunkArgs) :=
  match fuel with
  | O => None
  | S fuel' =>
    let s := if sched i then Stop s else s in
    if stopped s >? 0 then Some (Returned None, s, vr, w)
    else
      let '((value, err), vr1) := Next vr in
      if isFatal err then Some (Returned err, s, vr1, w)
      else
        match appendValue s vr1 (applyFilter s value) w with
        | None => Some (Panicked, s, vr1, w)
        | Some (s2, w2) =>
          if isEOFResult err then
            match flushAtEOF s2 vr1 w2 with
            | None => Some (Panicked, s2, vr1, w2)
            | Some (s3, w3) => Some (Returned None, s3, vr1, w3)
            end
          else splitLoop sched fuel' (S i) s2 vr1 w2
        end
  end.

Definition Split (sched : nat -> bool) (s : splitter) (rd : Reader)
    (w : list FlushChunkArgs)
  : option (outcome * splitter * Reader * list FlushChunkArgs) :=
  let s1 := set_started s (wrap32 (started s + 1)) in
  if negb (started s1 =? 1) then
    Some (Returned (Some ErrRepeatCallSplit), s1, rd, w)
  else
    match NewValueReader rd (delimiter s1) (valueMaxScanSizeLimit s1) with
    | None => Some (Panicked, s1, rd, w)
    | Some vr =>
      match splitLoop sched (S (S (length (rd_data rd)))) 0 s1 vr w with
      | None => None
      | Some (o, s', vr', w') => Some (o, s', reader vr', w')
      end
    end.

End V2.

(** A two-byte delimiter that overlaps itself. *)
Definition overlap_conf : Conf := mkConf (bytesOf "aa") 16 0 None.

Definition overlap_splitter : splitter :=
  mkSplitter 16 [] 0 0 0 (bytesOf "aa") 4096 None 0 0.

Definition overlap_stream : Reader := mkReader (bytesOf "xaaa") EOF 0.

(** ** Vocabulary for the further properties *)

(** The limiter after [n] more [Wait] calls. *)
Definition waited (n : nat) (lim : option Limiter) : option Limiter :=
  match lim with
  | Some l => Some (mkLimiter (lim_result l) (lim_calls l + n))
  | None => None
  end.

(** The next [n] [Wait] calls of the limiter, if there is one, return
    [nil]. *)
Definition quietFor (n : nat) (lim : option Limiter) : Prop :=
  forall l, lim = Some l ->
            forall j, (j < n)%nat -> lim_result l (lim_calls l + j) = None.

(** The byte counter after [n] increments. *)
Definition bump (sbn : Z) (n : nat) : Z :=
  match n with
  | O => sbn
  | S _ => wrap64 (sbn + Z.of_nat n)
  end.

(** A limiter that lets two calls pass and fails the third. *)
Definition third_wait_fails : Limiter :=
  mkLimiter (fun k => if Nat.eqb k 2 then Some (ErrWait 9) else None) 0.

(** A limiter that never fails. *)
Definition patient : Limiter := mkLimiter (fun _ => None) 0.

(** Readers over ["ab,cd"]: plain, with a limit of three bytes, and
    rate-limited. *)
Definition abcd : Reader := mkReader (bytesOf "ab,cd") EOF 0.

Definition abcd_reader : valueReader :=
  mkValueReader abcd (bytesOf ",") 4096 0 false None.

Definition abcd_limited : valueReader :=
  mkValueReader abcd (bytesOf ",") 4096 0 false (Some patient).

Definition abcd_throttled : valueReader :=
  mkValueReader abcd (bytesOf ",") 4096 0 false (Some third_wait_fails).

(** A reader whose source fails after ["ab"]. *)
Definition broken_reader : valueReader :=
  mkValueReader (mkReader (bytesOf "ab") (ErrIO 5) 0) (bytesOf ",") 4096 0
                false None.

(** 4096 bytes without a comma, and a stream that goes on after them. *)
Definition long_value : bytes := repeat "x"%byte 4096.

Definition long_stream : Reader :=
  mkReader (long_value ++ bytesOf ",tail") EOF 0.

Definition long_reader : valueReader :=
  mkValueReader long_stream (bytesOf ",") 4096 0 false None.

(** The reader with its limiter taken out. *)
Definition unlimited (v : valueReader) : valueReader :=
  mkValueReader (reader v) (delim v) (valueMaxScanSizeLimit v)
                (scanByteNum v) (isEOF v) None.

(** The reader after a call that took [n] bytes (and made [m] [Wait]
    calls) and did not reach the end of the stream. *)
Definition advanced (v : valueReader) (rest : bytes) (reads n m : nat)
  : valueReader :=
  mkValueReader
    (mkReader rest (rd_err (reader v)) (rd_calls (reader v) + reads))
    (delim v) (valueMaxScanSizeLimit v) (bump (scanByteNum v) n) (isEOF v)
    (waited m (limiter v)).

(** The limiter, if there is one, never fails. *)
Definition neverFails (lim : option Limiter) : Prop :=
  forall l, lim = Some l -> forall k, lim_result l k = None.

(** Chunking as a function of the accepted values: a value opens a new
    group when the group so far, framed, together with the value is longer
    than the limit (and there is a group so far); else it joins the
    group. *)
Definition packStep (limit : Z) (d : bytes)
    (st : list (list bytes) * list bytes) (v : bytes)
  : list (list bytes) * list bytes :=
  if (len (framed d (snd st)) + len v >? limit)
     && (len (framed d (snd st)) >? 0)
  then (fst st ++ [snd st], [v])
  else (fst st, snd st ++ [v]).

Definition pack (limit : Z) (d : bytes) (vs : list bytes)
  : list (list bytes) * list bytes :=
  fold_left (packStep limit d) vs ([], []).

(** The groups once the open one is closed. *)
Definition closeGroups (st : list (list bytes) * list bytes)
  : list (list bytes) :=
  match snd st with
  | [] => fst st
  | _ => fst st ++ [snd st]
  end.

Definition chunksOf (limit : Z) (d : bytes) (vs : list bytes)
  : list (list bytes) :=
  closeGroups (pack limit d vs).

(** No group could have taken the first value of the next one: its
    payload, one delimiter and that value are more than the limit. *)
Fixpoint greedy (limit : Z) (d : bytes) (gs : list (list bytes)) : Prop :=
  match gs with
  | g :: rest =>
    match rest with
    | g' :: _ => limit < len (join d g) + len d + len (hd [] g')
    | [] => True
    end /\ greedy limit d rest
  | [] => True
  end.

(** What [packStep] keeps: the groups, the open one included, are greedy,
    and the open group is empty only when there is no closed one. *)
Definition packed (limit : Z) (d : bytes)
    (st : list (list bytes) * list bytes) : Prop :=
  greedy limit d (closeGroups st) /\ (snd st = [] -> fst st = []).

(** The byte counts that a list of chunks reports are in order and lie
    between [lo] and [hi]. *)
Fixpoint byteMarks (lo hi : Z) (cs : list FlushChunkArgs) : Prop :=
  match cs with
  | [] => lo <= hi
  | c :: rest => lo <= ScanByteNum c /\ byteMarks (ScanByteNum c) hi rest
  end.

(** ** The value reader before the byte counter and the limiter

    The earlier [valueReader]: the same loop with neither [scanByteNum]
    nor [limiter]. *)
Module V0.

Record valueReader : Type := mkValueReader {
  reader                : Reader;
  delim                 : bytes;
  valueMaxScanSizeLimit : Z;
  isEOF                 : bool
}.

(** The [for] loop of [Next], on the bytes the source still holds. *)
Fixpoint scanLoop (v : valueReader) (data : bytes) (calls : nat)
    (buf : bytes) {struct data} : (bytes * option error) * valueReader :=
  let st data' calls' eof :=
    mkValueReader (mkReader data' (rd_err (reader v)) calls')
                  (delim v) (valueMaxScanSizeLimit v) eof in
  match data with
  | [] =>
    if isEOFErr (rd_err (reader v))
    then ((buf, None), st [] (S calls) true)
    else (([], Some (rd_err (reader v))), st [] (S calls) (isEOF v))
  | b :: data' =>
    let bs := buf ++ [b] in
    if tailIsDelim b bs (delim v) then
      ((firstn (length bs - length (delim v)) bs, None),
       st data' (S calls) (isEOF v))
    else if len bs =? valueMaxScanSizeLimit v then
      ((bs, Some ErrValueReaderMaxScanSizeLimit),
       st data' (S calls) (isEOF v))
    else scanLoop v data' (S calls) bs
  end.

Definition Next (v : valueReader) : (bytes * option error) * valueReader :=
  if isEOF v then (([], Some EOF), v)
  else scanLoop v (rd_data (reader v)) (rd_calls (reader v)) [].

(** [NewValueReader]; [None] is the panic on an empty delimiter. *)
Definition NewValueReader (rd : Reader) (d : bytes) (scanLimit : Z)
  : option valueReader :=
  if len d =? 0 then None
  else
    let bufLen := Z.max scanLimit MinValueMaxScanSizeLimit in
    Some (mkValueReader rd d bufLen false).

End V0.

(** A reader of the last revision seen as one of the earlier: the byte
    counter and the limiter are dropped. *)
Definition forget (v : valueReader) : V0.valueReader :=
  V0.mkValueReader (reader v) (delim v) (valueMaxScanSizeLimit v) (isEOF v).

(** ** The revisions side by side

    A splitter of the last revision seen as one of [V1] whose chunk
    numbers start at [start]: the chunk number is shifted, and
    [dataValueIndex], the index of the last value written, is the next
    value number less one. *)
Definition asV1 (start : Z) (s : splitter) : V1.splitter :=
  V1.mkSplitter (chunkSizeLimit s) (chunkBuffer s)
    (wrap64 (start + chunkSn s)) (chunkStartValueSn s)
    (wrap64 (nextValueSn s - 1)) (delimiter s) (s_valueMaxScanSizeLimit s)
    (valueFilter s) (started s) (stopped s).

(** The four arguments that the handler of [V1] gets for a chunk. *)
Definition asCall (start : Z) (c : FlushChunkArgs) : V1.FlushCall :=
  V1.mkFlushCall (wrap64 (start + ChunkSn c)) (StartValueSn c)
    (EndValueSn c) (ChunkData c).

Definition asConf (conf : V1.Conf) : Conf :=
  mkConf (V1.Delim conf) (V1.ChunkSizeLimit conf)
    (V1.ValueMaxScanSizeLimit conf) (V1.ValueFilter conf).

(** What [Split] returns where [RunSplit] returns [o]: a stop that was
    seen gives [nil]. *)
Definition asSplitResult (s : splitter) (o : outcome) : outcome :=
  if stopped s >? 0 then Returned None else o.

(** A splitter of the last revision seen as one of [V2], and the
    arguments that the handler of [V2] gets for a chunk: the payload with
    the delimiter still at its end. *)
Definition asV2 (s : splitter) : V2.splitter :=
  V2.mkSplitter (chunkSizeLimit s) (chunkBuffer s) (chunkSn s)
    (chunkStartValueSn s) (wrap64 (nextValueSn s - 1)) (delimiter s)
    (s_valueMaxScanSizeLimit s) (valueFilter s) (started s) (stopped s).

Definition asArgs (d : bytes) (c : FlushChunkArgs) : V2.FlushChunkArgs :=
  V2.mkFlushChunkArgs (ChunkSn c) (StartValueSn c) (EndValueSn c)
    (ChunkData c ++ d) (ScanByteNum c).

(** The chunk buffer is empty or ends with the delimiter. *)
Definition closedBuffer (d : bytes) (s : splitter) : Prop :=
  delimiter s = d /\ (chunkBuffer s = [] \/ exists p, chunkBuffer s = p ++ d).

(** ** Proof automation *)

Ltac split_ifs :=
  repeat match goal with
         | |- context [if ?c then _ else _] => destruct c
         end.

(** * Proofs *)

(** ** Arithmetic and list facts *)

Lemma len_nil (A : Type) : len (@nil A) = 0.
Proof. reflexivity. Qed.

Lemma len_app (A : Type) (a b : list A) : len (a ++ b) = len a + len b.
Proof. unfold len. rewrite length_app. lia. Qed.

Lemma len_cons (A : Type) (x : A) (l : list A) : len (x :: l) = 1 + len l.
Proof. unfold len. simpl length. lia. Qed.

Lemma len_nonneg (A : Type) (l : list A) : 0 <= len l.
Proof. unfold len. lia. Qed.

Lemma len_pos_iff (A : Type) (l : list A) : 0 < len l <-> l <> [].
Proof.
  destruct l as [|x l]; split; intro H.
  - rewrite len_nil in H. lia.
  - congruence.
  - discriminate.
  - rewrite len_cons. pose proof (len_nonneg l). lia.
Qed.

Lemma gtb_true (a b : Z) : (a >? b) = true <-> b < a.
Proof. rewrite Z.gtb_ltb. apply Z.ltb_lt. Qed.

Lemma gtb_false (a b : Z) : (a >? b) = false <-> a <= b.
Proof. rewrite Z.gtb_ltb. rewrite Z.ltb_ge. reflexivity. Qed.

Lemma wrap_small (w x : Z) :
  0 < w -> - 2 ^ (w - 1) <= x < 2 ^ (w - 1) -> wrap w x = x.
Proof.
  intros Hw Hx. unfold wrap.
  assert (E : 2 ^ w = 2 * 2 ^ (w - 1)).
  { replace w with (Z.succ (w - 1)) at 1 by lia. apply Z.pow_succ_r. lia. }
  rewrite Z.mod_small by lia. lia.
Qed.

Lemma wrap_wrap_add (w x k : Z) :
  0 < w -> wrap w (wrap w x + k) = wrap w (x + k).
Proof.
  intros Hw. unfold wrap. f_equal.
  assert (P : 0 < 2 ^ w) by (apply Z.pow_pos_nonneg; lia).
  replace ((x + 2 ^ (w - 1)) mod 2 ^ w - 2 ^ (w - 1) + k + 2 ^ (w - 1))
    with ((x + 2 ^ (w - 1)) mod 2 ^ w + k) by lia.
  rewrite Zplus_mod_idemp_l. f_equal. lia.
Qed.

Lemma wrap64_small (x : Z) : - 2 ^ 63 <= x < 2 ^ 63 -> wrap64 x = x.
Proof. intros H. apply wrap_small; [lia | exact H]. Qed.

Lemma wrap64_add (x k : Z) : wrap64 (wrap64 x + k) = wrap64 (x + k).
Proof. apply wrap_wrap_add. lia. Qed.

Lemma wrap64_sub (x k : Z) : wrap64 (wrap64 x - k) = wrap64 (x - k).
Proof.
  replace (wrap64 x - k) with (wrap64 x + - k) by lia.
  rewrite wrap64_add. reflexivity.
Qed.

Lemma bytes_eqb_eq (a b : bytes) : bytes_eqb a b = true <-> a = b.
Proof.
  revert b. induction a as [|x a IH]; intros [|y b]; simpl; split; intro H;
    try reflexivity; try discriminate.
  - destruct (Byte.eqb x y) eqn:E; [|discriminate].
    apply byte_dec_bl in E. apply IH in H. congruence.
  - injection H as -> ->. rewrite (byte_dec_lb eq_refl). apply IH. reflexivity.
Qed.

Lemma bytes_eqb_refl (a : bytes) : bytes_eqb a a = true.
Proof. apply bytes_eqb_eq. reflexivity. Qed.

Lemma firstn_app_exact (A : Type) (a b : list A) :
  firstn (length (a ++ b) - length b) (a ++ b) = a.
Proof.
  rewrite length_app.
  replace (length a + length b - length b)%nat with (length a + 0)%nat by lia.
  rewrite firstn_app_2. simpl. apply app_nil_r.
Qed.

(** The fast path on the last byte does not change the test. *)
Lemma tailIsDelim_endsWith (b : byte) (buf d : bytes) :
  d <> [] -> tailIsDelim b (buf ++ [b]) d = endsWith d (buf ++ [b]).
Proof.
  intros Hd. unfold tailIsDelim, endsWith.
  destruct (Byte.eqb b (last d x00)) eqn:E.
  - destruct (len d <=? len (buf ++ [b])); reflexivity.
  - destruct (len d <=? len (buf ++ [b])); [simpl|reflexivity].
    destruct (bytes_eqb _ d) eqn:Q; [|reflexivity].
    exfalso. apply bytes_eqb_eq in Q.
    pose proof (firstn_skipn (length (buf ++ [b]) - length d) (buf ++ [b])) as Ha.
    rewrite Q in Ha. symmetry in Ha.
    set (a := firstn _ _) in Ha. clearbody a.
    destruct (exists_last Hd) as [d' [z Hz]]. subst d.
    rewrite app_assoc in Ha. apply app_inj_tail in Ha as [_ Hb]. subst z.
    rewrite last_last in E. apply eqb_false in E. congruence.
Qed.

Lemma delimFree_spec (d bs : bytes) :
  delimFree d bs = true <-> forall n, endsWith d (firstn n bs) = false.
Proof.
  unfold delimFree. rewrite forallb_forall. split.
  - intros H n. destruct (Nat.le_gt_cases n (length bs)) as [L|L].
    + apply negb_true_iff. apply H. apply in_seq. lia.
    + rewrite firstn_all2 by lia. rewrite <- (firstn_all bs).
      apply negb_true_iff. apply H. apply in_seq. lia.
  - intros H n _. apply negb_true_iff. apply H.
Qed.

Lemma delimFree_snoc (d buf : bytes) (b : byte) :
  (forall n, endsWith d (firstn n buf) = false) ->
  endsWith d (buf ++ [b]) = false ->
  forall n, endsWith d (firstn n (buf ++ [b])) = false.
Proof.
  intros H E n. destruct (Nat.le_gt_cases n (length buf)) as [L|L].
  - rewrite firstn_app. replace (n - length buf)%nat with 0%nat by lia.
    simpl. rewrite app_nil_r. apply H.
  - rewrite firstn_all2; [exact E|]. rewrite length_app. simpl. lia.
Qed.

(** ** Facts about the value reader *)

Section ScanLoop.

Variable v : valueReader.

(** One iteration of the read loop, with the byte source consulted
    through [ReadByte]. *)
Lemma scanLoop_ReadByte (data : bytes) (calls : nat) (lim : option Limiter)
    (sbn : Z) (buf : bytes) :
  scanLoop v data calls lim sbn buf =
  let st r sbn' eof lim' :=
    mkValueReader r (delim v) (valueMaxScanSizeLimit v) sbn' eof lim' in
  let src := mkReader data (rd_err (reader v)) calls in
  match waitLimiter lim with
  | (Some e, lim') => (([], Some e), st src sbn (isEOF v) lim')
  | (None, lim') =>
    match ReadByte src with
    | (inr e, src') =>
      if isEOFErr e then ((buf, None), st src' sbn true lim')
      else (([], Some e), st src' sbn (isEOF v) lim')
    | (inl b, src') =>
      let bs := buf ++ [b] in
      if tailIsDelim b bs (delim v) then
        ((firstn (length bs - length (delim v)) bs, None),
         st src' (wrap64 (sbn + 1)) (isEOF v) lim')
      else if len bs =? valueMaxScanSizeLimit v then
        ((bs, Some ErrValueReaderMaxScanSizeLimit),
         st src' (wrap64 (sbn + 1)) (isEOF v) lim')
      else scanLoop v (rd_data src') (rd_calls src') lim' (wrap64 (sbn + 1)) bs
    end
  end.
Proof. destruct data; reflexivity. Qed.

(** What one run of the read loop leaves behind. *)
Lemma scanLoop_spec (data : bytes) :
  forall calls lim sbn buf val e v',
    scanLoop v data calls lim sbn buf = ((val, e), v') ->
    delim v' = delim v
    /\ valueMaxScanSizeLimit v' = valueMaxScanSizeLimit v
    /\ rd_err (reader v') = rd_err (reader v)
    /\ (lim = None -> limiter v' = None)
    /\ exists consumed,
        data = consumed ++ rd_data (reader v')
        /\ (e = None ->
            (isEOF v' = true /\ rd_data (reader v') = []
             /\ val = buf ++ consumed)
            \/ (isEOF v' = isEOF v /\ consumed <> []
                /\ buf ++ consumed = val ++ delim v)).
Proof.
  induction data as [|b data IH]; intros calls lim sbn buf val e v' H;
    simpl in H.
  - destruct (waitLimiter lim) as [[we|] lim'] eqn:W.
    + injection H as <- <- <-. simpl. repeat split; auto.
      * intros ->. simpl in W. congruence.
      * exists []. split; [reflexivity | discriminate].
    + destruct (isEOFErr (rd_err (reader v))); injection H as <- <- <-; simpl;
        repeat split; auto;
        try (intros ->; simpl in W; congruence);
        exists []; (split; [reflexivity|]).
      * intros _. left. rewrite app_nil_r. auto.
      * discriminate.
  - destruct (waitLimiter lim) as [[we|] lim'] eqn:W.
    + injection H as <- <- <-. simpl. repeat split; auto.
      * intros ->. simpl in W. congruence.
      * exists []. split; [reflexivity | discriminate].
    + assert (L : lim = None -> lim' = None).
      { intros ->. simpl in W. congruence. }
      destruct (tailIsDelim b (buf ++ [b]) (delim v)) eqn:T.
      * injection H as <- <- <-. simpl. repeat split; auto.
        exists [b]. split; [reflexivity|]. intros _. right.
        repeat split; [discriminate|].
        unfold tailIsDelim in T.
        destruct (Byte.eqb b (last (delim v) x00)); [|discriminate].
        destruct (len (delim v) <=? len (buf ++ [b])); [|discriminate].
        apply bytes_eqb_eq in T.
        rewrite <- T at 2. symmetry. apply firstn_skipn.
      * destruct (len (buf ++ [b]) =? valueMaxScanSizeLimit v).
        -- injection H as <- <- <-. simpl. repeat split; auto.
           exists [b]. split; [reflexivity | discriminate].
        -- apply IH in H as (D & M & R & Lm & consumed & Hd & He).
           repeat split; auto.
           exists (b :: consumed). split; [simpl; congruence|].
           intros E. destruct (He E) as [(A & B & C)|(A & B & C)].
           ++ left. repeat split; auto. rewrite C, <- app_assoc. reflexivity.
           ++ right. repeat split; auto; [discriminate|].
              rewrite <- C, <- app_assoc. reflexivity.
Qed.

(** A value returned without an error does not contain the delimiter. *)
Lemma scanLoop_value_free (data : bytes) :
  delim v <> [] ->
  forall calls lim sbn buf val v',
    (forall n, endsWith (delim v) (firstn n buf) = false) ->
    scanLoop v data calls lim sbn buf = ((val, None), v') ->
    forall n, endsWith (delim v) (firstn n val) = false.
Proof.
  intros Hd. induction data as [|b data IH]; intros calls lim sbn buf val v' F H;
    simpl in H.
  - destruct (waitLimiter lim) as [[we|] lim']; [discriminate|].
    destruct (isEOFErr (rd_err (reader v))); [|discriminate].
    injection H as <- _. exact F.
  - destruct (waitLimiter lim) as [[we|] lim']; [discriminate|].
    destruct (tailIsDelim b (buf ++ [b]) (delim v)) eqn:T.
    + injection H as <- _. intros n.
      rewrite firstn_firstn.
      assert (K : (0 < length (delim v))%nat).
      { destruct (delim v); [congruence | simpl; lia]. }
      rewrite firstn_app.
      replace (Nat.min n (length (buf ++ [b]) - length (delim v)) - length buf)%nat
        with 0%nat by (rewrite length_app; simpl; lia).
      simpl. rewrite app_nil_r. apply F.
    + destruct (len (buf ++ [b]) =? valueMaxScanSizeLimit v); [discriminate|].
      eapply IH; [|exact H].
      apply delimFree_snoc; [exact F|].
      rewrite <- tailIsDelim_endsWith by exact Hd. exact T.
Qed.

(** A stream that ends before any delimiter shows up: the loop returns
    everything it read, without an error, and records the end. *)
Lemma scanLoop_to_EOF (data : bytes) :
  rd_err (reader v) = EOF ->
  delim v <> [] ->
  forall calls lim sbn buf,
    (forall l, lim = Some l -> forall k, lim_result l k = None) ->
    (forall n, (1 <= n <= length data)%nat ->
               endsWith (delim v) (buf ++ firstn n data) = false) ->
    len buf + len data < valueMaxScanSizeLimit v ->
    exists v',
      scanLoop v data calls lim sbn buf = ((buf ++ data, None), v')
      /\ isEOF v' = true
      /\ reader v' = mkReader [] EOF (S (calls + length data))
      /\ scanByteNum v'
         = match data with [] => sbn | _ => wrap64 (sbn + len data) end
      /\ delim v' = delim v
      /\ valueMaxScanSizeLimit v' = valueMaxScanSizeLimit v
      /\ (lim = None -> limiter v' = None).
Proof.
  intros Herr Hd. induction data as [|b data IH];
    intros calls lim sbn buf Hl F Hlen; simpl.
  - assert (W : exists lim', waitLimiter lim = (None, lim')
                             /\ (lim = None -> lim' = None)).
    { destruct lim as [l|]; simpl.
      - rewrite (Hl l eq_refl). eexists. split; [reflexivity | discriminate].
      - eexists. split; [reflexivity | auto]. }
    destruct W as (lim' & -> & Wn). rewrite Herr. simpl.
    eexists. split; [rewrite app_nil_r; reflexivity|]. simpl.
    rewrite Nat.add_0_r. repeat split; auto.
  - assert (W : exists lim', waitLimiter lim = (None, lim')
                  /\ (lim = None -> lim' = None)
                  /\ (forall l, lim' = Some l -> forall k, lim_result l k = None)).
    { destruct lim as [l|]; simpl.
      - rewrite (Hl l eq_refl). eexists. split; [reflexivity|].
        split; [discriminate|]. intros l' E k. injection E as <-. simpl.
        apply (Hl l eq_refl).
      - eexists. split; [reflexivity|]. split; [auto|]. discriminate. }
    destruct W as (lim' & -> & Wn & Wl).
    rewrite tailIsDelim_endsWith by exact Hd.
    assert (F1 : endsWith (delim v) (buf ++ [b]) = false).
    { apply (F 1%nat). simpl. lia. }
    rewrite F1.
    rewrite len_app, len_cons, len_nil in *.
    replace (len buf + (1 + 0) =? valueMaxScanSizeLimit v) with false
      by (symmetry; apply Z.eqb_neq; pose proof (len_nonneg data); lia).
    destruct (IH (S calls) lim' (wrap64 (sbn + 1)) (buf ++ [b]))
      as (v' & E & A1 & A2 & A3 & A4 & A5 & A6); auto.
    + intros n Hn. rewrite <- app_assoc. apply (F (S n)). simpl. lia.
    + rewrite len_app, len_cons, len_nil. lia.
    + exists v'. rewrite E, <- app_assoc. simpl. split; [reflexivity|].
      repeat split; auto.
      * rewrite A2. f_equal. lia.
      * rewrite A3, len_cons. destruct data as [|b' data'].
        -- rewrite len_nil. f_equal; lia.
        -- rewrite wrap64_add. f_equal; lia.
Qed.

End ScanLoop.

(** After the end of the stream was recorded, [Next] reports it at once
    and leaves the reader, the byte source included, as it is. *)
Lemma Next_after_EOF (v : valueReader) :
  isEOF v = true -> Next v = (([], Some EOF), v).
Proof. unfold Next. intros ->. reflexivity. Qed.

(** The static fields of a reader survive [Next]. *)
Lemma Next_static (v v' : valueReader) (val : bytes) (e : option error) :
  Next v = ((val, e), v') ->
  delim v' = delim v
  /\ valueMaxScanSizeLimit v' = valueMaxScanSizeLimit v
  /\ (limiter v = None -> limiter v' = None).
Proof.
  unfold Next. destruct (isEOF v) eqn:E.
  - intros H. injection H as <- <- <-. auto.
  - intros H. apply scanLoop_spec in H as (A & B & _ & C & _). auto.
Qed.

(** A successful [Next] ends the stream or eats at least one byte. *)
Lemma Next_progress (v v' : valueReader) (val : bytes) :
  Next v = ((val, None), v') ->
  isEOF v = false
  /\ ((isEOF v' = true /\ rd_data (reader v') = [])
      \/ (isEOF v' = false
          /\ (length (rd_data (reader v')) < length (rd_data (reader v)))%nat)).
Proof.
  unfold Next. destruct (isEOF v) eqn:E; [discriminate|].
  intros H. split; [reflexivity|].
  apply scanLoop_spec in H as (_ & _ & _ & _ & consumed & Hd & He).
  destruct (He eq_refl) as [(A & B & _)|(A & B & _)].
  - left. auto.
  - right. split; [congruence|]. rewrite Hd, length_app.
    destruct consumed; [congruence | simpl; lia].
Qed.

(** Values returned without an error never contain the delimiter. *)
Lemma Next_value_free (v v' : valueReader) (val : bytes) :
  delim v <> [] ->
  Next v = ((val, None), v') ->
  forall n, endsWith (delim v) (firstn n val) = false.
Proof.
  unfold Next. destruct (isEOF v); [discriminate|].
  intros Hd H. eapply scanLoop_value_free; [exact Hd| |exact H].
  intros n. rewrite firstn_nil. unfold endsWith.
  destruct (delim v) as [|x d]; [congruence|]. reflexivity.
Qed.

(** ** Facts about one pass through the loop body *)

Lemma preFlushCond_true (s : splitter) (value : bytes) :
  preFlushCond s value = true <->
  chunkSizeLimit s < len (chunkBuffer s) + len value /\ 0 < len (chunkBuffer s).
Proof.
  unfold preFlushCond. rewrite andb_true_iff, !gtb_true. reflexivity.
Qed.

Lemma preFlushCond_false (s : splitter) (value : bytes) :
  preFlushCond s value = false <->
  ~ (chunkSizeLimit s < len (chunkBuffer s) + len value
     /\ 0 < len (chunkBuffer s)).
Proof.
  rewrite <- preFlushCond_true. destruct (preFlushCond s value); split;
    congruence.
Qed.

(** An empty value leaves everything as it is. *)
Lemma appendValue_empty (s : splitter) (vr : valueReader) (w : world) :
  appendValue s vr [] w = Some (s, w).
Proof. reflexivity. Qed.

(** A value appended without a flush. *)
Lemma appendValue_keep (s : splitter) (vr : valueReader) (value : bytes)
    (w : world) :
  0 < len value ->
  preFlushCond s value = false ->
  appendValue s vr value w =
  Some (mkSplitter (chunkSizeLimit s)
          ((chunkBuffer s ++ value) ++ delimiter s)
          (chunkSn s) (chunkStartValueSn s) (wrap64 (nextValueSn s + 1))
          (delimiter s) (s_valueMaxScanSizeLimit s) (valueFilter s)
          (started s) (stopped s), w).
Proof.
  intros Hv Hc. unfold appendValue.
  rewrite (proj2 (gtb_true _ _) Hv), Hc. reflexivity.
Qed.

(** What [emitChunk] does when the buffer holds at least a delimiter. *)
Lemma emitChunk_ok (s : splitter) (vr : valueReader) (w : world) :
  len (delimiter s) <= len (chunkBuffer s) ->
  emitChunk s vr w =
  Some (mkSplitter (chunkSizeLimit s) [] (wrap64 (chunkSn s + 1))
          (chunkStartValueSn s) (nextValueSn s) (delimiter s)
          (s_valueMaxScanSizeLimit s) (valueFilter s) (started s) (stopped s),
        mkWorld
          (flushed w ++
           [mkFlushChunkArgs (chunkSn s) (chunkStartValueSn s)
              (wrap64 (nextValueSn s - 1))
              (firstn (length (chunkBuffer s) - length (delimiter s))
                      (chunkBuffer s))
              (scanByteNum vr)])
          (filterCalls w)).
Proof.
  intros H. unfold emitChunk, flushChunk. simpl.
  replace (len (chunkBuffer s) - len (delimiter s) <? 0) with false
    by (symmetry; apply Z.ltb_ge; lia).
  reflexivity.
Qed.

(** [emitChunk] panics on a buffer shorter than the delimiter. *)
Lemma emitChunk_short (s : splitter) (vr : valueReader) (w : world) :
  len (chunkBuffer s) < len (delimiter s) -> emitChunk s vr w = None.
Proof.
  intros H. unfold emitChunk, flushChunk. simpl.
  replace (len (chunkBuffer s) - len (delimiter s) <? 0) with true
    by (symmetry; apply Z.ltb_lt; lia).
  reflexivity.
Qed.

(** A value appended after a flush of what was buffered before. *)
Lemma appendValue_flush (s : splitter) (vr : valueReader) (value : bytes)
    (w : world) :
  0 < len value ->
  preFlushCond s value = true ->
  len (delimiter s) <= len (chunkBuffer s) ->
  appendValue s vr value w =
  Some (mkSplitter (chunkSizeLimit s) (value ++ delimiter s)
          (wrap64 (chunkSn s + 1)) (nextValueSn s)
          (wrap64 (nextValueSn s + 1))
          (delimiter s) (s_valueMaxScanSizeLimit s) (valueFilter s)
          (started s) (stopped s),
        mkWorld
          (flushed w ++
           [mkFlushChunkArgs (chunkSn s) (chunkStartValueSn s)
              (wrap64 (nextValueSn s - 1))
              (firstn (length (chunkBuffer s) - length (delimiter s))
                      (chunkBuffer s))
              (scanByteNum vr)])
          (filterCalls w)).
Proof.
  intros Hv Hc Hd. unfold appendValue.
  rewrite (proj2 (gtb_true _ _) Hv), Hc, (emitChunk_ok s vr w Hd).
  reflexivity.
Qed.

Lemma applyFilter_value (s : splitter) (value : bytes) (w : world) :
  fst (applyFilter s value w) = filterValue (valueFilter s) value.
Proof.
  unfold applyFilter, filterValue. destruct (valueFilter s); [|reflexivity].
  destruct (len value >? 0); reflexivity.
Qed.

Lemma applyFilter_flushed (s : splitter) (value : bytes) (w : world) :
  flushed (snd (applyFilter s value w)) = flushed w.
Proof.
  unfold applyFilter. destruct (valueFilter s); [|reflexivity].
  destruct (len value >? 0); reflexivity.
Qed.

(** ** Facts about the invariant *)

Lemma framed_snoc (d : bytes) (vs : list bytes) (v : bytes) :
  framed d (vs ++ [v]) = (framed d vs ++ v) ++ d.
Proof.
  induction vs as [|x vs IH]; simpl.
  - rewrite app_nil_r. reflexivity.
  - rewrite IH, <- !app_assoc. reflexivity.
Qed.

Lemma framed_join (d : bytes) (vs : list bytes) :
  vs <> [] -> framed d vs = join d vs ++ d.
Proof.
  induction vs as [|x vs IH]; [congruence|]. intros _.
  destruct vs as [|y vs]; [simpl; rewrite app_nil_r; reflexivity|].
  change (framed d (x :: y :: vs)) with (x ++ d ++ framed d (y :: vs)).
  change (join d (x :: y :: vs)) with (x ++ d ++ join d (y :: vs)).
  rewrite IH by discriminate. rewrite <- !app_assoc. reflexivity.
Qed.

Lemma join_snoc (d : bytes) (vs : list bytes) (v : bytes) :
  vs <> [] -> join d (vs ++ [v]) = framed d vs ++ v.
Proof.
  induction vs as [|x vs IH]; [congruence|]. intros _.
  destruct vs as [|y vs];
    [simpl; rewrite app_nil_r, <- app_assoc; reflexivity|].
  change (join d ((x :: y :: vs) ++ [v]))
    with (x ++ d ++ join d ((y :: vs) ++ [v])).
  rewrite IH by discriminate.
  change (framed d (x :: y :: vs)) with (x ++ d ++ framed d (y :: vs)).
  rewrite <- !app_assoc. reflexivity.
Qed.

Lemma framed_nonempty (d : bytes) (vs : list bytes) :
  Forall nonEmpty vs -> (0 < len (framed d vs) <-> vs <> []).
Proof.
  intros F. destruct vs as [|x vs]; simpl.
  - rewrite len_nil. split; [lia | congruence].
  - split; [discriminate|]. intros _. inversion F as [|? ? Hx _]; subst.
    rewrite len_app. apply len_pos_iff in Hx.
    pose proof (len_nonneg (d ++ framed d vs)). lia.
Qed.

Lemma described_snoc (d : bytes) (gs : list (list bytes)) :
  forall csn vsn cs g c,
    described d csn vsn gs cs ->
    g <> [] ->
    ChunkSn c = wrap64 (csn + len gs) ->
    StartValueSn c = wrap64 (vsn + len (concat gs)) ->
    EndValueSn c = wrap64 (vsn + len (concat gs) + len g - 1) ->
    ChunkData c = join d g ->
    described d csn vsn (gs ++ [g]) (cs ++ [c]).
Proof.
  induction gs as [|g0 gs IH]; intros csn vsn [|c0 cs] g c H Hg H1 H2 H3 H4;
    simpl in H; try contradiction.
  - simpl. simpl concat in *. rewrite len_nil, Z.add_0_r in *.
    repeat split; assumption.
  - destruct H as (G0 & A & B & C & D & H). simpl.
    repeat split; auto.
    apply IH; auto.
    + rewrite H1, len_cons. f_equal. lia.
    + rewrite H2. simpl concat. rewrite len_app. f_equal. lia.
    + rewrite H3. simpl concat. rewrite len_app. f_equal. lia.
Qed.

Lemma sizeOK_single (d : bytes) (limit : Z) (v : bytes) : sizeOK d limit [v].
Proof.
  unfold sizeOK. simpl. destruct (Z.le_gt_cases (len v) limit); [auto|].
  right. exists v. split; [reflexivity | lia].
Qed.

Lemma StInv_Stop d limit flt s gs cur :
  StInv d limit flt s gs cur -> StInv d limit flt (Stop s) gs cur.
Proof. intros []. constructor; assumption. Qed.

Section Steps.

Variables (d : bytes) (limit : Z) (flt : option (bytes -> bytes)).

(** A non-empty value goes into the buffer, after a flush when needed. *)
Lemma appendValue_inv s vr value w gs cur :
  StInv d limit flt s gs cur ->
  OutInv d limit w gs ->
  value <> [] ->
  exists s' w' gs' cur',
    appendValue s vr value w = Some (s', w')
    /\ StInv d limit flt s' gs' cur'
    /\ OutInv d limit w' gs'
    /\ concat gs' ++ cur' = concat gs ++ cur ++ [value]
    /\ filterCalls w' = filterCalls w
    /\ stopped s' = stopped s /\ started s' = started s.
Proof.
  intros St Out Hv. destruct St, Out.
  assert (Pv : 0 < len value) by (apply len_pos_iff; exact Hv).
  destruct (preFlushCond s value) eqn:C.
  - apply preFlushCond_true in C as [C1 C2].
    assert (Hc : cur <> []).
    { rewrite st_buffer0 in C2. apply framed_nonempty in C2; assumption. }
    assert (Hb : chunkBuffer s = join d cur ++ d).
    { rewrite st_buffer0. apply framed_join, Hc. }
    rewrite appendValue_flush; try (apply preFlushCond_true; split); auto.
    2:{ rewrite Hb, st_delim0, len_app. pose proof (len_nonneg (join d cur)). lia. }
    eexists _, _, (gs ++ [cur]), [value]. split; [reflexivity|].
    split; [|split; [|split; [|split; [|split]]]]; try reflexivity.
    + constructor; simpl; auto.
      * rewrite st_delim0, app_nil_r. reflexivity.
      * rewrite st_csn0, wrap64_add, len_app, len_cons, len_nil.
        f_equal; lia.
      * rewrite st_next0, concat_app. simpl. rewrite app_nil_r, len_app.
        reflexivity.
      * rewrite st_next0, wrap64_add, concat_app. simpl.
        rewrite app_nil_r, len_app, len_cons, len_nil. f_equal; lia.
      * intros _. apply sizeOK_single.
    + constructor; simpl.
      * apply described_snoc; simpl; auto.
        -- rewrite st_next0, wrap64_sub. f_equal; lia.
        -- rewrite Hb, st_delim0. apply firstn_app_exact.
      * apply Forall_app. split; [assumption|]. constructor; auto.
      * apply Forall_app. split; [assumption|]. constructor; auto.
    + rewrite concat_app. simpl. rewrite app_nil_r, <- app_assoc. reflexivity.
  - rewrite appendValue_keep by assumption.
    eexists _, _, gs, (cur ++ [value]). split; [reflexivity|].
    split; [|split; [|split; [|split; [|split]]]]; try reflexivity.
    + constructor; simpl; auto.
      * rewrite st_delim0, st_buffer0. symmetry. apply framed_snoc.
      * rewrite st_next0, wrap64_add, len_app, len_cons, len_nil.
        f_equal; lia.
      * apply Forall_app. split; [assumption|]. constructor; auto.
      * intros _. destruct cur as [|x cur']; [apply sizeOK_single|].
        left. rewrite join_snoc by discriminate.
        apply preFlushCond_false in C.
        rewrite st_buffer0, st_limit0 in C.
        assert (0 < len (framed d (x :: cur'))).
        { apply framed_nonempty; [assumption | discriminate]. }
        rewrite len_app. lia.
    + constructor; assumption.
Qed.

(** The flush at the end of the stream empties the buffer into a chunk. *)
Lemma flushAtEOF_inv s vr w gs cur :
  StInv d limit flt s gs cur ->
  OutInv d limit w gs ->
  exists s' w' gs',
    flushAtEOF s vr w = Some (s', w')
    /\ OutInv d limit w' gs'
    /\ concat gs' = concat gs ++ cur
    /\ chunkBuffer s' = []
    /\ filterCalls w' = filterCalls w
    /\ stopped s' = stopped s /\ started s' = started s.
Proof.
  intros St Out. destruct St, Out. unfold flushAtEOF.
  destruct (len (chunkBuffer s) >? 0) eqn:C.
  - apply gtb_true in C.
    assert (Hc : cur <> []).
    { rewrite st_buffer0 in C. apply framed_nonempty in C; assumption. }
    assert (Hb : chunkBuffer s = join d cur ++ d).
    { rewrite st_buffer0. apply framed_join, Hc. }
    rewrite emitChunk_ok.
    2:{ rewrite Hb, st_delim0, len_app. pose proof (len_nonneg (join d cur)). lia. }
    eexists _, _, (gs ++ [cur]). split; [reflexivity|].
    split; [|split; [|repeat split]].
    + constructor; simpl.
      * apply described_snoc; simpl; auto.
        -- rewrite st_next0, wrap64_sub. f_equal; lia.
        -- rewrite Hb, st_delim0. apply firstn_app_exact.
      * apply Forall_app. split; [assumption|]. constructor; auto.
      * apply Forall_app. split; [assumption|]. constructor; auto.
    + rewrite concat_app. simpl. rewrite app_nil_r. reflexivity.
  - apply gtb_false in C.
    assert (Hc : cur = []).
    { destruct cur as [|x cur']; [reflexivity|]. exfalso.
      assert (0 < len (framed d (x :: cur'))).
      { apply framed_nonempty; [assumption | discriminate]. }
      rewrite st_buffer0 in C. lia. }
    subst cur. exists s, w, gs. split; [reflexivity|].
    split; [constructor; assumption|]. rewrite app_nil_r. auto.
Qed.

End Steps.

(** ** Facts about whole runs *)

Lemma scanLoop_error_value (v : valueReader) (data : bytes) :
  forall calls lim sbn buf val e v',
    scanLoop v data calls lim sbn buf = ((val, Some e), v') ->
    isEOFErr e = true -> val = [].
Proof.
  induction data as [|b data IH]; intros calls lim sbn buf val e v' H E;
    simpl in H.
  - destruct (waitLimiter lim) as [[we|] lim'].
    + injection H as <- _ _. reflexivity.
    + destruct (isEOFErr (rd_err (reader v))); [discriminate|].
      injection H as <- _ _. reflexivity.
  - destruct (waitLimiter lim) as [[we|] lim'].
    + injection H as <- _ _. reflexivity.
    + destruct (tailIsDelim b (buf ++ [b]) (delim v)); [discriminate|].
      destruct (len (buf ++ [b]) =? valueMaxScanSizeLimit v).
      * injection H as _ <- _. discriminate.
      * eapply IH; eassumption.
Qed.

(** [Next] never pairs an end-of-stream error with bytes. *)
Lemma Next_EOF_value (v v' : valueReader) (val : bytes) (e : error) :
  Next v = ((val, Some e), v') -> isEOFErr e = true -> val = [].
Proof.
  unfold Next. destruct (isEOF v).
  - intros H _. injection H as <- _ _. reflexivity.
  - apply scanLoop_error_value.
Qed.

Lemma accept_cons flt (v : bytes) (vs : list bytes) :
  accept flt (v :: vs) = accept flt [v] ++ accept flt vs.
Proof.
  unfold accept. simpl. destruct (len (filterValue flt v) >? 0); reflexivity.
Qed.

Lemma filterValue_nil flt : filterValue flt [] = [].
Proof. unfold filterValue. destruct flt; reflexivity. Qed.

Lemma accept_single flt (v : bytes) :
  accept flt [v] =
  match filterValue flt v with [] => [] | x :: r => [x :: r] end.
Proof.
  unfold accept. simpl. destruct (filterValue flt v) as [|x r]; [reflexivity|].
  replace (len (x :: r) >? 0) with true; [reflexivity|].
  symmetry. apply gtb_true. apply len_pos_iff. discriminate.
Qed.

Lemma OutInv_flushed d limit w w' gs :
  flushed w' = flushed w -> OutInv d limit w gs -> OutInv d limit w' gs.
Proof. intros E []. constructor; [rewrite E|..]; assumption. Qed.

Lemma not_fatal_not_EOF (err : option error) :
  isFatal err = false -> isEOFResult err = false -> err = None.
Proof.
  destruct err as [e|]; [|reflexivity]. simpl.
  destruct (isEOFErr e); discriminate.
Qed.

Section Loop.

Variables (sched : nat -> bool) (d : bytes) (limit : Z)
          (flt : option (bytes -> bytes)).

(** The filter and append steps of one iteration, taken together. *)
Lemma body_inv s vr value w gs cur :
  StInv d limit flt s gs cur ->
  OutInv d limit w gs ->
  exists s2 w2 gs2 cur2,
    (let '(value1, w1) := applyFilter s value w in
     appendValue s vr value1 w1) = Some (s2, w2)
    /\ StInv d limit flt s2 gs2 cur2
    /\ OutInv d limit w2 gs2
    /\ concat gs2 ++ cur2 = concat gs ++ cur ++ accept flt [value]
    /\ stopped s2 = stopped s /\ started s2 = started s.
Proof.
  intros St Out.
  pose proof (applyFilter_value s value w) as V.
  pose proof (applyFilter_flushed s value w) as Fl.
  destruct (applyFilter s value w) as [value1 w1]. simpl in V, Fl.
  rewrite (st_filter St) in V. rewrite accept_single, <- V.
  destruct value1 as [|x r].
  - exists s, w1, gs, cur. rewrite appendValue_empty, app_nil_r.
    split; [reflexivity|]. split; [assumption|].
    split; [eapply OutInv_flushed; eassumption | auto].
  - destruct (@appendValue_inv d limit flt s vr (x :: r) w1 gs cur)
      as (s2 & w2 & gs2 & cur2 & A & B & C & D & _ & E & F);
      [assumption | eapply OutInv_flushed; eassumption | discriminate |].
    exists s2, w2, gs2, cur2. tauto.
Qed.

Lemma runLoop_inv :
  forall fuel i s vr w gs cur o s' vr' w',
    StInv d limit flt s gs cur ->
    OutInv d limit w gs ->
    runLoop sched fuel i s vr w = Some (o, s', vr', w') ->
    o <> Panicked
    /\ started s' = started s
    /\ exists gs' rest vs tail,
        OutInv d limit w' gs'
        /\ accept flt (scanValues fuel vr) = vs ++ tail
        /\ concat gs' ++ rest = concat gs ++ cur ++ vs
        /\ (o = Returned None -> rest = [] /\ tail = []).
Proof.
  induction fuel as [|fuel IH]; intros i s vr w gs cur o s' vr' w' St Out H;
    [discriminate|].
  cbn [runLoop] in H.
  set (s1 := if sched i then Stop s else s) in *.
  assert (St1 : StInv d limit flt s1 gs cur).
  { subst s1. destruct (sched i); [apply StInv_Stop|]; assumption. }
  assert (Sd : started s1 = started s).
  { subst s1. destruct (sched i); reflexivity. }
  clearbody s1.
  destruct (stopped s1 >? 0).
  { injection H as <- <- <- <-. split; [discriminate|]. split; [exact Sd|].
    exists gs, cur, [], (accept flt (scanValues (S fuel) vr)).
    rewrite !app_nil_r. split; [assumption|]. split; [reflexivity|].
    split; [reflexivity | discriminate]. }
  destruct (Next vr) as [[value err] vr1] eqn:N.
  destruct (isFatal err) eqn:Fa.
  { injection H as <- <- <- <-. split; [discriminate|]. split; [exact Sd|].
    exists gs, cur, [], (accept flt (scanValues (S fuel) vr)).
    rewrite !app_nil_r. split; [assumption|]. split; [reflexivity|].
    split; [reflexivity|]. intros E. injection E as ->. discriminate Fa. }
  destruct (@body_inv s1 vr1 value w gs cur St1 Out)
    as (s2 & w2 & gs2 & cur2 & A & St2 & Out2 & Cc & _ & Sd2).
  destruct (applyFilter s1 value w) as [value1 w1].
  rewrite A in H.
  destruct (isEOFResult err) eqn:EO.
  - destruct err as [e|]; [|discriminate]. simpl in EO.
    pose proof (Next_EOF_value _ N EO) as ->.
    rewrite accept_single, filterValue_nil, app_nil_r in Cc.
    destruct (@flushAtEOF_inv d limit flt s2 vr1 w2 gs2 cur2 St2 Out2)
      as (s3 & w3 & gs3 & B & Out3 & C3 & _ & _ & _ & Sd3).
    rewrite B in H. injection H as <- <- <- <-.
    split; [discriminate|]. split; [congruence|].
    exists gs3, [], [], []. rewrite !app_nil_r. cbn [scanValues].
    rewrite N. split; [assumption|]. split; [reflexivity|].
    split; [congruence | auto].
  - pose proof (not_fatal_not_EOF _ Fa EO) as ->.
    destruct (IH _ _ _ _ _ _ _ _ _ _ St2 Out2 H)
      as (NP & Sd3 & gs' & rest & vs & tail & Out' & Acc & Cc' & Fin).
    split; [exact NP|]. split; [congruence|].
    exists gs', rest, (accept flt [value] ++ vs), tail.
    cbn [scanValues]. rewrite N.
    rewrite accept_cons, Acc, Cc', (app_assoc (concat gs2)), Cc.
    rewrite <- !app_assoc. auto.
Qed.

(** The fuel [RunSplit] hands to the loop is enough. *)
Lemma runLoop_fuel :
  forall fuel i s vr w gs cur,
    StInv d limit flt s gs cur ->
    OutInv d limit w gs ->
    ((if isEOF vr then 0 else S (length (rd_data (reader vr)))) < fuel)%nat ->
    runLoop sched fuel i s vr w <> None.
Proof.
  induction fuel as [|fuel IH]; intros i s vr w gs cur St Out M; [lia|].
  cbn [runLoop].
  set (s1 := if sched i then Stop s else s) in *.
  assert (St1 : StInv d limit flt s1 gs cur).
  { subst s1. destruct (sched i); [apply StInv_Stop|]; assumption. }
  clearbody s1.
  destruct (stopped s1 >? 0); [discriminate|].
  destruct (Next vr) as [[value err] vr1] eqn:N.
  destruct (isFatal err) eqn:Fa; [discriminate|].
  destruct (@body_inv s1 vr1 value w gs cur St1 Out)
    as (s2 & w2 & gs2 & cur2 & A & St2 & Out2 & _).
  destruct (applyFilter s1 value w) as [value1 w1].
  rewrite A.
  destruct (isEOFResult err) eqn:EO.
  - destruct (flushAtEOF s2 vr1 w2) as [[s3 w3]|]; discriminate.
  - pose proof (not_fatal_not_EOF _ Fa EO) as ->.
    apply Next_progress in N as [E0 P]. rewrite E0 in M.
    eapply IH; eauto.
    destruct P as [[-> _]|[-> P]]; lia.
Qed.

End Loop.

(** A run that returns [nil] has scanned up to the end of the stream. *)
Lemma runLoop_success_scanEnd (sched : nat -> bool) :
  forall fuel i s vr w s' vr' w',
    runLoop sched fuel i s vr w = Some (Returned None, s', vr', w') ->
    exists e, scanEnd fuel vr = Some e /\ isEOFErr e = true.
Proof.
  induction fuel as [|fuel IH]; intros i s vr w s' vr' w' H; [discriminate|].
  cbn [runLoop] in H. cbn [scanEnd].
  set (s1 := if sched i then Stop s else s) in *. clearbody s1.
  destruct (stopped s1 >? 0); [discriminate|].
  destruct (Next vr) as [[value err] vr1].
  destruct (isFatal err) eqn:Fa.
  { injection H as -> _ _ _. discriminate. }
  destruct (applyFilter s1 value w) as [value1 w1].
  destruct (appendValue s1 vr1 value1 w1) as [[s2 w2]|]; [|discriminate].
  destruct (isEOFResult err) eqn:EO.
  - destruct err as [e|]; [|discriminate]. exists e. auto.
  - pose proof (not_fatal_not_EOF _ Fa EO) as ->. eapply IH, H.
Qed.

Lemma scanLoop_error_not_EOF (v : valueReader) (data : bytes) :
  forall calls sbn buf val e v',
    scanLoop v data calls None sbn buf = ((val, Some e), v') ->
    isEOFErr e = false.
Proof.
  induction data as [|b data IH]; intros calls sbn buf val e v' H;
    simpl in H.
  - destruct (isEOFErr (rd_err (reader v))) eqn:E; [discriminate|].
    injection H as _ <- _. exact E.
  - destruct (tailIsDelim b (buf ++ [b]) (delim v)); [discriminate|].
    destruct (len (buf ++ [b]) =? valueMaxScanSizeLimit v).
    + injection H as _ <- _. reflexivity.
    + eapply IH, H.
Qed.

(** The values of a stream that was scanned to its end, with the
    delimiter put back between them, are the bytes of the stream. *)
Lemma scanValues_join :
  forall fuel vr,
    limiter vr = None ->
    isEOF vr = false ->
    (exists e, scanEnd fuel vr = Some e /\ isEOFErr e = true) ->
    join (delim vr) (scanValues fuel vr) = rd_data (reader vr)
    /\ scanValues fuel vr <> [].
Proof.
  induction fuel as [|fuel IH]; intros vr Hl He (e & Se & Ee);
    [discriminate|].
  cbn [scanEnd] in Se. cbn [scanValues].
  destruct (Next vr) as [[v [x|]] vr1] eqn:N.
  - exfalso. injection Se as ->. unfold Next in N. rewrite He, Hl in N.
    apply scanLoop_error_not_EOF in N. congruence.
  - split; [|discriminate].
    pose proof (Next_static _ N) as (D & _ & L).
    unfold Next in N. rewrite He in N.
    apply scanLoop_spec in N as (_ & _ & _ & _ & consumed & Hd & Hc).
    destruct (Hc eq_refl) as [(A & B & C)|(A & B & C)].
    + assert (R : scanValues fuel vr1 = []).
      { destruct fuel; [reflexivity|]. cbn [scanValues].
        rewrite Next_after_EOF by exact A. reflexivity. }
      rewrite R. simpl. rewrite Hd, B, app_nil_r, C. reflexivity.
    + destruct (IH vr1 (L Hl) (eq_trans A He) (ex_intro _ e (conj Se Ee)))
        as [J NE].
      destruct (scanValues fuel vr1) as [|y rest] eqn:R; [congruence|].
      change (join (delim vr) (v :: y :: rest))
        with (v ++ delim vr ++ join (delim vr) (y :: rest)).
      rewrite <- D, J, D, app_assoc, <- C, Hd. reflexivity.
Qed.

Lemma NewSplitter_some (conf : Conf) (s : splitter) :
  NewSplitter conf = Some s ->
  Delim conf <> []
  /\ s = mkSplitter (Z.max (ChunkSizeLimit conf) MinChunkSizeLimit) [] 0 0 0
           (Delim conf)
           (Z.max (ValueMaxScanSizeLimit conf) MinValueMaxScanSizeLimit)
           (ValueFilter conf) 0 0.
Proof.
  unfold NewSplitter. destruct (len (Delim conf) =? 0) eqn:E; [discriminate|].
  destruct (ChunkSizeLimit conf <? 0); [discriminate|].
  intros H. injection H as <-. split; [|reflexivity].
  intros D. rewrite D in E. discriminate.
Qed.

Lemma StInv_fresh (conf : Conf) (s : splitter) (k : Z) :
  NewSplitter conf = Some s ->
  StInv (delimiter s) (chunkSizeLimit s) (valueFilter s) (set_started s k)
        [] [].
Proof.
  intros H. apply NewSplitter_some in H as [_ ->].
  constructor; simpl; try reflexivity; [constructor | congruence].
Qed.

Lemma OutInv_empty d limit (w : world) : flushed w = [] -> OutInv d limit w [].
Proof. intros E. constructor; [rewrite E; exact I | constructor..]. Qed.

(** The first call on a fresh splitter gets past the guard and the reader
    construction and enters the loop. *)
Lemma RunSplit_fresh (sched : nat -> bool) (conf : Conf) (s : splitter) (rd : Reader)
    (w : world) :
  NewSplitter conf = Some s ->
  RunSplit sched s rd w =
  match runLoop sched (S (S (length (rd_data rd)))) 0 (set_started s 1)
          (mkValueReader rd (delimiter s) (s_valueMaxScanSizeLimit s) 0 false
             None) w with
  | None => None
  | Some (o, s', vr', w') => Some (o, s', reader vr', w')
  end.
Proof.
  intros H. apply NewSplitter_some in H as [D ->].
  unfold RunSplit, NewValueReader, NewValueReaderAndLimiter.
  cbn [started set_started delimiter s_valueMaxScanSizeLimit].
  change (wrap32 (0 + 1)) with 1. cbn [Z.eqb Pos.eqb negb].
  replace (len (Delim conf) =? 0) with false.
  2:{ symmetry. apply Z.eqb_neq. apply len_pos_iff in D. lia. }
  rewrite (Z.max_l (Z.max _ _)) by (unfold MinValueMaxScanSizeLimit; lia).
  reflexivity.
Qed.

Lemma inputValues_fresh (conf : Conf) (s : splitter) (rd : Reader) :
  NewSplitter conf = Some s ->
  inputValues (delimiter s) (s_valueMaxScanSizeLimit s) rd
  = scanValues (S (S (length (rd_data rd))))
      (mkValueReader rd (delimiter s) (s_valueMaxScanSizeLimit s) 0 false
         None).
Proof.
  intros H. apply NewSplitter_some in H as [D ->].
  cbn [delimiter s_valueMaxScanSizeLimit].
  unfold inputValues, NewValueReader, NewValueReaderAndLimiter.
  replace (len (Delim conf) =? 0) with false.
  2:{ symmetry. apply Z.eqb_neq. apply len_pos_iff in D. lia. }
  rewrite (Z.max_l (Z.max _ _)) by (unfold MinValueMaxScanSizeLimit; lia).
  reflexivity.
Qed.

(** After a run that returned [nil], the scanned values with the delimiter
    between them are the bytes of the stream. *)
Lemma RunSplit_success_values (sched : nat -> bool) (conf : Conf)
    (s : splitter) (rd : Reader) (s' : splitter) (rd' : Reader) (w' : world) :
  NewSplitter conf = Some s ->
  RunSplit sched s rd world0 = Some (Returned None, s', rd', w') ->
  join (delimiter s) (inputValues (delimiter s) (s_valueMaxScanSizeLimit s) rd)
  = rd_data rd.
Proof.
  intros HS HR. rewrite (@RunSplit_fresh sched conf s rd world0 HS) in HR.
  rewrite (@inputValues_fresh conf s rd HS).
  destruct (runLoop sched _ _ _ _ _) as [[[[o1 s1] vr1] w1]|] eqn:L;
    [|discriminate].
  injection HR as -> _ _ _.
  apply runLoop_success_scanEnd in L.
  apply scanValues_join in L as [J _]; auto.
Qed.

(** Every run on a fresh splitter returns, does not panic, and its chunks
    are groups of consecutive accepted values, in order, that exhaust a
    prefix of them; a run that returns [nil] exhausts them all. *)
Lemma RunSplit_structure (sched : nat -> bool) (conf : Conf) (s : splitter) (rd : Reader) :
  NewSplitter conf = Some s ->
  exists o s' rd' w',
    RunSplit sched s rd world0 = Some (o, s', rd', w')
    /\ o <> Panicked
    /\ started s' = 1
    /\ exists gs rest tail,
        OutInv (delimiter s) (chunkSizeLimit s) w' gs
        /\ acceptedValues s rd = (concat gs ++ rest) ++ tail
        /\ (o = Returned None -> rest = [] /\ tail = []).
Proof.
  intros H. rewrite (@RunSplit_fresh sched conf s rd world0 H).
  pose proof (@StInv_fresh conf s 1 H) as St.
  pose proof (@OutInv_empty (delimiter s) (chunkSizeLimit s) world0 eq_refl)
    as Out.
  set (vr := mkValueReader rd _ _ _ _ _).
  destruct (runLoop sched (S (S (length (rd_data rd)))) 0 (set_started s 1)
              vr world0) as [[[[o s'] vr'] w']|] eqn:R.
  - pose proof R as R'. eapply runLoop_inv in R'; [|exact St|exact Out].
    destruct R' as (NP & Sd & gs & rest & vs & tail & Out' & Acc & Cc & Fin).
    exists o, s', (reader vr'), w'. split; [reflexivity|].
    split; [exact NP|]. split; [rewrite Sd; reflexivity|].
    exists gs, rest, tail. split; [exact Out'|]. split; [|exact Fin].
    rewrite Cc. simpl. unfold acceptedValues, inputValues.
    apply NewSplitter_some in H as [D ->].
    cbn [delimiter s_valueMaxScanSizeLimit valueFilter] in *.
    unfold NewValueReader, NewValueReaderAndLimiter.
    replace (len (Delim conf) =? 0) with false.
    2:{ symmetry. apply Z.eqb_neq. apply len_pos_iff in D. lia. }
    rewrite (Z.max_l (Z.max _ _)) by (unfold MinValueMaxScanSizeLimit; lia).
    exact Acc.
  - exfalso. revert R. eapply runLoop_fuel; [exact St | exact Out|].
    subst vr. simpl. lia.
Qed.

Lemma join_nonempty_app (d : bytes) (a b : list bytes) :
  a <> [] -> b <> [] -> join d (a ++ b) = join d a ++ d ++ join d b.
Proof.
  intros Ha Hb. induction a as [|x a IH]; [congruence|].
  destruct a as [|y a].
  - simpl. destruct b; [congruence | reflexivity].
  - change (join d ((x :: y :: a) ++ b)) with (x ++ d ++ join d ((y :: a) ++ b)).
    rewrite IH by discriminate.
    change (join d (x :: y :: a)) with (x ++ d ++ join d (y :: a)).
    rewrite <- !app_assoc. reflexivity.
Qed.

Lemma concat_nonempty (A : Type) (gs : list (list A)) :
  gs <> [] -> Forall (fun g => g <> []) gs -> concat gs <> [].
Proof.
  intros Hg F. destruct gs as [|g gs]; [congruence|].
  inversion F as [|? ? Hx _]; subst. simpl.
  destruct g; [congruence | discriminate].
Qed.

(** Joining the joined groups is joining all the values. *)
Lemma join_concat (d : bytes) (gs : list (list bytes)) :
  Forall (fun g => g <> []) gs ->
  join d (map (join d) gs) = join d (concat gs).
Proof.
  induction gs as [|g gs IH]; intros F; [reflexivity|].
  inversion F as [|? ? Hg F']; subst.
  destruct gs as [|g' gs].
  - simpl. rewrite app_nil_r. reflexivity.
  - change (join d (map (join d) (g :: g' :: gs)))
      with (join d g ++ d ++ join d (map (join d) (g' :: gs))).
    rewrite IH by assumption.
    change (concat (g :: g' :: gs)) with (g ++ concat (g' :: gs)).
    rewrite join_nonempty_app; [reflexivity | assumption|].
    apply concat_nonempty; [discriminate | assumption].
Qed.

Lemma described_payloads (d : bytes) (gs : list (list bytes)) :
  forall csn vsn cs,
    described d csn vsn gs cs ->
    map ChunkData cs = map (join d) gs /\ Forall (fun g => g <> []) gs.
Proof.
  induction gs as [|g gs IH]; intros csn vsn [|c cs] H; simpl in H;
    try contradiction.
  - split; [reflexivity | constructor].
  - destruct H as (G & _ & _ & _ & D & H). apply IH in H as [M F].
    split; [simpl; congruence | constructor; assumption].
Qed.

Lemma readme_run :
  NewSplitter readme_conf = Some readme_splitter
  /\ RunSplit noStop readme_splitter readme_stream world0
     = Some (Returned None, readme_final, mkReader [] EOF 31, readme_world).
Proof. split; reflexivity. Qed.

(** ** C1 *)

(** C1, as stated, fails: the source of [failing_stream] delivers ["a,b"]
    and then fails.  The value ["a"] is accepted and buffered, the run
    returns the read error without flushing, and no chunk is emitted. *)
Lemma C1_counterexample :
  NewSplitter comma_conf = Some comma_splitter
  /\ acceptedValues comma_splitter failing_stream = [bytesOf "a"]
  /\ exists s' rd' w',
      RunSplit noStop comma_splitter failing_stream world0
      = Some (Returned (Some (ErrIO 5)), s', rd', w')
      /\ flushed w' = []
      /\ join (Delim comma_conf) (map ChunkData (flushed w'))
         <> join (Delim comma_conf)
                 (acceptedValues comma_splitter failing_stream).
Proof.
  split; [reflexivity|]. split; [reflexivity|].
  eexists _, _, _. split; [reflexivity|]. split; [reflexivity|].
  discriminate.
Qed.

(** C1 (amended): for every input stream, delimiter and filter for which
    [RunSplit] returns [nil], the chunks are groups of consecutive accepted
    values that together are exactly the accepted values of the input in
    their order; each payload is its group joined by the delimiter, so the
    payloads joined by the delimiter are the accepted values joined by the
    delimiter.  The accepted values are the non-empty results of the
    filter on the values of the input, and those values, joined by the
    delimiter, are the bytes of the input. *)
Theorem C1_payloads_reproduce_accepted_values
    (sched : nat -> bool) (conf : Conf) (s : splitter) (rd : Reader)
    (s' : splitter) (rd' : Reader) (w' : world) :
  NewSplitter conf = Some s ->
  RunSplit sched s rd world0 = Some (Returned None, s', rd', w') ->
  exists gs,
    concat gs = acceptedValues s rd
    /\ Forall (fun g => g <> []) gs
    /\ map ChunkData (flushed w') = map (join (Delim conf)) gs
    /\ join (Delim conf) (map ChunkData (flushed w'))
       = join (Delim conf) (acceptedValues s rd)
    /\ acceptedValues s rd
       = accept (ValueFilter conf)
                (inputValues (Delim conf) (s_valueMaxScanSizeLimit s) rd)
    /\ join (Delim conf)
            (inputValues (Delim conf) (s_valueMaxScanSizeLimit s) rd)
       = rd_data rd.
Proof.
  intros HS HR.
  pose proof (@RunSplit_success_values sched conf s rd s' rd' w' HS HR) as RT.
  destruct (@RunSplit_structure sched conf s rd HS)
    as (o & s1 & rd1 & w1 & R & _ & _ & gs & rest & tail & Out & Acc & Fin).
  rewrite HR in R. injection R as <- <- <- <-.
  destruct (Fin eq_refl) as [-> ->]. rewrite !app_nil_r in Acc.
  assert (D : delimiter s = Delim conf).
  { apply NewSplitter_some in HS as [_ ->]. reflexivity. }
  rewrite D in Out.
  destruct (@described_payloads _ _ _ _ _ (out_described Out)) as [M F].
  exists gs. split; [congruence|]. split; [exact F|]. split; [exact M|].
  split; [rewrite M, Acc; apply join_concat, F|].
  rewrite <- D. split; [|exact RT].
  unfold acceptedValues. apply NewSplitter_some in HS as [_ ->]. reflexivity.
Qed.

Lemma C1_witness :
  exists gs,
    concat gs = acceptedValues readme_splitter readme_stream
    /\ Forall (fun g => g <> []) gs
    /\ map ChunkData (flushed readme_world)
       = map (join (Delim readme_conf)) gs
    /\ join (Delim readme_conf) (map ChunkData (flushed readme_world))
       = join (Delim readme_conf)
              (acceptedValues readme_splitter readme_stream)
    /\ acceptedValues readme_splitter readme_stream
       = accept (ValueFilter readme_conf)
                (inputValues (Delim readme_conf)
                   (s_valueMaxScanSizeLimit readme_splitter) readme_stream)
    /\ join (Delim readme_conf)
            (inputValues (Delim readme_conf)
               (s_valueMaxScanSizeLimit readme_splitter) readme_stream)
       = rd_data readme_stream.
Proof.
  apply (@C1_payloads_reproduce_accepted_values noStop readme_conf
           readme_splitter readme_stream readme_final (mkReader [] EOF 31)
           readme_world); reflexivity.
Defined.

(** ** C3 *)

Lemma described_sizes (d : bytes) (limit : Z) (gs : list (list bytes)) :
  forall csn vsn cs,
    described d csn vsn gs cs ->
    Forall (sizeOK d limit) gs ->
    Forall2
      (fun c g =>
         ChunkData c = join d g
         /\ (len (ChunkData c) <= limit \/ exists v, g = [v] /\ limit < len v))
      cs gs.
Proof.
  induction gs as [|g gs IH]; intros csn vsn [|c cs] De Sz; simpl in De;
    try contradiction; constructor.
  - destruct De as (_ & _ & _ & _ & D & _).
    inversion Sz as [|? ? Hg _]; subst. split; [exact D|].
    rewrite D. exact Hg.
  - destruct De as (_ & _ & _ & _ & _ & De).
    inversion Sz; subst. eapply IH; eassumption.
Qed.

(** C3: every run returns, and every chunk it emitted carries a group of
    consecutive accepted values, its payload is those values with the
    delimiter between them, and that size is at most [chunkSizeLimit]
    unless the group is a single value that is itself longer than the
    limit. *)
Theorem C3_chunk_size_bound
    (sched : nat -> bool) (conf : Conf) (s : splitter) (rd : Reader) :
  NewSplitter conf = Some s ->
  exists o s' rd' w',
    RunSplit sched s rd world0 = Some (o, s', rd', w')
    /\ chunkSizeLimit s = Z.max (ChunkSizeLimit conf) MinChunkSizeLimit
    /\ exists gs tail,
        acceptedValues s rd = concat gs ++ tail
        /\ Forall2
             (fun c g =>
                ChunkData c = join (delimiter s) g
                /\ (len (ChunkData c) <= chunkSizeLimit s
                    \/ exists v, g = [v] /\ chunkSizeLimit s < len v))
             (flushed w') gs.
Proof.
  intros HS.
  destruct (@RunSplit_structure sched conf s rd HS)
    as (o & s' & rd' & w' & R & _ & _ & gs & rest & tail & Out & Acc & _).
  exists o, s', rd', w'. split; [exact R|].
  split.
  { apply NewSplitter_some in HS as [_ ->]. reflexivity. }
  exists gs, (rest ++ tail). split; [rewrite Acc, app_assoc; reflexivity|].
  destruct Out as [De Sz _]. eapply described_sizes; eassumption.
Qed.

Lemma C3_witness :
  exists o s' rd' w',
    RunSplit noStop readme_splitter readme_stream world0
    = Some (o, s', rd', w')
    /\ chunkSizeLimit readme_splitter
       = Z.max (ChunkSizeLimit readme_conf) MinChunkSizeLimit
    /\ exists gs tail,
        acceptedValues readme_splitter readme_stream = concat gs ++ tail
        /\ Forall2
             (fun c g =>
                ChunkData c = join (delimiter readme_splitter) g
                /\ (len (ChunkData c) <= chunkSizeLimit readme_splitter
                    \/ exists v,
                        g = [v] /\ chunkSizeLimit readme_splitter < len v))
             (flushed w') gs.
Proof.
  apply (@C3_chunk_size_bound noStop readme_conf readme_splitter
           readme_stream). reflexivity.
Defined.

(** ** C2 *)

(** C2, as stated, fails: with ["apple,pear,"] buffered and a limit of 16,
    appending ["peach"] and one delimiter makes the buffer 17 bytes long,
    and the buffer is not empty, yet nothing is flushed first. *)
Lemma C2_counterexample :
  let s := two_buffered in
  let value := bytesOf "peach" in
  chunkSizeLimit s < len (chunkBuffer s ++ value ++ delimiter s)
  /\ 0 < len (chunkBuffer s)
  /\ forall vr w, appendValue s vr value w = Some (three_buffered, w).
Proof.
  simpl. split; [reflexivity|]. split; [reflexivity|].
  intros vr w. reflexivity.
Qed.

(** C2 (amended): when a non-empty value is appended, the buffer is flushed
    first exactly when the buffer's current length (every buffered value
    with the delimiter written after it) plus the length of the new value
    exceeds [chunkSizeLimit] and the buffer is not empty.  The delimiter
    that follows the new value is not part of the test, although it is
    written to the buffer. *)
Theorem C2_preflush_condition
    (s : splitter) (vr : valueReader) (value : bytes) (w : world)
    (s' : splitter) (w' : world) :
  0 < len value ->
  appendValue s vr value w = Some (s', w') ->
  ((exists c, flushed w' = flushed w ++ [c]) <->
   (chunkSizeLimit s < len (chunkBuffer s) + len value
    /\ 0 < len (chunkBuffer s)))
  /\ (flushed w' = flushed w \/ exists c, flushed w' = flushed w ++ [c])
  /\ (flushed w' = flushed w ->
      len (chunkBuffer s')
      = len (chunkBuffer s) + len value + len (delimiter s)).
Proof.
  intros Hv H. unfold appendValue in H.
  rewrite (proj2 (gtb_true _ _) Hv) in H.
  assert (NoSnoc : forall (l : list FlushChunkArgs) c, l <> l ++ [c]).
  { intros l c E. apply (f_equal (@length _)) in E. rewrite length_app in E.
    simpl in E. lia. }
  destruct (preFlushCond s value) eqn:C.
  - destruct (Z.lt_ge_cases (len (chunkBuffer s)) (len (delimiter s)))
      as [Short|Long].
    { rewrite emitChunk_short in H by exact Short. discriminate. }
    rewrite (emitChunk_ok s vr w Long) in H.
    injection H as <- <-. cbn.
    apply preFlushCond_true in C.
    split; [split; [intros _; exact C | intros _; eexists; reflexivity]|].
    split; [right; eexists; reflexivity|].
    intros E. symmetry in E. apply NoSnoc in E. contradiction.
  - injection H as <- <-. cbn.
    apply preFlushCond_false in C.
    split; [split; [intros [c E]; apply NoSnoc in E; contradiction | tauto]|].
    split; [left; reflexivity|].
    intros _. rewrite !len_app. reflexivity.
Qed.

Lemma C2_witness :
  ((exists c, flushed world0 = flushed world0 ++ [c]) <->
   (chunkSizeLimit two_buffered
    < len (chunkBuffer two_buffered) + len (bytesOf "peach")
    /\ 0 < len (chunkBuffer two_buffered)))
  /\ (flushed world0 = flushed world0
      \/ exists c, flushed world0 = flushed world0 ++ [c])
  /\ (flushed world0 = flushed world0 ->
      len (chunkBuffer three_buffered)
      = len (chunkBuffer two_buffered) + len (bytesOf "peach")
        + len (delimiter two_buffered)).
Proof.
  apply (@C2_preflush_condition two_buffered idle_reader (bytesOf "peach")
           world0 three_buffered world0); reflexivity.
Defined.

(** ** C6 *)

(** C6, as stated, fails: the call that runs into the end of the stream
    returns the bytes ["ab"] with a [nil] error, not with [io.EOF]. *)
Lemma C6_counterexample :
  Next partial_reader = ((bytesOf "ab", None), partial_reader_done)
  /\ snd (fst (Next partial_reader)) <> Some EOF.
Proof. split; [reflexivity | discriminate]. Qed.

(** C6 (amended): when the scanner reaches the end of the stream before it
    finds a delimiter, that call returns the bytes read so far (possibly
    none) with a [nil] error and records the end; every later call returns
    no bytes and [io.EOF] at once and leaves the reader, the byte source
    included, untouched. *)
Theorem C6_end_of_stream
    (v : valueReader) :
  isEOF v = false ->
  rd_err (reader v) = EOF ->
  delim v <> [] ->
  (forall l, limiter v = Some l -> forall k, lim_result l k = None) ->
  delimFree (delim v) (rd_data (reader v)) = true ->
  len (rd_data (reader v)) < valueMaxScanSizeLimit v ->
  exists v',
    Next v = ((rd_data (reader v), None), v')
    /\ isEOF v' = true
    /\ reader v' = mkReader [] EOF (S (rd_calls (reader v)
                                       + length (rd_data (reader v))))
    /\ forall n,
        afterCalls n v' = v'
        /\ Next (afterCalls n v') = (([], Some EOF), v').
Proof.
  intros E Herr Hd Hl Hfree Hlen. unfold Next. rewrite E.
  destruct (@scanLoop_to_EOF v (rd_data (reader v)) Herr Hd
              (rd_calls (reader v)) (limiter v) (scanByteNum v) [])
    as (v' & R & A1 & A2 & _); auto.
  { intros n _. simpl. apply delimFree_spec. exact Hfree. }
  exists v'. simpl in R. rewrite R. split; [reflexivity|].
  split; [exact A1|]. split; [exact A2|].
  assert (It : forall n, afterCalls n v' = v').
  { induction n as [|n IH]; [reflexivity|]. unfold afterCalls in *. simpl.
    rewrite IH. change (snd (Next v') = v'). rewrite Next_after_EOF by exact A1.
    reflexivity. }
  intros n. rewrite It. split; [reflexivity|].
  change (Next v' = (([], Some EOF), v')). apply Next_after_EOF, A1.
Qed.

Lemma C6_witness :
  exists v',
    Next partial_reader = ((rd_data (reader partial_reader), None), v')
    /\ isEOF v' = true
    /\ reader v' = mkReader [] EOF
                     (S (rd_calls (reader partial_reader)
                         + length (rd_data (reader partial_reader))))
    /\ forall n,
        afterCalls n v' = v'
        /\ Next (afterCalls n v') = (([], Some EOF), v').
Proof.
  apply (@C6_end_of_stream partial_reader);
    try reflexivity; try discriminate.
Defined.

(** ** C4 *)

(** An over-long value that meets an empty buffer is written to it whole,
    with nothing flushed. *)
Lemma oversized_placed_alone (s : splitter) (vr : valueReader) (v : bytes)
    (w : world) :
  chunkBuffer s = [] ->
  0 < len v ->
  appendValue s vr v w =
  Some (mkSplitter (chunkSizeLimit s) (v ++ delimiter s) (chunkSn s)
          (chunkStartValueSn s) (wrap64 (nextValueSn s + 1)) (delimiter s)
          (s_valueMaxScanSizeLimit s) (valueFilter s) (started s) (stopped s),
        w).
Proof.
  intros Hb Hv. rewrite appendValue_keep; [rewrite Hb; reflexivity | exact Hv|].
  apply preFlushCond_false. rewrite Hb, len_nil. lia.
Qed.

(** A run over a stream that holds one value and no delimiter. *)
Lemma single_value_run (conf : Conf) (s : splitter) (data : bytes) :
  NewSplitter conf = Some s ->
  ValueFilter conf = None ->
  delimFree (Delim conf) data = true ->
  0 < len data < s_valueMaxScanSizeLimit s ->
  exists s',
    RunSplit noStop s (mkReader data EOF 0) world0
    = Some (Returned None, s', mkReader [] EOF (S (length data)),
            mkWorld [mkFlushChunkArgs 0 0 0 data (wrap64 (len data))] []).
Proof.
  intros HS HF Hfree Hlen.
  rewrite (@RunSplit_fresh noStop conf s (mkReader data EOF 0) world0 HS).
  apply NewSplitter_some in HS as [D ->]. rewrite HF in *.
  unfold set_started.
  cbn [delimiter s_valueMaxScanSizeLimit rd_data chunkSizeLimit
       chunkBuffer chunkSn chunkStartValueSn nextValueSn valueFilter started
       stopped] in *.
  set (lim := Z.max (ValueMaxScanSizeLimit conf) MinValueMaxScanSizeLimit) in *.
  set (s1 := mkSplitter _ _ _ _ _ _ _ _ _ _).
  set (vr := mkValueReader _ _ _ _ _ _).
  destruct (@scanLoop_to_EOF vr data eq_refl D 0%nat None 0 [])
    as (v' & R & A1 & A2 & A3 & _).
  { discriminate. }
  { intros n _. simpl. apply delimFree_spec. exact Hfree. }
  { subst vr. unfold len in *. simpl. lia. }
  assert (N1 : Next vr = ((data, None), v')).
  { unfold Next. simpl. simpl in R. exact R. }
  assert (N2 : Next v' = (([], Some EOF), v')) by (apply Next_after_EOF, A1).
  assert (Sb : scanByteNum v' = wrap64 (len data)).
  { rewrite A3. destruct data; [rewrite len_nil in Hlen; lia | reflexivity]. }
  cbn [runLoop]. change (noStop 0%nat) with false. cbv iota.
  change (stopped s1 >? 0) with false. cbv iota.
  rewrite N1. cbn [isFatal isEOFResult].
  unfold applyFilter at 1. subst s1. cbn [valueFilter].
  rewrite oversized_placed_alone; [|reflexivity|lia].
  cbn [chunkSizeLimit chunkBuffer chunkSn chunkStartValueSn nextValueSn
       delimiter s_valueMaxScanSizeLimit valueFilter started stopped].
  change (noStop 1%nat) with false. cbv iota.
  change (0 >? 0) with false. cbv iota.
  rewrite N2. cbn [isFatal isEOFResult isEOFErr negb].
  unfold applyFilter. cbn [valueFilter]. rewrite appendValue_empty.
  unfold flushAtEOF. cbn [chunkBuffer].
  replace (len (data ++ Delim conf) >? 0) with true.
  2:{ symmetry. apply gtb_true. rewrite len_app.
      pose proof (len_nonneg (Delim conf)). lia. }
  rewrite emitChunk_ok.
  2:{ simpl. rewrite len_app. lia. }
  cbn [chunkSizeLimit chunkBuffer chunkSn chunkStartValueSn nextValueSn
       delimiter s_valueMaxScanSizeLimit valueFilter started stopped
       flushed filterCalls world0 app].
  change (0 >? 0) with false. cbv iota.
  rewrite firstn_app_exact, A2, Sb.
  change (wrap64 (wrap64 (0 + 1) - 1)) with 0.
  eexists. reflexivity.
Qed.

(** C4: a value longer than [chunkSizeLimit] that arrives at an empty
    buffer is written to the buffer whole and alone, with nothing flushed
    or rejected; the next accepted value, or the end of the stream, then
    flushes it as a chunk of its own, whose payload is the value and so is
    longer than the limit.  With such a value as the only data of a stream
    (the limit 16 and thirty bytes, say), the run emits exactly one chunk,
    numbered 0 and holding value 0, with the value as its payload. *)
Theorem C4_oversized_value_is_its_own_chunk :
  (forall (s : splitter) (vr : valueReader) (v : bytes) (w : world),
      chunkBuffer s = [] ->
      0 < len v ->
      chunkSizeLimit s < len v ->
      exists s1,
        appendValue s vr v w = Some (s1, w)
        /\ chunkBuffer s1 = v ++ delimiter s
        /\ (forall vr2 v2,
               0 < len v2 ->
               exists s2 c,
                 appendValue s1 vr2 v2 w
                 = Some (s2, mkWorld (flushed w ++ [c]) (filterCalls w))
                 /\ ChunkData c = v
                 /\ chunkSizeLimit s < len (ChunkData c)
                 /\ chunkBuffer s2 = v2 ++ delimiter s)
        /\ (forall vr2,
               exists s2 c,
                 flushAtEOF s1 vr2 w
                 = Some (s2, mkWorld (flushed w ++ [c]) (filterCalls w))
                 /\ ChunkData c = v
                 /\ chunkSizeLimit s < len (ChunkData c)
                 /\ chunkBuffer s2 = []))
  /\ (forall (conf : Conf) (s : splitter) (data : bytes),
         NewSplitter conf = Some s ->
         ValueFilter conf = None ->
         delimFree (Delim conf) data = true ->
         chunkSizeLimit s < len data < s_valueMaxScanSizeLimit s ->
         exists s',
           RunSplit noStop s (mkReader data EOF 0) world0
           = Some (Returned None, s', mkReader [] EOF (S (length data)),
                   mkWorld [mkFlushChunkArgs 0 0 0 data (wrap64 (len data))]
                           [])).
Proof.
  split.
  - intros s vr v w Hb Hv Hbig.
    rewrite (@oversized_placed_alone s vr v w Hb Hv).
    eexists. split; [reflexivity|]. cbn [chunkBuffer].
    split; [reflexivity|]. split.
    + intros vr2 v2 Hv2. rewrite appendValue_flush.
      * eexists _, _. split; [reflexivity|]. cbn.
        rewrite firstn_app_exact. auto.
      * exact Hv2.
      * apply preFlushCond_true. cbn. rewrite len_app.
        pose proof (len_nonneg (delimiter s)). lia.
      * cbn. rewrite len_app. lia.
    + intros vr2. unfold flushAtEOF. cbn [chunkBuffer].
      replace (len (v ++ delimiter s) >? 0) with true.
      2:{ symmetry. apply gtb_true. rewrite len_app.
          pose proof (len_nonneg (delimiter s)). lia. }
      rewrite emitChunk_ok by (cbn; rewrite len_app; lia).
      eexists _, _. split; [reflexivity|]. cbn.
      rewrite firstn_app_exact. auto.
  - intros conf s data HS HF Hfree Hlen.
    apply single_value_run with (conf := conf); auto.
    pose proof HS as HS'. apply NewSplitter_some in HS' as [_ ->].
    cbn in *. unfold MinChunkSizeLimit in *. lia.
Qed.

Lemma C4_witness :
  (exists s1,
      appendValue comma_splitter idle_reader thirty_bytes world0
      = Some (s1, world0)
      /\ chunkBuffer s1 = thirty_bytes ++ delimiter comma_splitter
      /\ (forall vr2 v2,
             0 < len v2 ->
             exists s2 c,
               appendValue s1 vr2 v2 world0
               = Some (s2, mkWorld (flushed world0 ++ [c])
                                   (filterCalls world0))
               /\ ChunkData c = thirty_bytes
               /\ chunkSizeLimit comma_splitter < len (ChunkData c)
               /\ chunkBuffer s2 = v2 ++ delimiter comma_splitter)
      /\ (forall vr2,
             exists s2 c,
               flushAtEOF s1 vr2 world0
               = Some (s2, mkWorld (flushed world0 ++ [c])
                                   (filterCalls world0))
               /\ ChunkData c = thirty_bytes
               /\ chunkSizeLimit comma_splitter < len (ChunkData c)
               /\ chunkBuffer s2 = []))
  /\ (exists s',
         RunSplit noStop comma_splitter (mkReader thirty_bytes EOF 0) world0
         = Some (Returned None, s',
                 mkReader [] EOF (S (length thirty_bytes)),
                 mkWorld [mkFlushChunkArgs 0 0 0 thirty_bytes
                            (wrap64 (len thirty_bytes))] [])).
Proof.
  split.
  - apply (proj1 C4_oversized_value_is_its_own_chunk comma_splitter
             idle_reader thirty_bytes world0); reflexivity.
  - apply (proj2 C4_oversized_value_is_its_own_chunk comma_conf
             comma_splitter thirty_bytes); try reflexivity.
    split; reflexivity.
Defined.

(** ** C8 *)

Lemma appendValue_started (s : splitter) (k : Z) (vr : valueReader)
    (v : bytes) (w : world) :
  appendValue (set_started s k) vr v w =
  match appendValue s vr v w with
  | Some (s', w') => Some (set_started s' k, w')
  | None => None
  end.
Proof.
  destruct s. unfold appendValue, preFlushCond, emitChunk, flushChunk. cbn.
  split_ifs; reflexivity.
Qed.

Lemma flushAtEOF_started (s : splitter) (k : Z) (vr : valueReader)
    (w : world) :
  flushAtEOF (set_started s k) vr w =
  match flushAtEOF s vr w with
  | Some (s', w') => Some (set_started s' k, w')
  | None => None
  end.
Proof.
  destruct s. unfold flushAtEOF, emitChunk, flushChunk. cbn.
  split_ifs; reflexivity.
Qed.

(** The loop never reads [started]: overwriting the counter before the
    loop or after it comes to the same. *)
Lemma runLoop_started (sched : nat -> bool) (k : Z) :
  forall fuel i s vr w,
    runLoop sched fuel i (set_started s k) vr w
    = withStarted k (runLoop sched fuel i s vr w).
Proof.
  induction fuel as [|fuel IH]; intros i s vr w; [reflexivity|].
  cbn [runLoop].
  replace (if sched i then Stop (set_started s k) else set_started s k)
    with (set_started (if sched i then Stop s else s) k)
    by (destruct (sched i); reflexivity).
  set (s1 := if sched i then Stop s else s). clearbody s1.
  change (stopped (set_started s1 k)) with (stopped s1).
  destruct (stopped s1 >? 0); [reflexivity|].
  destruct (Next vr) as [[value err] vr1].
  destruct (isFatal err); [reflexivity|].
  change (applyFilter (set_started s1 k) value w) with (applyFilter s1 value w).
  destruct (applyFilter s1 value w) as [value1 w1].
  rewrite appendValue_started.
  destruct (appendValue s1 vr1 value1 w1) as [[s2 w2]|]; [|reflexivity].
  destruct (isEOFResult err).
  - rewrite flushAtEOF_started.
    destruct (flushAtEOF s2 vr1 w2) as [[s3 w3]|]; reflexivity.
  - apply IH.
Qed.

(** C8: after the first [RunSplit] call on a splitter, whatever its
    outcome, a second call returns [ErrSplitterIsStarted] at once: the byte
    source it is given is not read ([rd_calls] included), no callback is
    called, and of the splitter only the [started] counter changes.  The
    same holds in any state in which the counter stands at 1, as it does
    from the first call's increment on.  The counter is all a second call
    touches, and the loop of the first run never reads it, so a second call
    that arrives while the first run is still in its loop changes nothing
    the first run does or emits.  (Concurrent calls are taken as
    interleavings of their atomic operations.) *)
Theorem C8_second_run_is_rejected
    (sched : nat -> bool) (conf : Conf) (s : splitter) (rd : Reader)
    (o : outcome) (s1 : splitter) (rd1 : Reader) (w1 : world) :
  NewSplitter conf = Some s ->
  RunSplit sched s rd world0 = Some (o, s1, rd1, w1) ->
  (forall sched2 rd2 w,
      RunSplit sched2 s1 rd2 w
      = Some (Returned (Some ErrSplitterIsStarted), set_started s1 2, rd2, w))
  /\ (forall s2 sched2 rd2 w,
         started s2 = 1 ->
         RunSplit sched2 s2 rd2 w
         = Some (Returned (Some ErrSplitterIsStarted), set_started s2 2,
                 rd2, w))
  /\ (forall fuel i s2 vr w,
         started s2 = 1 ->
         runLoop sched fuel i (set_started s2 (wrap32 (started s2 + 1))) vr w
         = withStarted 2 (runLoop sched fuel i s2 vr w)).
Proof.
  intros HS HR.
  assert (G : forall s2 sched2 rd2 w,
             started s2 = 1 ->
             RunSplit sched2 s2 rd2 w
             = Some (Returned (Some ErrSplitterIsStarted), set_started s2 2,
                     rd2, w)).
  { intros s2 sched2 rd2 w St. unfold RunSplit. rewrite St. reflexivity. }
  split; [|split].
  - destruct (@RunSplit_structure sched conf s rd HS)
      as (o' & s' & rd' & w' & R & _ & St & _).
    rewrite HR in R. injection R as <- <- <- <-.
    intros sched2 rd2 w. apply G, St.
  - exact G.
  - intros fuel i s2 vr w St. rewrite St.
    change (wrap32 (1 + 1)) with 2. apply runLoop_started.
Qed.

Lemma C8_witness :
  (forall sched2 rd2 w,
      RunSplit sched2 readme_final rd2 w
      = Some (Returned (Some ErrSplitterIsStarted),
              set_started readme_final 2, rd2, w))
  /\ (forall s2 sched2 rd2 w,
         started s2 = 1 ->
         RunSplit sched2 s2 rd2 w
         = Some (Returned (Some ErrSplitterIsStarted), set_started s2 2,
                 rd2, w))
  /\ (forall fuel i s2 vr w,
         started s2 = 1 ->
         runLoop noStop fuel i (set_started s2 (wrap32 (started s2 + 1))) vr w
         = withStarted 2 (runLoop noStop fuel i s2 vr w)).
Proof.
  apply (@C8_second_run_is_rejected noStop readme_conf readme_splitter
           readme_stream (Returned None) readme_final (mkReader [] EOF 31)
           readme_world); reflexivity.
Defined.

(** ** C9 *)

(** A call on a splitter that was never run, in terms of the loop. *)
Lemma RunSplit_enter (sched : nat -> bool) (s : splitter) (rd : Reader) (w : world) :
  started s = 0 ->
  delimiter s <> [] ->
  RunSplit sched s rd w =
  match runLoop sched (S (S (length (rd_data rd)))) 0 (set_started s 1)
          (mkValueReader rd (delimiter s)
             (Z.max (s_valueMaxScanSizeLimit s) MinValueMaxScanSizeLimit)
             0 false None) w with
  | None => None
  | Some (o, s', vr', w') => Some (o, s', reader vr', w')
  end.
Proof.
  intros St D. unfold RunSplit. rewrite St.
  change (wrap32 (0 + 1)) with 1.
  change (started (set_started s 1)) with 1.
  change (delimiter (set_started s 1)) with (delimiter s).
  change (s_valueMaxScanSizeLimit (set_started s 1))
    with (s_valueMaxScanSizeLimit s).
  unfold NewValueReader, NewValueReaderAndLimiter.
  replace (len (delimiter s) =? 0) with false.
  2:{ symmetry. apply Z.eqb_neq. apply len_pos_iff in D. lia. }
  reflexivity.
Qed.

(** A stop seen at the top of an iteration ends the run there. *)
Lemma runLoop_stop (sched : nat -> bool) (fuel i : nat) (s : splitter) (vr : valueReader)
    (w : world) :
  0 < stopped (if sched i then Stop s else s) ->
  runLoop sched (S fuel) i s vr w
  = Some (Returned (Some ErrSplitterIsStopped),
          if sched i then Stop s else s, vr, w).
Proof.
  intros H. cbn [runLoop]. apply gtb_true in H. rewrite H. reflexivity.
Qed.

(** C9: a stop requested before the run reads anything ([Stop] called
    before [RunSplit], or taking effect before the first load of the
    loop) makes [RunSplit] return [ErrSplitterIsStopped] with no chunk
    emitted and the byte source not read; that result is a value of its
    own, different from [nil] and from every other error the run returns.
    In general a stop that is seen at the top of an iteration ends the run
    there: nothing is read, nothing is flushed, and the buffer is left as
    it is.  In the example a stop arrives after ["a"] was buffered: the run
    ends with no chunk and ["a,"] still in the buffer.  ([V1.Split], stopped
    before it reads, emits nothing either and returns [nil].) *)
Theorem C9_stop_ends_run_without_flush
    (sched : nat -> bool) (conf : Conf) (s : splitter) (rd : Reader) :
  NewSplitter conf = Some s ->
  (exists s',
      RunSplit sched (Stop s) rd world0
      = Some (Returned (Some ErrSplitterIsStopped), s', rd, world0))
  /\ (sched 0%nat = true ->
      exists s',
        RunSplit sched s rd world0
        = Some (Returned (Some ErrSplitterIsStopped), s', rd, world0))
  /\ (forall fuel i s2 vr w,
         0 < stopped (if sched i then Stop s2 else s2) ->
         exists s3,
           runLoop sched (S fuel) i s2 vr w
           = Some (Returned (Some ErrSplitterIsStopped), s3, vr, w)
           /\ chunkBuffer s3 = chunkBuffer s2)
  /\ (Some ErrSplitterIsStopped <> None
      /\ ErrSplitterIsStopped <> ErrSplitterIsStarted
      /\ ErrSplitterIsStopped <> ErrValueReaderMaxScanSizeLimit
      /\ ErrSplitterIsStopped <> EOF
      /\ forall c, ErrSplitterIsStopped <> ErrIO c)
  /\ RunSplit stopAtSecond comma_splitter (mkReader (bytesOf "a,b") EOF 0)
              world0
     = Some (Returned (Some ErrSplitterIsStopped), stopped_with_buffer,
             mkReader (bytesOf "b") EOF 2, world0)
  /\ V1.Split sched (V1.Stop V1.example_splitter) rd []
     = Some (Returned None,
             if sched 0%nat
             then V1.Stop (V1.set_started (V1.Stop V1.example_splitter) 1)
             else V1.set_started (V1.Stop V1.example_splitter) 1,
             rd, []).
Proof.
  intros HS. apply NewSplitter_some in HS as [D ->].
  split; [|split; [|split; [|split; [|split]]]].
  - rewrite RunSplit_enter by (try reflexivity; exact D).
    rewrite runLoop_stop; [eexists; reflexivity|].
    destruct (sched 0%nat); reflexivity.
  - intros S0. rewrite RunSplit_enter by (try reflexivity; exact D).
    rewrite runLoop_stop; [eexists; reflexivity|].
    rewrite S0. reflexivity.
  - intros fuel i s2 vr w H. rewrite runLoop_stop by exact H.
    eexists. split; [reflexivity|]. destruct (sched i); reflexivity.
  - repeat split; try discriminate.
  - reflexivity.
  - unfold V1.Split. cbn. destruct (sched 0%nat); reflexivity.
Qed.

Lemma C9_witness :
  (exists s',
      RunSplit noStop (Stop comma_splitter) failing_stream world0
      = Some (Returned (Some ErrSplitterIsStopped), s', failing_stream,
              world0))
  /\ (noStop 0%nat = true ->
      exists s',
        RunSplit noStop comma_splitter failing_stream world0
        = Some (Returned (Some ErrSplitterIsStopped), s', failing_stream,
                world0))
  /\ (forall fuel i s2 vr w,
         0 < stopped (if noStop i then Stop s2 else s2) ->
         exists s3,
           runLoop noStop (S fuel) i s2 vr w
           = Some (Returned (Some ErrSplitterIsStopped), s3, vr, w)
           /\ chunkBuffer s3 = chunkBuffer s2)
  /\ (Some ErrSplitterIsStopped <> None
      /\ ErrSplitterIsStopped <> ErrSplitterIsStarted
      /\ ErrSplitterIsStopped <> ErrValueReaderMaxScanSizeLimit
      /\ ErrSplitterIsStopped <> EOF
      /\ forall c, ErrSplitterIsStopped <> ErrIO c)
  /\ RunSplit stopAtSecond comma_splitter (mkReader (bytesOf "a,b") EOF 0)
              world0
     = Some (Returned (Some ErrSplitterIsStopped), stopped_with_buffer,
             mkReader (bytesOf "b") EOF 2, world0)
  /\ V1.Split noStop (V1.Stop V1.example_splitter) failing_stream []
     = Some (Returned None,
             if noStop 0%nat
             then V1.Stop (V1.set_started (V1.Stop V1.example_splitter) 1)
             else V1.set_started (V1.Stop V1.example_splitter) 1,
             failing_stream, []).
Proof.
  apply (@C9_stop_ends_run_without_flush noStop comma_conf comma_splitter
           failing_stream). reflexivity.
Defined.

(** ** C10 *)

Lemma appendValue_filterCalls (s : splitter) (vr : valueReader) (v : bytes)
    (w : world) (s' : splitter) (w' : world) :
  appendValue s vr v w = Some (s', w') -> filterCalls w' = filterCalls w.
Proof.
  unfold appendValue, emitChunk, flushChunk. cbn.
  split_ifs; intros H; try discriminate; injection H as <- <-; reflexivity.
Qed.

Lemma flushAtEOF_filterCalls (s : splitter) (vr : valueReader) (w : world)
    (s' : splitter) (w' : world) :
  flushAtEOF s vr w = Some (s', w') -> filterCalls w' = filterCalls w.
Proof.
  unfold flushAtEOF, emitChunk, flushChunk. cbn.
  split_ifs; intros H; try discriminate; injection H as <- <-; reflexivity.
Qed.

Lemma applyFilter_filterCalls (s : splitter) (v : bytes) (w : world) :
  Forall nonEmpty (filterCalls w) ->
  Forall nonEmpty (filterCalls (snd (applyFilter s v w))).
Proof.
  intros F. unfold applyFilter. destruct (valueFilter s); [|exact F].
  destruct (len v >? 0) eqn:E; [|exact F]. cbn.
  apply Forall_app. split; [exact F|]. constructor; [|constructor].
  apply gtb_true in E. apply len_pos_iff in E. exact E.
Qed.

(** The filter is only ever called on non-empty values. *)
Lemma runLoop_filterCalls (sched : nat -> bool) :
  forall fuel i s vr w o s' vr' w',
    Forall nonEmpty (filterCalls w) ->
    runLoop sched fuel i s vr w = Some (o, s', vr', w') ->
    Forall nonEmpty (filterCalls w').
Proof.
  induction fuel as [|fuel IH]; intros i s vr w o s' vr' w' F H;
    [discriminate|].
  cbn [runLoop] in H.
  set (s1 := if sched i then Stop s else s) in *. clearbody s1.
  destruct (stopped s1 >? 0).
  { injection H as <- <- <- <-. exact F. }
  destruct (Next vr) as [[value err] vr1].
  destruct (isFatal err).
  { injection H as <- <- <- <-. exact F. }
  pose proof (@applyFilter_filterCalls s1 value w F) as F1.
  destruct (applyFilter s1 value w) as [value1 w1]. cbn in F1.
  destruct (appendValue s1 vr1 value1 w1) as [[s2 w2]|] eqn:A.
  2:{ injection H as <- <- <- <-. exact F1. }
  apply appendValue_filterCalls in A.
  destruct (isEOFResult err).
  - destruct (flushAtEOF s2 vr1 w2) as [[s3 w3]|] eqn:B.
    + apply flushAtEOF_filterCalls in B.
      injection H as <- <- <- <-. congruence.
    + injection H as <- <- <- <-. congruence.
  - eapply IH; [|exact H]. congruence.
Qed.

(** C10: an empty value, whether the scanner returned it (two delimiters
    in a row, a delimiter at the end of the stream) or the filter did,
    changes neither the splitter (buffer and sequence numbers included) nor
    the output, and the filter is not called on an empty value.  Every run
    returns, the filter has only seen non-empty values in it and the
    chunks are made of accepted values, all of them non-empty.  For the stream ["a,,b,"] the scanner returns
    ["a"], [""], ["b"], [""] and the run emits the one chunk ["a,b"] with
    the values 0 and 1. *)
Theorem C10_empty_values_are_dropped
    (sched : nat -> bool) (conf : Conf) (s : splitter) (rd : Reader) :
  NewSplitter conf = Some s ->
  exists o s' rd' w',
  RunSplit sched s rd world0 = Some (o, s', rd', w') /\
  (forall s2 vr w,
      applyFilter s2 [] w = ([], w)
      /\ appendValue s2 vr [] w = Some (s2, w))
  /\ (forall s2 vr v w,
         fst (applyFilter s2 v w) = [] ->
         appendValue s2 vr (fst (applyFilter s2 v w)) (snd (applyFilter s2 v w))
         = Some (s2, snd (applyFilter s2 v w))
         /\ flushed (snd (applyFilter s2 v w)) = flushed w)
  /\ Forall (fun v => v <> []) (filterCalls w')
  /\ (exists gs tail,
         acceptedValues s rd = concat gs ++ tail
         /\ map ChunkData (flushed w') = map (join (delimiter s)) gs
         /\ Forall (Forall (fun v => v <> [])) gs)
  /\ inputValues (bytesOf ",") 0 gappy_stream
     = [bytesOf "a"; []; bytesOf "b"; []]
  /\ RunSplit noStop comma_splitter gappy_stream world0
     = Some (Returned None,
             mkSplitter 16 [] 1 0 2 (bytesOf ",") 4096 None 1 0,
             mkReader [] EOF 6,
             mkWorld [mkFlushChunkArgs 0 0 1 (bytesOf "a,b") 5] []).
Proof.
  intros HS.
  destruct (@RunSplit_structure sched conf s rd HS)
    as (o & s' & rd' & w' & HR & _ & _ & gs & rest & tail & Out & Acc & _).
  exists o, s', rd', w'. split; [exact HR|].
  split; [|split; [|split; [|split; [|split]]]].
  - intros s2 vr w. split; [|reflexivity].
    unfold applyFilter. destruct (valueFilter s2); reflexivity.
  - intros s2 vr v w E. rewrite E. split; [reflexivity|].
    apply applyFilter_flushed.
  - pose proof HR as R. rewrite (@RunSplit_fresh sched conf s rd world0 HS) in R.
    destruct (runLoop sched _ _ _ _ _) as [[[[o1 s1] vr1] w1]|] eqn:L;
      [|discriminate].
    injection R as <- <- <- <-.
    eapply runLoop_filterCalls; [|exact L]. constructor.
  - exists gs, (rest ++ tail).
    split; [rewrite Acc, app_assoc; reflexivity|].
    split; [|exact (out_nonempty Out)].
    apply (@described_payloads _ _ _ _ _ (out_described Out)).
  - reflexivity.
  - reflexivity.
Qed.

Lemma C10_witness :
  exists o s' rd' w',
  RunSplit noStop readme_splitter readme_stream world0
  = Some (o, s', rd', w') /\
  (forall s2 vr w,
      applyFilter s2 [] w = ([], w)
      /\ appendValue s2 vr [] w = Some (s2, w))
  /\ (forall s2 vr v w,
         fst (applyFilter s2 v w) = [] ->
         appendValue s2 vr (fst (applyFilter s2 v w)) (snd (applyFilter s2 v w))
         = Some (s2, snd (applyFilter s2 v w))
         /\ flushed (snd (applyFilter s2 v w)) = flushed w)
  /\ Forall (fun v => v <> []) (filterCalls w')
  /\ (exists gs tail,
         acceptedValues readme_splitter readme_stream = concat gs ++ tail
         /\ map ChunkData (flushed w')
            = map (join (delimiter readme_splitter)) gs
         /\ Forall (Forall (fun v => v <> [])) gs)
  /\ inputValues (bytesOf ",") 0 gappy_stream
     = [bytesOf "a"; []; bytesOf "b"; []]
  /\ RunSplit noStop comma_splitter gappy_stream world0
     = Some (Returned None,
             mkSplitter 16 [] 1 0 2 (bytesOf ",") 4096 None 1 0,
             mkReader [] EOF 6,
             mkWorld [mkFlushChunkArgs 0 0 1 (bytesOf "a,b") 5] []).
Proof.
  apply (@C10_empty_values_are_dropped noStop readme_conf readme_splitter
           readme_stream). reflexivity.
Defined.

Lemma V1_example_run :
  V1.NewSplitter V1.example_conf = Some V1.example_splitter
  /\ V1.Split noStop V1.example_splitter readme_stream []
     = Some (Returned None, V1.example_final, mkReader [] EOF 31,
             V1.example_calls).
Proof. split; reflexivity. Qed.

(** ** C5 *)

Lemma endsWith_app_long (d p v : bytes) :
  len d <= len v -> endsWith d (p ++ v) = endsWith d v.
Proof.
  intros H. unfold endsWith. unfold len in H.
  replace (len d <=? len (p ++ v)) with true
    by (symmetry; apply Z.leb_le; rewrite len_app; unfold len; lia).
  replace (len d <=? len v) with true
    by (symmetry; apply Z.leb_le; unfold len; lia).
  rewrite skipn_app, length_app.
  rewrite skipn_all2 by lia.
  replace (length p + length v - length d - length p)%nat
    with (length v - length d)%nat by lia.
  reflexivity.
Qed.

Lemma join_last (d : bytes) (g : list bytes) :
  g <> [] -> exists p, join d g = p ++ last g [].
Proof.
  induction g as [|x g IH]; [congruence|]. intros _.
  destruct g as [|y g].
  - exists []. reflexivity.
  - destruct IH as [p Hp]; [discriminate|].
    exists (x ++ d ++ p).
    change (join d (x :: y :: g)) with (x ++ d ++ join d (y :: g)).
    change (last (x :: y :: g) []) with (last (y :: g) []).
    rewrite Hp, <- !app_assoc. reflexivity.
Qed.

Lemma last_In (g : list bytes) : g <> [] -> In (last g []) g.
Proof.
  induction g as [|x g IH]; [congruence|]. intros _.
  destruct g as [|y g]; [left; reflexivity|].
  right. apply IH. discriminate.
Qed.

(** Scanned values do not end with the delimiter. *)
Lemma scanValues_free (d : bytes) :
  d <> [] ->
  forall fuel vr,
    delim vr = d ->
    Forall (fun v => endsWith d v = false) (scanValues fuel vr).
Proof.
  intros Hd. induction fuel as [|fuel IH]; intros vr E; [constructor|].
  cbn [scanValues].
  destruct (Next vr) as [[v [e|]] vr'] eqn:N; [constructor|].
  constructor.
  - rewrite <- (firstn_all v). rewrite <- E.
    eapply Next_value_free; [rewrite E; exact Hd | exact N].
  - apply IH. apply Next_static in N as [D _]. congruence.
Qed.

Lemma accept_free (d : bytes) (flt : option (bytes -> bytes)) (vs : list bytes) :
  (forall f v, flt = Some f ->
               endsWith d v = false -> endsWith d (f v) = false) ->
  Forall (fun v => endsWith d v = false) vs ->
  Forall (fun v => endsWith d v = false) (accept flt vs).
Proof.
  intros Hf F. unfold accept. apply Forall_forall. intros v Hin.
  apply filter_In in Hin as [Hin _]. apply in_map_iff in Hin as [u [<- Hu]].
  rewrite Forall_forall in F. specialize (F u Hu).
  unfold filterValue. destruct flt as [f|]; [|exact F].
  destruct (len u >? 0); [apply (Hf f u eq_refl F) | exact F].
Qed.

Lemma described_tails (d : bytes) (gs : list (list bytes)) :
  forall csn vsn cs,
    described d csn vsn gs cs ->
    Forall2
      (fun c g =>
         g <> []
         /\ ChunkData c = join d g
         /\ ChunkData c ++ d = framed d g
         /\ (len d <= len (last g []) ->
             endsWith d (ChunkData c) = endsWith d (last g [])))
      cs gs.
Proof.
  induction gs as [|g gs IH]; intros csn vsn [|c cs] H; simpl in H;
    try contradiction; constructor.
  - destruct H as (G & _ & _ & _ & D & _).
    split; [exact G|]. split; [exact D|].
    split; [rewrite D; symmetry; apply framed_join, G|].
    intros L. rewrite D. destruct (join_last d G) as [p ->].
    apply endsWith_app_long, L.
  - eapply IH. apply H.
Qed.

(** C5, as stated, fails: with the delimiter ["aa"] the stream ["xaaa"]
    holds the values ["x"] and ["a"]; they make one chunk, whose payload
    ["xaaa"] ends with the delimiter. *)
Lemma C5_counterexample :
  NewSplitter overlap_conf = Some overlap_splitter
  /\ inputValues (bytesOf "aa") 0 overlap_stream = [bytesOf "x"; bytesOf "a"]
  /\ RunSplit noStop overlap_splitter overlap_stream world0
     = Some (Returned None,
             mkSplitter 16 [] 1 0 2 (bytesOf "aa") 4096 None 1 0,
             mkReader [] EOF 5,
             mkWorld [mkFlushChunkArgs 0 0 1 (bytesOf "xaaa") 4] [])
  /\ endsWith (Delim overlap_conf) (bytesOf "xaaa") = true.
Proof. repeat split. Qed.

(** That [flushChunk] hands the handler the buffer as it is, trailing
    delimiter included. *)
Lemma V2_flushChunk_keeps_delimiter :
  V2.flushChunk (bytesOf ",")
    (V2.mkFlushChunkArgs 0 0 0 (bytesOf "a,") 2) []
  = Some [V2.mkFlushChunkArgs 0 0 0 (bytesOf "a,") 2].
Proof. reflexivity. Qed.

(** C5 (amended): every run returns, and for every chunk it emitted the
    payload handed to the flush handler is what was buffered without its
    last delimiter: the chunk's
    values with the delimiter between them, so the delimiters inside the
    chunk are kept and exactly one, the trailing one, is stripped.  When
    the chunk's last value is at least as long as the delimiter, the
    payload ends with the delimiter only if that value does; with a
    delimiter of one byte and no filter (or a filter that never turns a
    value into one that ends with the delimiter) no payload ends with the
    delimiter. *)
Theorem C5_trailing_delimiter_stripped
    (sched : nat -> bool) (conf : Conf) (s : splitter) (rd : Reader) :
  NewSplitter conf = Some s ->
  exists o s' rd' w',
  RunSplit sched s rd world0 = Some (o, s', rd', w') /\
  (exists gs tail,
      acceptedValues s rd = concat gs ++ tail
      /\ Forall2
           (fun c g =>
              g <> []
              /\ ChunkData c = join (delimiter s) g
              /\ ChunkData c ++ delimiter s = framed (delimiter s) g
              /\ (len (delimiter s) <= len (last g []) ->
                  endsWith (delimiter s) (ChunkData c)
                  = endsWith (delimiter s) (last g [])))
           (flushed w') gs)
  /\ (len (delimiter s) = 1 ->
      (forall f v, valueFilter s = Some f ->
                   endsWith (delimiter s) v = false ->
                   endsWith (delimiter s) (f v) = false) ->
      Forall (fun c => endsWith (delimiter s) (ChunkData c) = false)
             (flushed w')).
Proof.
  intros HS.
  destruct (@RunSplit_structure sched conf s rd HS)
    as (o & s' & rd' & w' & R & _ & _ & gs & rest & tail & Out & Acc & _).
  exists o, s', rd', w'. split; [exact R|].
  pose proof (described_tails _ _ _ _ _ (out_described Out)) as T.
  split.
  { exists gs, (rest ++ tail). split; [rewrite Acc, app_assoc; reflexivity|].
    exact T. }
  intros L1 Hf.
  assert (D : delimiter s <> []).
  { pose proof HS as X. apply NewSplitter_some in X as [D ->]. exact D. }
  assert (Free : Forall (fun v => endsWith (delimiter s) v = false)
                        (acceptedValues s rd)).
  { unfold acceptedValues. apply accept_free; [exact Hf|].
    unfold inputValues, NewValueReader, NewValueReaderAndLimiter.
    destruct (len (delimiter s) =? 0); [constructor|].
    apply scanValues_free; [exact D | reflexivity]. }
  rewrite Acc, !Forall_app in Free. destruct Free as [[Free _] _].
  apply Forall_concat in Free.
  pose proof (out_nonempty Out) as NE. clear Out Acc R.
  revert T Free NE. generalize (flushed w').
  induction gs as [|g gs IH]; intros cs T Free NE; inversion T; subst;
    constructor.
  - destruct H2 as (G & _ & _ & E).
    inversion Free as [|? ? Fg _]; subst. inversion NE as [|? ? Ng _]; subst.
    pose proof (last_In G) as Hin.
    rewrite Forall_forall in Fg, Ng.
    rewrite E; [apply Fg, Hin|].
    rewrite L1. specialize (Ng _ Hin). apply len_pos_iff in Ng. lia.
  - inversion Free; subst. inversion NE; subst. apply IH; assumption.
Qed.

Lemma C5_witness :
  exists o s' rd' w',
  RunSplit noStop readme_splitter readme_stream world0
  = Some (o, s', rd', w') /\
  (exists gs tail,
      acceptedValues readme_splitter readme_stream = concat gs ++ tail
      /\ Forall2
           (fun c g =>
              g <> []
              /\ ChunkData c = join (delimiter readme_splitter) g
              /\ ChunkData c ++ delimiter readme_splitter
                 = framed (delimiter readme_splitter) g
              /\ (len (delimiter readme_splitter) <= len (last g []) ->
                  endsWith (delimiter readme_splitter) (ChunkData c)
                  = endsWith (delimiter readme_splitter) (last g [])))
           (flushed w') gs)
  /\ Forall (fun c => endsWith (delimiter readme_splitter) (ChunkData c)
                      = false)
            (flushed w').
Proof.
  destruct (@C5_trailing_delimiter_stripped noStop readme_conf
              readme_splitter readme_stream eq_refl)
    as (o & s' & rd' & w' & R & A & B).
  exists o, s', rd', w'. split; [exact R|].
  split; [exact A|]. apply B; [reflexivity|].
  intros f v E H. injection E as <-. unfold dropBanana.
  destruct (bytes_eqb v (bytesOf "banana")); [reflexivity | exact H].
Defined.

(** ** C7 *)

Lemma groups_le (gs : list (list bytes)) :
  Forall (fun g => g <> []) gs -> len gs <= len (concat gs).
Proof.
  induction gs as [|g gs IH]; intros F; [reflexivity|].
  inversion F as [|? ? Hg F']; subst. simpl concat.
  rewrite len_cons, len_app. apply len_pos_iff in Hg. specialize (IH F'). lia.
Qed.

(** Without wrap-around, described chunks are numbered contiguously. *)
Lemma described_contiguous (d : bytes) (gs : list (list bytes)) :
  forall csn vsn cs,
    described d csn vsn gs cs ->
    0 <= csn -> 0 <= vsn ->
    csn + len gs <= 2 ^ 63 ->
    vsn + len (concat gs) <= 2 ^ 63 ->
    contiguous csn vsn cs /\ snCount cs = len (concat gs).
Proof.
  assert (P : 0 < 2 ^ 63) by reflexivity.
  induction gs as [|g gs IH]; intros csn vsn [|c cs] H C0 V0 Cb Vb;
    simpl in H; try contradiction.
  - split; [exact I | reflexivity].
  - destruct H as (G & A & B & C & _ & H).
    simpl concat in Vb. rewrite len_cons in Cb. rewrite len_app in Vb.
    pose proof (len_nonneg gs). pose proof (len_nonneg (concat gs)).
    apply len_pos_iff in G.
    rewrite wrap64_small in A, B, C by lia.
    destruct (IH (csn + 1) (vsn + len g) cs H) as [K N]; try lia.
    split.
    + simpl. repeat split; try lia; try assumption.
      replace (EndValueSn c + 1) with (vsn + len g) by lia. exact K.
    + unfold snCount in *. simpl. rewrite N. simpl concat.
      rewrite len_app. lia.
Qed.

Lemma V1_emitChunk_some (s s' : V1.splitter) (w w' : list V1.FlushCall) :
  V1.emitChunk s w = Some (s', w') ->
  V1.chunkSn s' = wrap64 (V1.chunkSn s + 1)
  /\ exists c, w' = w ++ [c] /\ V1.fc_chunkSn c = V1.chunkSn s.
Proof.
  unfold V1.emitChunk, V1.flushChunk. cbn.
  split_ifs; intros H; [discriminate|]. injection H as <- <-.
  split; [reflexivity|]. eexists. split; reflexivity.
Qed.

Lemma V1_appendValue_some (s s' : V1.splitter) (v : bytes)
    (w w' : list V1.FlushCall) :
  V1.appendValue s v w = Some (s', w') ->
  (V1.chunkSn s' = V1.chunkSn s /\ w' = w)
  \/ (V1.chunkSn s' = wrap64 (V1.chunkSn s + 1)
      /\ exists c, w' = w ++ [c] /\ V1.fc_chunkSn c = V1.chunkSn s).
Proof.
  unfold V1.appendValue.
  destruct (len v >? 0); [|intros H; injection H as <- <-; left; auto].
  destruct (_ && _).
  - destruct (V1.emitChunk s w) as [[s1 w1]|] eqn:E; [|discriminate].
    apply V1_emitChunk_some in E. intros H. injection H as <- <-.
    right. exact E.
  - intros H. injection H as <- <-. left. auto.
Qed.

Lemma V1_flushAtEOF_some (s s' : V1.splitter) (w w' : list V1.FlushCall) :
  V1.flushAtEOF s w = Some (s', w') ->
  (V1.chunkSn s' = V1.chunkSn s /\ w' = w)
  \/ (V1.chunkSn s' = wrap64 (V1.chunkSn s + 1)
      /\ exists c, w' = w ++ [c] /\ V1.fc_chunkSn c = V1.chunkSn s).
Proof.
  unfold V1.flushAtEOF. destruct (_ >? 0).
  - intros H. right. apply V1_emitChunk_some, H.
  - intros H. injection H as <- <-. left. auto.
Qed.

Lemma V1_numbered_step (start : Z) (s s' : V1.splitter)
    (w w' : list V1.FlushCall) :
  V1.chunkSn s = wrap64 (start + len w) ->
  V1.numbered start w ->
  (V1.chunkSn s' = V1.chunkSn s /\ w' = w)
  \/ (V1.chunkSn s' = wrap64 (V1.chunkSn s + 1)
      /\ exists c, w' = w ++ [c] /\ V1.fc_chunkSn c = V1.chunkSn s) ->
  V1.chunkSn s' = wrap64 (start + len w') /\ V1.numbered start w'.
Proof.
  intros Hs Hn [[E ->]|[E (c & -> & Hc)]]; [split; [congruence | exact Hn]|].
  split.
  - rewrite E, Hs, wrap64_add, len_app, len_cons, len_nil. f_equal; lia.
  - intros i c' Hi. destruct (Nat.lt_ge_cases i (length w)) as [L|L].
    + rewrite nth_error_app1 in Hi by exact L. apply Hn, Hi.
    + rewrite nth_error_app2 in Hi by exact L.
      destruct (i - length w)%nat as [|k] eqn:K.
      * injection Hi as <-. rewrite Hc, Hs. unfold len. f_equal; lia.
      * destruct k; discriminate.
Qed.

(** Chunk numbers of [V1.Split] count up from the start. *)
Lemma V1_splitLoop_numbered (sched : nat -> bool) (start : Z) :
  forall fuel i s vr w o s' vr' w',
    V1.chunkSn s = wrap64 (start + len w) ->
    V1.numbered start w ->
    V1.splitLoop sched fuel i s vr w = Some (o, s', vr', w') ->
    V1.numbered start w'.
Proof.
  induction fuel as [|fuel IH]; intros i s vr w o s' vr' w' Hs Hn H;
    [discriminate|].
  cbn [V1.splitLoop] in H.
  set (s1 := if sched i then V1.Stop s else s) in *.
  assert (Hs1 : V1.chunkSn s1 = wrap64 (start + len w)).
  { subst s1. destruct (sched i); exact Hs. }
  clearbody s1.
  destruct (V1.stopped s1 >? 0).
  { injection H as <- <- <- <-. exact Hn. }
  destruct (Next vr) as [[value err] vr1].
  destruct (isFatal err).
  { injection H as <- <- <- <-. exact Hn. }
  destruct (V1.appendValue s1 (V1.applyFilter s1 value) w) as [[s2 w2]|] eqn:A.
  2:{ injection H as <- <- <- <-. exact Hn. }
  apply V1_appendValue_some in A.
  destruct (@V1_numbered_step start s1 s2 w w2 Hs1 Hn A) as [Hs2 Hn2].
  destruct (isEOFResult err).
  - destruct (V1.flushAtEOF s2 w2) as [[s3 w3]|] eqn:B.
    + apply V1_flushAtEOF_some in B.
      destruct (@V1_numbered_step start s2 s3 w2 w3 Hs2 Hn2 B) as [_ Hn3].
      injection H as <- <- <- <-. exact Hn3.
    + injection H as <- <- <- <-. exact Hn2.
  - eapply IH; eassumption.
Qed.

Lemma V1_splitLoop_fuel (sched : nat -> bool) :
  forall fuel i s vr w,
    ((if isEOF vr then 0 else S (length (rd_data (reader vr)))) < fuel)%nat ->
    V1.splitLoop sched fuel i s vr w <> None.
Proof.
  induction fuel as [|fuel IH]; intros i s vr w M; [lia|].
  cbn [V1.splitLoop].
  set (s1 := if sched i then V1.Stop s else s). clearbody s1.
  destruct (V1.stopped s1 >? 0); [discriminate|].
  destruct (Next vr) as [[value err] vr1] eqn:N.
  destruct (isFatal err) eqn:Fa; [discriminate|].
  destruct (V1.appendValue s1 (V1.applyFilter s1 value) w) as [[s2 w2]|];
    [|discriminate].
  destruct (isEOFResult err) eqn:EO.
  - destruct (V1.flushAtEOF s2 w2) as [[s3 w3]|]; discriminate.
  - pose proof (not_fatal_not_EOF _ Fa EO) as ->.
    apply Next_progress in N as [E0 P]. rewrite E0 in M.
    apply IH. destruct P as [[-> _]|[-> P]]; lia.
Qed.

(** Every [V1.Split] call on a fresh splitter returns,
    and the chunk numbers it hands out count up from [StartChunkSn]. *)
Lemma V1_Split_numbered (sched : nat -> bool) (conf : V1.Conf)
    (s : V1.splitter) (rd : Reader) :
  V1.NewSplitter conf = Some s ->
  - 2 ^ 63 <= V1.StartChunkSn conf < 2 ^ 63 ->
  exists o s' rd' calls,
    V1.Split sched s rd [] = Some (o, s', rd', calls)
    /\ V1.numbered (V1.StartChunkSn conf) calls.
Proof.
  unfold V1.NewSplitter.
  destruct (len (V1.Delim conf) =? 0) eqn:D; [discriminate|].
  destruct (V1.ChunkSizeLimit conf <? 0); [discriminate|].
  intros H R. injection H as <-.
  unfold V1.Split, NewValueReader, NewValueReaderAndLimiter.
  cbn [V1.started V1.set_started V1.delimiter V1.valueMaxScanSizeLimit].
  change (wrap32 (0 + 1)) with 1. cbn [Z.eqb Pos.eqb negb]. rewrite D.
  match goal with
  | |- context [V1.splitLoop sched ?f ?i ?s ?vr ?w] =>
    destruct (V1.splitLoop sched f i s vr w) as [[[[o s'] vr'] w']|] eqn:L
  end.
  - exists o, s', (reader vr'), w'. split; [reflexivity|].
    eapply V1_splitLoop_numbered; [| |exact L].
    + cbn. rewrite Z.add_0_r, wrap64_small by exact R. reflexivity.
    + intros [|i] c Hi; discriminate.
  - exfalso. revert L. apply V1_splitLoop_fuel. simpl. lia.
Qed.

(** C7: every run whose accepted values can be counted in an [int64]
    returns, its chunks are numbered 0, 1, 2, ..., the values of the first chunk
    start at 0, every chunk starts where the one before it stopped, and no
    chunk ends before it starts; the sequence numbers used are never more
    than the accepted values, and exactly as many when the run returns
    [nil], so values that were filtered out use none.  In the revision
    that takes the first chunk number from [StartChunkSn], every
    run returns and numbers its chunks upwards from that start (in [int]
    arithmetic; plainly so as long as the numbers stay below [2^63]). *)
Theorem C7_sequence_numbers_contiguous
    (sched : nat -> bool) (conf : Conf) (s : splitter) (rd : Reader) :
  NewSplitter conf = Some s ->
  len (acceptedValues s rd) < 2 ^ 63 ->
  exists o s' rd' w',
  RunSplit sched s rd world0 = Some (o, s', rd', w') /\
  contiguous 0 0 (flushed w')
  /\ snCount (flushed w') <= len (acceptedValues s rd)
  /\ (o = Returned None -> snCount (flushed w') = len (acceptedValues s rd))
  /\ (forall sched1 conf1 s1 rd1,
         V1.NewSplitter conf1 = Some s1 ->
         - 2 ^ 63 <= V1.StartChunkSn conf1 < 2 ^ 63 ->
         exists o1 s1' rd1' calls,
           V1.Split sched1 s1 rd1 [] = Some (o1, s1', rd1', calls)
           /\ V1.numbered (V1.StartChunkSn conf1) calls
           /\ (V1.StartChunkSn conf1 + len calls <= 2 ^ 63 ->
               forall i c, nth_error calls i = Some c ->
                           V1.fc_chunkSn c
                           = V1.StartChunkSn conf1 + Z.of_nat i)).
Proof.
  intros HS Hb.
  destruct (@RunSplit_structure sched conf s rd HS)
    as (o & s' & rd' & w' & R & _ & _ & gs & rest & tail & Out & Acc & Fin).
  exists o, s', rd', w'. split; [exact R|].
  pose proof (out_described Out) as De.
  destruct (@described_payloads _ _ _ _ _ De) as [_ NE].
  pose proof (groups_le NE) as Gl.
  assert (Le : len (concat gs) <= len (acceptedValues s rd)).
  { rewrite Acc, !len_app. pose proof (len_nonneg rest).
    pose proof (len_nonneg tail). lia. }
  destruct (@described_contiguous _ _ _ _ _ De) as [K N]; try lia.
  split; [exact K|]. split; [lia|]. split.
  - intros E. destruct (Fin E) as [-> ->]. rewrite Acc, !app_nil_r. exact N.
  - intros sched1 conf1 s1 rd1 H1 R1.
    destruct (@V1_Split_numbered sched1 conf1 s1 rd1 H1 R1)
      as (o1 & s1' & rd1' & calls & E & Nu).
    exists o1, s1', rd1', calls. split; [exact E|]. split; [exact Nu|].
    intros B i c Hi. rewrite (Nu i c Hi). apply wrap64_small.
    assert (Z.of_nat i < len calls).
    { unfold len. apply Nat2Z.inj_lt. apply nth_error_Some. congruence. }
    lia.
Qed.

Lemma C7_witness :
  exists o s' rd' w',
  RunSplit noStop readme_splitter readme_stream world0
  = Some (o, s', rd', w') /\
  contiguous 0 0 (flushed w')
  /\ snCount (flushed w')
     <= len (acceptedValues readme_splitter readme_stream)
  /\ (o = Returned None ->
      snCount (flushed w')
      = len (acceptedValues readme_splitter readme_stream))
  /\ exists o1 s1' rd1' calls,
      V1.Split noStop V1.example_splitter readme_stream []
      = Some (o1, s1', rd1', calls)
      /\ V1.numbered (V1.StartChunkSn V1.example_conf) calls
      /\ (V1.StartChunkSn V1.example_conf + len calls <= 2 ^ 63 ->
          forall i c, nth_error calls i = Some c ->
                      V1.fc_chunkSn c
                      = V1.StartChunkSn V1.example_conf + Z.of_nat i).
Proof.
  destruct (@C7_sequence_numbers_contiguous noStop readme_conf
              readme_splitter readme_stream eq_refl eq_refl)
    as (o & s' & rd' & w' & R & A & B & C & D).
  exists o, s', rd', w'. split; [exact R|].
  split; [exact A|]. split; [exact B|]. split; [exact C|].
  apply (D noStop V1.example_conf V1.example_splitter readme_stream eq_refl).
  split; [discriminate | reflexivity].
Defined.

(** * Further properties *)

(** ** The value reader, call by call *)

Lemma endsWith_suffix (d a : bytes) : endsWith d (a ++ d) = true.
Proof.
  unfold endsWith. rewrite length_app.
  replace (length a + length d - length d)%nat with (length a) by lia.
  rewrite skipn_app, skipn_all, Nat.sub_diag. simpl.
  rewrite bytes_eqb_refl, len_app, andb_true_r.
  apply Z.leb_le. pose proof (len_nonneg a). lia.
Qed.

Lemma endsWith_last (d bs : bytes) (b : byte) :
  d <> [] -> endsWith d (bs ++ [b]) = true -> last d x00 = b.
Proof.
  intros Hd H. rewrite <- (tailIsDelim_endsWith b bs Hd) in H.
  unfold tailIsDelim in H.
  destruct (Byte.eqb b (last d x00)) eqn:E; [|discriminate].
  apply byte_dec_bl in E. congruence.
Qed.

Lemma bump_succ (sbn : Z) (n : nat) :
  bump (wrap64 (sbn + 1)) n = bump sbn (S n).
Proof.
  destruct n as [|n]; unfold bump.
  - reflexivity.
  - rewrite wrap64_add. f_equal; lia.
Qed.

Lemma waitLimiter_quiet (lim : option Limiter) (n : nat) :
  quietFor (S n) lim ->
  waitLimiter lim = (None, waited 1 lim) /\ quietFor n (waited 1 lim)
  /\ forall k, waited k (waited 1 lim) = waited (S k) lim.
Proof.
  intros Q. destruct lim as [l|]; simpl.
  - pose proof (Q l eq_refl 0%nat ltac:(lia)) as Q0.
    rewrite Nat.add_0_r in Q0. rewrite Q0.
    replace (lim_calls l + 1)%nat with (S (lim_calls l)) by lia.
    split; [reflexivity|]. split.
    + intros l' E j Hj. injection E as <-. simpl.
      rewrite <- Nat.add_succ_r. apply (Q l eq_refl). lia.
    + intros k. simpl. do 2 f_equal. lia.
  - split; [reflexivity|]. split; [|reflexivity]. intros l E. discriminate.
Qed.

Section Walk.

Variable v : valueReader.
Hypothesis delim_nonempty : delim v <> [].

(** The read loop walks over bytes that complete no delimiter and do not
    fill the buffer: one [Wait] and one [ReadByte] each, the byte counter
    going up by one. *)
Lemma scanLoop_skip (c : bytes) :
  forall rest calls lim sbn buf,
    quietFor (length c) lim ->
    (forall n, (1 <= n <= length c)%nat ->
               endsWith (delim v) (buf ++ firstn n c) = false) ->
    len buf + len c < valueMaxScanSizeLimit v ->
    scanLoop v (c ++ rest) calls lim sbn buf
    = scanLoop v rest (calls + length c) (waited (length c) lim)
               (bump sbn (length c)) (buf ++ c).
Proof.
  induction c as [|b c IH]; intros rest calls lim sbn buf Q F L.
  - simpl. rewrite Nat.add_0_r, app_nil_r.
    destruct lim as [[f k]|]; simpl; [rewrite Nat.add_0_r|]; reflexivity.
  - destruct (waitLimiter_quiet Q) as (W & Q' & Wk).
    cbn [app scanLoop]. rewrite W.
    rewrite (tailIsDelim_endsWith b buf delim_nonempty).
    assert (F1 : endsWith (delim v) (buf ++ [b]) = false).
    { apply (F 1%nat). simpl. lia. }
    rewrite F1. rewrite len_cons in L.
    replace (len (buf ++ [b]) =? valueMaxScanSizeLimit v) with false.
    2:{ symmetry. apply Z.eqb_neq. rewrite len_app, len_cons, len_nil.
        pose proof (len_nonneg c). lia. }
    rewrite IH.
    + rewrite Wk, bump_succ, <- app_assoc. simpl length.
      replace (S calls + length c)%nat with (calls + S (length c))%nat by lia.
      reflexivity.
    + exact Q'.
    + intros n Hn. rewrite <- app_assoc. apply (F (S n)). simpl. lia.
    + rewrite len_app, len_cons, len_nil. lia.
Qed.

End Walk.

Lemma bump_step (sbn : Z) (n : nat) :
  wrap64 (bump sbn n + 1) = bump sbn (S n).
Proof.
  destruct n as [|n]; unfold bump.
  - reflexivity.
  - rewrite wrap64_add. f_equal; lia.
Qed.

Lemma waitLimiter_after (lim : option Limiter) (n : nat) :
  quietFor (S n) lim ->
  waitLimiter (waited n lim) = (None, waited (S n) lim).
Proof.
  intros Q. destruct lim as [l|]; simpl; [|reflexivity].
  rewrite (Q l eq_refl n) by lia. do 3 f_equal. lia.
Qed.

Lemma quietFor_le (n m : nat) (lim : option Limiter) :
  (m <= n)%nat -> quietFor n lim -> quietFor m lim.
Proof. intros L Q l E j Hj. apply (Q l E). lia. Qed.

Lemma delimFree_prefixes (d c : bytes) (n : nat) :
  delimFree d c = true -> endsWith d ([] ++ firstn n c) = false.
Proof. intros H. simpl. apply delimFree_spec, H. Qed.

(** X1: Next, first case: the delimiter shows up.  When the unread bytes
    start with a value followed by the delimiter, the delimiter occurs
    nowhere earlier, and value and delimiter fit into the scan limit, [Next]
    returns exactly the value, without an error, and leaves the source just
    behind the delimiter; the byte counter has gone up by the length of
    value and delimiter. *)
Theorem Next_returns_first_value (v : valueReader) (val rest : bytes) :
  isEOF v = false ->
  delim v <> [] ->
  rd_data (reader v) = val ++ delim v ++ rest ->
  delimFree (delim v) (removelast (val ++ delim v)) = true ->
  len (val ++ delim v) <= valueMaxScanSizeLimit v ->
  quietFor (length (val ++ delim v)) (limiter v) ->
  Next v = ((val, None),
            advanced v rest (length (val ++ delim v))
                     (length (val ++ delim v)) (length (val ++ delim v))).
Proof.
  intros E Hd Hdata Hfree Hlen Q. unfold Next. rewrite E, Hdata, app_assoc.
  assert (Hc : val ++ delim v <> []).
  { destruct val; [exact Hd | discriminate]. }
  destruct (exists_last Hc) as (c & b & Ec). rewrite Ec in *.
  rewrite removelast_last in Hfree.
  rewrite length_app in *. simpl length in *.
  rewrite <- (app_assoc c [b] rest).
  rewrite (@scanLoop_skip v Hd c).
  2:{ eapply quietFor_le; [|exact Q]. lia. }
  2:{ intros n _. apply delimFree_prefixes, Hfree. }
  2:{ rewrite len_app, len_cons, len_nil in Hlen. rewrite len_nil. lia. }
  cbn [app scanLoop].
  rewrite waitLimiter_after
    by (eapply quietFor_le; [|exact Q]; lia).
  rewrite (tailIsDelim_endsWith b c Hd), <- Ec, endsWith_suffix.
  rewrite firstn_app_exact.
  unfold advanced. rewrite bump_step.
  replace (length c + 1)%nat with (S (length c)) by lia.
  replace (S (rd_calls (reader v) + length c))
    with (rd_calls (reader v) + S (length c))%nat by lia.
  reflexivity.
Qed.

Lemma Next_returns_first_value_witness :
  Next abcd_reader
  = ((bytesOf "ab", None),
     advanced abcd_reader (bytesOf "cd") 3 3 3).
Proof.
  apply (@Next_returns_first_value abcd_reader (bytesOf "ab") (bytesOf "cd"));
    try reflexivity; try discriminate.
Defined.

(** X2: Next, second case: the scan limit.  When the first
    [valueMaxScanSizeLimit] unread bytes hold no delimiter, [Next] returns
    those bytes together with [ErrValueReaderMaxScanSizeLimit]; the source
    has moved on by exactly that many bytes and the end of the stream is
    not recorded. *)
Theorem Next_stops_at_scan_limit (v : valueReader) (c rest : bytes) :
  isEOF v = false ->
  delim v <> [] ->
  rd_data (reader v) = c ++ rest ->
  c <> [] ->
  len c = valueMaxScanSizeLimit v ->
  delimFree (delim v) c = true ->
  quietFor (length c) (limiter v) ->
  Next v = ((c, Some ErrValueReaderMaxScanSizeLimit),
            advanced v rest (length c) (length c) (length c)).
Proof.
  intros E Hd Hdata Hc Hlen Hfree Q. unfold Next. rewrite E, Hdata.
  destruct (exists_last Hc) as (c' & b & Ec).
  assert (F : forall n, (n <= length c')%nat ->
                        endsWith (delim v) (firstn n c') = false).
  { intros n L. pose proof (proj1 (delimFree_spec _ _) Hfree n) as X.
    rewrite Ec, firstn_app in X.
    replace (n - length c')%nat with 0%nat in X by lia.
    simpl in X. rewrite app_nil_r in X. exact X. }
  assert (Fc : endsWith (delim v) c = false).
  { pose proof (proj1 (delimFree_spec _ _) Hfree (length c)) as X.
    rewrite firstn_all in X. exact X. }
  assert (Lc : length c = S (length c')).
  { rewrite Ec, length_app. simpl. lia. }
  rewrite Lc. rewrite Ec at 1. rewrite <- (app_assoc c' [b] rest).
  rewrite (@scanLoop_skip v Hd c').
  2:{ eapply quietFor_le; [|exact Q]. lia. }
  2:{ intros n Hn. simpl. apply F. lia. }
  2:{ rewrite len_nil. unfold len in *. lia. }
  cbn [app scanLoop].
  rewrite waitLimiter_after by (rewrite <- Lc; exact Q).
  rewrite (tailIsDelim_endsWith b c' Hd), <- Ec, Fc.
  replace (len c =? valueMaxScanSizeLimit v) with true
    by (symmetry; apply Z.eqb_eq; exact Hlen).
  unfold advanced. rewrite bump_step.
  replace (S (rd_calls (reader v) + length c'))
    with (rd_calls (reader v) + S (length c'))%nat by lia.
  reflexivity.
Qed.

Lemma endsWith_nil (d : bytes) : d <> [] -> endsWith d [] = false.
Proof. destruct d; [congruence | reflexivity]. Qed.

(** Bytes that all differ from the delimiter's last byte hold no
    delimiter. *)
Lemma delimFree_without_last (d bs : bytes) :
  d <> [] ->
  Forall (fun x => x <> last d x00) bs ->
  delimFree d bs = true.
Proof.
  intros Hd F. apply delimFree_spec. intros n.
  assert (Fn : Forall (fun x => x <> last d x00) (firstn n bs)).
  { rewrite <- (firstn_skipn n bs) in F. apply Forall_app in F as [F _].
    exact F. }
  destruct (firstn n bs) as [|y l] eqn:Efn; [apply endsWith_nil, Hd|].
  destruct (@exists_last _ (y :: l)) as (l' & z & El); [discriminate|].
  rewrite El in *. destruct (endsWith d (l' ++ [z])) eqn:W; [|reflexivity].
  exfalso. apply endsWith_last in W; [|exact Hd].
  rewrite Forall_app in Fn. destruct Fn as [_ Fz].
  inversion Fz; subst. congruence.
Qed.

Lemma long_value_free : delimFree (bytesOf ",") long_value = true.
Proof.
  apply delimFree_without_last; [discriminate|].
  apply Forall_forall. intros x Hx. apply repeat_spec in Hx. subst x.
  discriminate.
Qed.

Lemma Next_stops_at_scan_limit_witness :
  Next long_reader
  = ((long_value, Some ErrValueReaderMaxScanSizeLimit),
     advanced long_reader (bytesOf ",tail") (length long_value)
              (length long_value) (length long_value)).
Proof.
  apply (@Next_stops_at_scan_limit long_reader long_value (bytesOf ",tail")).
  - reflexivity.
  - discriminate.
  - reflexivity.
  - discriminate.
  - unfold long_value, len. rewrite repeat_length. reflexivity.
  - exact long_value_free.
  - intros l E. discriminate.
Defined.

(** X3: Next, third case: the source fails.  When the source reports an error
    other than [io.EOF] before a delimiter or the scan limit is reached,
    [Next] returns that error and no bytes: what it had read in this call
    is dropped, although the source has moved past it. *)
Theorem Next_passes_read_error_on (v : valueReader) :
  isEOF v = false ->
  delim v <> [] ->
  isEOFErr (rd_err (reader v)) = false ->
  delimFree (delim v) (rd_data (reader v)) = true ->
  len (rd_data (reader v)) < valueMaxScanSizeLimit v ->
  quietFor (S (length (rd_data (reader v)))) (limiter v) ->
  Next v = (([], Some (rd_err (reader v))),
            advanced v [] (S (length (rd_data (reader v))))
                     (length (rd_data (reader v)))
                     (S (length (rd_data (reader v))))).
Proof.
  intros E Hd He Hfree Hlen Q. unfold Next. rewrite E.
  rewrite <- (app_nil_r (rd_data (reader v))) at 1.
  rewrite (@scanLoop_skip v Hd (rd_data (reader v))).
  2:{ eapply quietFor_le; [|exact Q]. lia. }
  2:{ intros n _. apply delimFree_prefixes, Hfree. }
  2:{ rewrite len_nil. lia. }
  cbn [scanLoop]. rewrite waitLimiter_after by exact Q.
  rewrite He. unfold advanced.
  replace (S (rd_calls (reader v) + length (rd_data (reader v))))
    with (rd_calls (reader v) + S (length (rd_data (reader v))))%nat by lia.
  reflexivity.
Qed.

Lemma Next_passes_read_error_on_witness :
  Next broken_reader
  = (([], Some (ErrIO 5)), advanced broken_reader [] 3 2 3).
Proof.
  apply (@Next_passes_read_error_on broken_reader);
    try reflexivity; try discriminate.
Defined.

(** X4: Next and a failing limiter.  When the limiter lets [k] calls pass and
    fails the next one, and the [k] bytes read meanwhile completed no
    delimiter, [Next] returns the limiter's error and no bytes; the [k]
    bytes are gone from the source and from the result. *)
Theorem Next_drops_bytes_when_wait_fails
    (v : valueReader) (l : Limiter) (c rest : bytes) (e : error) :
  isEOF v = false ->
  delim v <> [] ->
  rd_data (reader v) = c ++ rest ->
  delimFree (delim v) c = true ->
  len c < valueMaxScanSizeLimit v ->
  limiter v = Some l ->
  quietFor (length c) (limiter v) ->
  lim_result l (lim_calls l + length c) = Some e ->
  Next v = (([], Some e),
            advanced v rest (length c) (length c) (S (length c))).
Proof.
  intros E Hd Hdata Hfree Hlen Hl Q Hfail. unfold Next. rewrite E, Hdata.
  rewrite (@scanLoop_skip v Hd c).
  2:{ exact Q. }
  2:{ intros n _. apply delimFree_prefixes, Hfree. }
  2:{ rewrite len_nil. lia. }
  unfold advanced. rewrite Hl. simpl waited.
  destruct rest as [|b rest]; cbn [scanLoop waitLimiter Wait lim_result
                                   lim_calls]; rewrite Hfail;
    do 4 f_equal; lia.
Qed.

Lemma Next_drops_bytes_when_wait_fails_witness :
  Next abcd_throttled
  = (([], Some (ErrWait 9)), advanced abcd_throttled (bytesOf ",cd") 2 2 3).
Proof.
  apply (@Next_drops_bytes_when_wait_fails abcd_throttled third_wait_fails
           (bytesOf "ab") (bytesOf ",cd") (ErrWait 9));
    try reflexivity; try discriminate.
  intros l E j Hj. injection E as <-.
  destruct j as [|[|j]];
    [reflexivity | reflexivity | exfalso; cbv in Hj; lia].
Defined.

Lemma waited_zero (lim : option Limiter) : waited 0 lim = lim.
Proof.
  destruct lim as [[f k]|]; simpl; [rewrite Nat.add_0_r|]; reflexivity.
Qed.

Lemma waitLimiter_neverFails (lim : option Limiter) :
  neverFails lim ->
  waitLimiter lim = (None, waited 1 lim) /\ neverFails (waited 1 lim)
  /\ forall k, waited k (waited 1 lim) = waited (S k) lim.
Proof.
  intros Q. destruct lim as [l|]; simpl.
  - rewrite (Q l eq_refl). replace (lim_calls l + 1)%nat
      with (S (lim_calls l)) by lia.
    split; [reflexivity|]. split.
    + intros l' E k. injection E as <-. simpl. apply (Q l eq_refl).
    + intros k. simpl. do 2 f_equal. lia.
  - split; [reflexivity|]. split; [|reflexivity]. intros l E. discriminate.
Qed.

Lemma scanLoop_unlimited (v : valueReader) (data : bytes) :
  forall calls lim sbn buf,
    neverFails lim ->
    fst (scanLoop v data calls lim sbn buf)
    = fst (scanLoop (unlimited v) data calls None sbn buf)
    /\ unlimited (snd (scanLoop v data calls lim sbn buf))
       = snd (scanLoop (unlimited v) data calls None sbn buf)
    /\ limiter (snd (scanLoop v data calls lim sbn buf))
       = waited (rd_calls (reader (snd (scanLoop v data calls lim sbn buf)))
                 - calls) lim.
Proof.
  induction data as [|b data IH]; intros calls lim sbn buf Q;
    destruct (waitLimiter_neverFails Q) as (W & Q' & Wk);
    cbn [scanLoop]; rewrite W; cbn [waitLimiter unlimited delim reader
                                    valueMaxScanSizeLimit isEOF].
  - destruct (isEOFErr (rd_err (reader v)));
      cbn [fst snd reader rd_calls limiter unlimited delim
           valueMaxScanSizeLimit scanByteNum isEOF];
      replace (S calls - calls)%nat with 1%nat by lia; auto.
  - destruct (tailIsDelim b (buf ++ [b]) (delim v)).
    { cbn [fst snd reader rd_calls limiter unlimited delim
           valueMaxScanSizeLimit scanByteNum isEOF].
      replace (S calls - calls)%nat with 1%nat by lia. auto. }
    destruct (len (buf ++ [b]) =? valueMaxScanSizeLimit v).
    { cbn [fst snd reader rd_calls limiter unlimited delim
           valueMaxScanSizeLimit scanByteNum isEOF].
      replace (S calls - calls)%nat with 1%nat by lia. auto. }
    destruct (IH (S calls) (waited 1 lim) (wrap64 (sbn + 1)) (buf ++ [b]) Q')
      as (A & B & C).
    split; [exact A|]. split; [exact B|].
    rewrite C, Wk. f_equal.
    assert (S calls <= rd_calls (reader (snd (scanLoop v data (S calls)
              (waited 1 lim) (wrap64 (sbn + 1)) (buf ++ [b])))))%nat.
    { clear. generalize (waited 1 lim) (wrap64 (sbn + 1)) (buf ++ [b]) (S calls).
      induction data as [|x data IHd]; intros lm z bf n; cbn [scanLoop].
      - destruct (waitLimiter lm) as [[e|] lm']; [cbn; lia|].
        destruct (isEOFErr (rd_err (reader v))); cbn; lia.
      - destruct (waitLimiter lm) as [[e|] lm']; [cbn; lia|].
        destruct (tailIsDelim x (bf ++ [x]) (delim v)); [cbn; lia|].
        destruct (len (bf ++ [x]) =? valueMaxScanSizeLimit v); [cbn; lia|].
        specialize (IHd lm' (wrap64 (z + 1)) (bf ++ [x]) (S n)). lia. }
    lia.
Qed.

(** X5: The rate limiter only delays.  With a limiter that never fails, [Next]
    returns what it returns without the limiter and leaves the byte source,
    the byte counter and the end-of-stream mark as it would without it; the
    limiter has been asked once for every [ReadByte] call. *)
Theorem Next_with_patient_limiter (v : valueReader) :
  neverFails (limiter v) ->
  fst (Next v) = fst (Next (unlimited v))
  /\ unlimited (snd (Next v)) = snd (Next (unlimited v))
  /\ limiter (snd (Next v))
     = waited (rd_calls (reader (snd (Next v))) - rd_calls (reader v))
              (limiter v).
Proof.
  intros Q. unfold Next. cbn [unlimited isEOF reader limiter scanByteNum].
  destruct (isEOF v) eqn:E.
  - cbn. rewrite Nat.sub_diag, waited_zero. unfold unlimited.
    rewrite E. auto.
  - apply scanLoop_unlimited, Q.
Qed.

Lemma Next_with_patient_limiter_witness :
  fst (Next abcd_limited) = fst (Next (unlimited abcd_limited))
  /\ unlimited (snd (Next abcd_limited)) = snd (Next (unlimited abcd_limited))
  /\ limiter (snd (Next abcd_limited))
     = waited (rd_calls (reader (snd (Next abcd_limited)))
               - rd_calls (reader abcd_limited))
              (limiter abcd_limited).
Proof.
  apply (@Next_with_patient_limiter abcd_limited).
  intros l E k. injection E as <-. reflexivity.
Defined.

(** ** The chunks as a function of the accepted values *)

Section Pack.

Variables (d : bytes) (limit : Z) (flt : option (bytes -> bytes)).

Lemma appendValue_pack s vr value w gs cur :
  StInv d limit flt s gs cur ->
  OutInv d limit w gs ->
  value <> [] ->
  exists s' w',
    appendValue s vr value w = Some (s', w')
    /\ StInv d limit flt s' (fst (packStep limit d (gs, cur) value))
             (snd (packStep limit d (gs, cur) value))
    /\ OutInv d limit w' (fst (packStep limit d (gs, cur) value)).
Proof.
  intros St Out Hv. destruct St, Out.
  assert (Pv : 0 < len value) by (apply len_pos_iff; exact Hv).
  unfold packStep. cbn [fst snd].
  assert (Ec : preFlushCond s value
               = (len (framed d cur) + len value >? limit)
                 && (len (framed d cur) >? 0)).
  { unfold preFlushCond. rewrite st_buffer0, st_limit0. reflexivity. }
  rewrite <- Ec.
  destruct (preFlushCond s value) eqn:C; cbn [fst snd].
  - apply preFlushCond_true in C as [C1 C2].
    assert (Hc : cur <> []).
    { rewrite st_buffer0 in C2. apply framed_nonempty in C2; assumption. }
    assert (Hb : chunkBuffer s = join d cur ++ d).
    { rewrite st_buffer0. apply framed_join, Hc. }
    rewrite appendValue_flush; try (apply preFlushCond_true; split); auto.
    2:{ rewrite Hb, st_delim0, len_app. pose proof (len_nonneg (join d cur)).
        lia. }
    eexists _, _. split; [reflexivity|]. split.
    + constructor; simpl; auto.
      * rewrite st_delim0, app_nil_r. reflexivity.
      * rewrite st_csn0, wrap64_add, len_app, len_cons, len_nil.
        f_equal; lia.
      * rewrite st_next0, concat_app. simpl. rewrite app_nil_r, len_app.
        reflexivity.
      * rewrite st_next0, wrap64_add, concat_app. simpl.
        rewrite app_nil_r, len_app, len_cons, len_nil. f_equal; lia.
      * intros _. apply sizeOK_single.
    + constructor; simpl.
      * apply described_snoc; simpl; auto.
        -- rewrite st_next0, wrap64_sub. f_equal; lia.
        -- rewrite Hb, st_delim0. apply firstn_app_exact.
      * apply Forall_app. split; [assumption|]. constructor; auto.
      * apply Forall_app. split; [assumption|]. constructor; auto.
  - rewrite appendValue_keep by assumption.
    eexists _, _. split; [reflexivity|]. split; [|constructor; assumption].
    constructor; simpl; auto.
    + rewrite st_delim0, st_buffer0. symmetry. apply framed_snoc.
    + rewrite st_next0, wrap64_add, len_app, len_cons, len_nil.
      f_equal; lia.
    + apply Forall_app. split; [assumption|]. constructor; auto.
    + intros _. destruct cur as [|x cur']; [apply sizeOK_single|].
      left. rewrite join_snoc by discriminate.
      apply preFlushCond_false in C.
      rewrite st_buffer0, st_limit0 in C.
      assert (0 < len (framed d (x :: cur'))).
      { apply framed_nonempty; [assumption | discriminate]. }
      rewrite len_app. lia.
Qed.

Lemma flushAtEOF_pack s vr w gs cur :
  StInv d limit flt s gs cur ->
  OutInv d limit w gs ->
  exists s' w',
    flushAtEOF s vr w = Some (s', w')
    /\ OutInv d limit w' (closeGroups (gs, cur)).
Proof.
  intros St Out. destruct St, Out. unfold flushAtEOF, closeGroups.
  cbn [fst snd].
  destruct (len (chunkBuffer s) >? 0) eqn:C.
  - apply gtb_true in C.
    assert (Hc : cur <> []).
    { rewrite st_buffer0 in C. apply framed_nonempty in C; assumption. }
    assert (Hb : chunkBuffer s = join d cur ++ d).
    { rewrite st_buffer0. apply framed_join, Hc. }
    rewrite emitChunk_ok.
    2:{ rewrite Hb, st_delim0, len_app. pose proof (len_nonneg (join d cur)).
        lia. }
    destruct cur as [|x cur']; [congruence|].
    eexists _, _. split; [reflexivity|].
    constructor; simpl.
    + apply described_snoc; simpl; auto.
      * rewrite st_next0, wrap64_sub. f_equal; lia.
      * rewrite Hb, st_delim0. apply firstn_app_exact.
    + apply Forall_app. split; [assumption|].
      constructor; auto; apply st_size0; discriminate.
    + apply Forall_app. split; [assumption|]. constructor; auto.
  - apply gtb_false in C.
    assert (Hc : cur = []).
    { destruct cur as [|x cur']; [reflexivity|]. exfalso.
      assert (0 < len (framed d (x :: cur'))).
      { apply framed_nonempty; [assumption | discriminate]. }
      rewrite st_buffer0 in C. lia. }
    subst cur. exists s, w. split; [reflexivity|]. constructor; assumption.
Qed.

Lemma body_pack s vr value w gs cur :
  StInv d limit flt s gs cur ->
  OutInv d limit w gs ->
  exists s2 w2,
    (let '(value1, w1) := applyFilter s value w in
     appendValue s vr value1 w1) = Some (s2, w2)
    /\ StInv d limit flt s2
             (fst (fold_left (packStep limit d) (accept flt [value]) (gs, cur)))
             (snd (fold_left (packStep limit d) (accept flt [value]) (gs, cur)))
    /\ OutInv d limit w2
              (fst (fold_left (packStep limit d) (accept flt [value]) (gs, cur)))
    /\ stopped s2 = stopped s.
Proof.
  intros St Out.
  pose proof (applyFilter_value s value w) as V.
  pose proof (applyFilter_flushed s value w) as Fl.
  destruct (applyFilter s value w) as [value1 w1]. simpl in V, Fl.
  rewrite (st_filter St) in V. rewrite accept_single, <- V.
  destruct value1 as [|x r].
  - exists s, w1. rewrite appendValue_empty. cbn [fold_left fst snd].
    split; [reflexivity|]. split; [assumption|].
    split; [eapply OutInv_flushed; eassumption | reflexivity].
  - destruct (@appendValue_pack s vr (x :: r) w1 gs cur)
      as (s2 & w2 & A & B & C);
      [assumption | eapply OutInv_flushed; eassumption | discriminate |].
    destruct (@appendValue_inv d limit flt s vr (x :: r) w1 gs cur)
      as (s3 & w3 & _ & _ & A' & _ & _ & _ & _ & Sp & _);
      [assumption | eapply OutInv_flushed; eassumption | discriminate |].
    rewrite A in A'. injection A' as <- <-.
    exists s2, w2. cbn [fold_left]. auto.
Qed.

Lemma runLoop_pack (sched : nat -> bool) :
  forall fuel i s vr w gs cur o s' vr' w',
    StInv d limit flt s gs cur ->
    OutInv d limit w gs ->
    runLoop sched fuel i s vr w = Some (o, s', vr', w') ->
    exists vs tail,
      accept flt (scanValues fuel vr) = vs ++ tail
      /\ (o = Returned None ->
          tail = []
          /\ OutInv d limit w'
                    (closeGroups (fold_left (packStep limit d) vs (gs, cur))))
      /\ (o <> Returned None ->
          OutInv d limit w' (fst (fold_left (packStep limit d) vs (gs, cur)))).
Proof.
  induction fuel as [|fuel IH]; intros i s vr w gs cur o s' vr' w' St Out H;
    [discriminate|].
  cbn [runLoop] in H.
  set (s1 := if sched i then Stop s else s) in *.
  assert (St1 : StInv d limit flt s1 gs cur).
  { subst s1. destruct (sched i); [apply StInv_Stop|]; assumption. }
  clearbody s1.
  destruct (stopped s1 >? 0).
  { injection H as <- <- <- <-.
    exists [], (accept flt (scanValues (S fuel) vr)).
    split; [reflexivity|]. split; [discriminate | intros _; exact Out]. }
  destruct (Next vr) as [[value err] vr1] eqn:N.
  destruct (isFatal err) eqn:Fa.
  { injection H as <- <- <- <-.
    exists [], (accept flt (scanValues (S fuel) vr)).
    split; [reflexivity|]. split; [|intros _; exact Out].
    intros E. injection E as ->. discriminate Fa. }
  destruct (@body_pack s1 vr1 value w gs cur St1 Out)
    as (s2 & w2 & A & St2 & Out2 & _).
  destruct (applyFilter s1 value w) as [value1 w1].
  rewrite A in H.
  destruct (isEOFResult err) eqn:EO.
  - destruct err as [e|]; [|discriminate]. simpl in EO.
    pose proof (Next_EOF_value _ N EO) as ->.
    rewrite accept_single, filterValue_nil in St2, Out2.
    cbn [fold_left fst snd] in St2, Out2.
    destruct (@flushAtEOF_pack s2 vr1 w2 gs cur St2 Out2)
      as (s3 & w3 & B & Out3).
    rewrite B in H. injection H as <- <- <- <-.
    exists [], []. cbn [scanValues]. rewrite N.
    split; [reflexivity|]. split; [auto | congruence].
  - pose proof (not_fatal_not_EOF _ Fa EO) as ->.
    destruct (IH _ _ _ _ _ _ _ _ _ _ St2 Out2 H)
      as (vs & tail & Acc & Fin & Nof).
    exists (accept flt [value] ++ vs), tail.
    cbn [scanValues]. rewrite N, accept_cons, Acc, <- app_assoc.
    split; [reflexivity|]. rewrite fold_left_app.
    destruct (fold_left (packStep limit d) (accept flt [value]) (gs, cur))
      as [gs2 cur2]. auto.
Qed.

End Pack.

Lemma RunSplit_pack (sched : nat -> bool) (conf : Conf) (s : splitter)
    (rd : Reader) :
  NewSplitter conf = Some s ->
  exists o s' rd' w',
    RunSplit sched s rd world0 = Some (o, s', rd', w')
    /\ exists vs tail,
        acceptedValues s rd = vs ++ tail
        /\ (o = Returned None ->
            tail = []
            /\ OutInv (delimiter s) (chunkSizeLimit s) w'
                 (chunksOf (chunkSizeLimit s) (delimiter s) vs))
        /\ (o <> Returned None ->
            OutInv (delimiter s) (chunkSizeLimit s) w'
              (fst (pack (chunkSizeLimit s) (delimiter s) vs))).
Proof.
  intros H.
  destruct (@RunSplit_structure sched conf s rd H)
    as (o & s' & rd' & w' & R & _).
  exists o, s', rd', w'. split; [exact R|].
  rewrite (@RunSplit_fresh sched conf s rd world0 H) in R.
  pose proof (@StInv_fresh conf s 1 H) as St.
  pose proof (@OutInv_empty (delimiter s) (chunkSizeLimit s) world0 eq_refl)
    as Out.
  destruct (runLoop sched _ _ _ _ _) as [[[[o1 s1] vr1] w1]|] eqn:L;
    [|discriminate].
  injection R as -> -> _ ->.
  eapply runLoop_pack in L; [|exact St|exact Out].
  destruct L as (vs & tail & Acc & Fin & Nof).
  exists vs, tail. unfold acceptedValues.
  rewrite (@inputValues_fresh conf s rd H). auto.
Qed.

Section Greedy.

Variables (d : bytes) (limit : Z).

Lemma greedy_prefix (a b : list (list bytes)) :
  greedy limit d (a ++ b) -> greedy limit d a.
Proof.
  induction a as [|g a IH]; intros G; [exact I|].
  destruct G as [L G]. split; [|apply IH, G].
  destruct a; [exact I | exact L].
Qed.

Lemma greedy_snoc (gs : list (list bytes)) (g g' : list bytes) :
  greedy limit d (gs ++ [g]) ->
  limit < len (join d g) + len d + len (hd [] g') ->
  greedy limit d ((gs ++ [g]) ++ [g']).
Proof.
  intros G L. induction gs as [|x gs IH].
  - simpl. auto.
  - destruct G as [Lx G]. split; [|apply IH, G].
    destruct gs; exact Lx.
Qed.

Lemma greedy_last (gs : list (list bytes)) (g g' : list bytes) :
  greedy limit d (gs ++ [g]) ->
  hd [] g' = hd [] g ->
  greedy limit d (gs ++ [g']).
Proof.
  intros G E. induction gs as [|x gs IH].
  - simpl. auto.
  - destruct G as [Lx G]. split; [|apply IH, G].
    destruct gs as [|y gs]; [|exact Lx].
    simpl in *. rewrite E. exact Lx.
Qed.

Lemma packStep_packed st v :
  packed limit d st -> packed limit d (packStep limit d st v).
Proof.
  destruct st as [gs cur]. unfold packed, packStep, closeGroups.
  cbn [fst snd]. intros [G E].
  destruct ((len (framed d cur) + len v >? limit)
            && (len (framed d cur) >? 0)) eqn:C; cbn [fst snd].
  - apply andb_true_iff in C as [C1 C2].
    apply gtb_true in C1. apply gtb_true in C2.
    destruct cur as [|x cur]; [discriminate C2|].
    cbv beta iota in G. split; [|discriminate].
    apply greedy_snoc; [exact G|].
    rewrite framed_join in C1 by discriminate.
    rewrite len_app in C1. cbn [hd]. lia.
  - destruct cur as [|x cur].
    + rewrite (E eq_refl). cbn [app]. split; [|discriminate].
      split; exact I.
    + cbv beta iota in G. cbn [app]. split; [|discriminate].
      eapply greedy_last; [exact G | reflexivity].
Qed.

Lemma pack_packed vs : forall st,
  packed limit d st -> packed limit d (fold_left (packStep limit d) vs st).
Proof.
  induction vs as [|v vs IH]; intros st P; [exact P|].
  simpl. apply IH, packStep_packed, P.
Qed.

Lemma packStep_concat st v :
  concat (fst (packStep limit d st v)) ++ snd (packStep limit d st v)
  = (concat (fst st) ++ snd st) ++ [v].
Proof.
  unfold packStep. destruct (_ && _); cbn [fst snd].
  - rewrite concat_app. simpl. rewrite app_nil_r. reflexivity.
  - rewrite app_assoc. reflexivity.
Qed.

Lemma pack_concat vs : forall st,
  concat (fst (fold_left (packStep limit d) vs st))
  ++ snd (fold_left (packStep limit d) vs st)
  = (concat (fst st) ++ snd st) ++ vs.
Proof.
  induction vs as [|v vs IH]; intros st; simpl.
  - rewrite app_nil_r. reflexivity.
  - rewrite IH, packStep_concat, <- app_assoc. reflexivity.
Qed.

Lemma closeGroups_concat st :
  concat (closeGroups st) = concat (fst st) ++ snd st.
Proof.
  unfold closeGroups. destruct (snd st) as [|x r].
  - rewrite app_nil_r. reflexivity.
  - rewrite concat_app. simpl. rewrite app_nil_r. reflexivity.
Qed.

Lemma chunksOf_concat vs : concat (chunksOf limit d vs) = vs.
Proof.
  unfold chunksOf, pack. rewrite closeGroups_concat, pack_concat.
  reflexivity.
Qed.

Lemma chunksOf_greedy vs : greedy limit d (chunksOf limit d vs).
Proof.
  unfold chunksOf, pack. apply pack_packed. split; [exact I | reflexivity].
Qed.

Lemma pack_greedy vs : greedy limit d (fst (pack limit d vs)).
Proof.
  pose proof (chunksOf_greedy vs) as G. unfold chunksOf, closeGroups in G.
  destruct (snd (pack limit d vs)); [exact G|].
  eapply greedy_prefix, G.
Qed.

End Greedy.

(** X6: The chunks of a run are a function of the accepted values: a run that
    returns [nil] emitted the groups that [chunksOf] makes of all of them,
    with chunk numbers from 0 and the values numbered from 0 in their
    order; any other run emitted the closed groups of [pack] for the
    values it got to. *)
Theorem RunSplit_emits_chunksOf
    (sched : nat -> bool) (conf : Conf) (s : splitter) (rd : Reader) :
  NewSplitter conf = Some s ->
  exists o s' rd' w',
    RunSplit sched s rd world0 = Some (o, s', rd', w')
    /\ (o = Returned None ->
        map ChunkData (flushed w')
        = map (join (delimiter s))
            (chunksOf (chunkSizeLimit s) (delimiter s) (acceptedValues s rd))
        /\ described (delimiter s) 0 0
             (chunksOf (chunkSizeLimit s) (delimiter s) (acceptedValues s rd))
             (flushed w'))
    /\ (o <> Returned None ->
        exists vs tail,
          acceptedValues s rd = vs ++ tail
          /\ map ChunkData (flushed w')
             = map (join (delimiter s))
                 (fst (pack (chunkSizeLimit s) (delimiter s) vs))).
Proof.
  intros H.
  destruct (@RunSplit_pack sched conf s rd H)
    as (o & s' & rd' & w' & R & vs & tail & Acc & Fin & Nof).
  exists o, s', rd', w'. split; [exact R|]. split.
  - intros E. destruct (Fin E) as [-> [De _ _]].
    rewrite app_nil_r in Acc. rewrite Acc.
    split; [|exact De]. eapply described_payloads, De.
  - intros E. destruct (Nof E) as [De _ _]. exists vs, tail.
    split; [exact Acc|]. eapply described_payloads, De.
Qed.

Lemma RunSplit_emits_chunksOf_witness :
  exists o s' rd' w',
    RunSplit noStop readme_splitter readme_stream world0
    = Some (o, s', rd', w')
    /\ (o = Returned None ->
        map ChunkData (flushed w')
        = map (join (delimiter readme_splitter))
            (chunksOf (chunkSizeLimit readme_splitter)
               (delimiter readme_splitter)
               (acceptedValues readme_splitter readme_stream))
        /\ described (delimiter readme_splitter) 0 0
             (chunksOf (chunkSizeLimit readme_splitter)
                (delimiter readme_splitter)
                (acceptedValues readme_splitter readme_stream))
             (flushed w'))
    /\ (o <> Returned None ->
        exists vs tail,
          acceptedValues readme_splitter readme_stream = vs ++ tail
          /\ map ChunkData (flushed w')
             = map (join (delimiter readme_splitter))
                 (fst (pack (chunkSizeLimit readme_splitter)
                         (delimiter readme_splitter) vs))).
Proof.
  apply (@RunSplit_emits_chunksOf noStop readme_conf readme_splitter
           readme_stream). reflexivity.
Defined.

(** X7: Chunks are filled greedily: in every run, the emitted chunks carry
    groups of consecutive accepted values, and no group could have taken
    the first value of the next one, since its payload, one delimiter and
    that value together exceed the chunk size limit. *)
Theorem RunSplit_chunks_are_greedy
    (sched : nat -> bool) (conf : Conf) (s : splitter) (rd : Reader) :
  NewSplitter conf = Some s ->
  exists o s' rd' w',
    RunSplit sched s rd world0 = Some (o, s', rd', w')
    /\ exists gs rest,
        acceptedValues s rd = concat gs ++ rest
        /\ map ChunkData (flushed w') = map (join (delimiter s)) gs
        /\ greedy (chunkSizeLimit s) (delimiter s) gs
        /\ (o = Returned None -> rest = []).
Proof.
  intros H.
  destruct (@RunSplit_pack sched conf s rd H)
    as (o & s' & rd' & w' & R & vs & tail & Acc & Fin & Nof).
  exists o, s', rd', w'. split; [exact R|].
  assert (D : o = Returned None \/ o <> Returned None).
  { destruct o as [[e|]|]; [right | left | right]; congruence. }
  destruct D as [E|E].
  - destruct (Fin E) as [-> [De _ _]].
    exists (chunksOf (chunkSizeLimit s) (delimiter s) vs), [].
    rewrite chunksOf_concat. split; [exact Acc|].
    split; [eapply described_payloads, De|].
    split; [apply chunksOf_greedy | reflexivity].
  - destruct (Nof E) as [De _ _].
    exists (fst (pack (chunkSizeLimit s) (delimiter s) vs)),
           (snd (pack (chunkSizeLimit s) (delimiter s) vs) ++ tail).
    split.
    { rewrite Acc, app_assoc. f_equal. unfold pack.
      rewrite pack_concat. reflexivity. }
    split; [eapply described_payloads, De|].
    split; [apply pack_greedy | contradiction].
Qed.

Lemma RunSplit_chunks_are_greedy_witness :
  exists o s' rd' w',
    RunSplit noStop readme_splitter readme_stream world0
    = Some (o, s', rd', w')
    /\ exists gs rest,
        acceptedValues readme_splitter readme_stream = concat gs ++ rest
        /\ map ChunkData (flushed w')
           = map (join (delimiter readme_splitter)) gs
        /\ greedy (chunkSizeLimit readme_splitter)
             (delimiter readme_splitter) gs
        /\ (o = Returned None -> rest = []).
Proof.
  apply (@RunSplit_chunks_are_greedy noStop readme_conf readme_splitter
           readme_stream). reflexivity.
Defined.

(** ** How a run ends, and what it has read by then *)

Lemma bump_small (sbn : Z) (n : nat) :
  0 <= sbn -> sbn + Z.of_nat n < 2 ^ 63 -> bump sbn n = sbn + Z.of_nat n.
Proof.
  intros H0 H1. destruct n as [|n]; unfold bump; [simpl; lia|].
  apply wrap64_small. lia.
Qed.

Lemma scanLoop_count (v : valueReader) (data : bytes) :
  forall calls lim sbn buf val e v',
    scanLoop v data calls lim sbn buf = ((val, e), v') ->
    exists consumed,
      data = consumed ++ rd_data (reader v')
      /\ scanByteNum v' = bump sbn (length consumed)
      /\ (isEOF v' = true ->
          isEOF v = true
          \/ (rd_data (reader v') = []
              /\ isEOFErr (rd_err (reader v)) = true)).
Proof.
  induction data as [|b data IH]; intros calls lim sbn buf val e v' H;
    cbn [scanLoop] in H; destruct (waitLimiter lim) as [[e0|] lim'].
  - injection H as _ _ <-. exists []. simpl. auto.
  - destruct (isEOFErr (rd_err (reader v))) eqn:E; injection H as _ _ <-;
      exists []; simpl; auto.
  - injection H as _ _ <-. exists []. simpl. auto.
  - destruct (tailIsDelim b (buf ++ [b]) (delim v)).
    { injection H as _ _ <-. exists [b]. simpl. auto. }
    destruct (len (buf ++ [b]) =? valueMaxScanSizeLimit v).
    { injection H as _ _ <-. exists [b]. simpl. auto. }
    apply IH in H as (c & E1 & E2 & E3). exists (b :: c).
    split; [simpl; congruence|]. split; [|exact E3].
    rewrite E2. apply bump_succ.
Qed.

(** An error of a call on a reader without limiter is the error of the
    byte source, reported once its bytes are used up, or the scan limit,
    reported when the bytes read in the call reach the limit with no
    delimiter at the end of any prefix. *)
Lemma scanLoop_error_kinds (v : valueReader) (data : bytes) :
  delim v <> [] ->
  forall calls sbn buf val e v',
    (forall n, endsWith (delim v) (firstn n buf) = false) ->
    scanLoop v data calls None sbn buf = ((val, Some e), v') ->
    (e = rd_err (reader v) /\ isEOFErr e = false
     /\ rd_data (reader v') = [])
    \/ (e = ErrValueReaderMaxScanSizeLimit
        /\ exists c,
            data = c ++ rd_data (reader v')
            /\ val = buf ++ c
            /\ len (buf ++ c) = valueMaxScanSizeLimit v
            /\ forall n, endsWith (delim v) (firstn n (buf ++ c)) = false).
Proof.
  intros Hd.
  induction data as [|b data IH]; intros calls sbn buf val e v' Fr H;
    cbn [scanLoop waitLimiter] in H.
  - destruct (isEOFErr (rd_err (reader v))) eqn:E; [discriminate|].
    injection H as _ <- <-. left. auto.
  - destruct (tailIsDelim b (buf ++ [b]) (delim v)) eqn:T; [discriminate|].
    rewrite tailIsDelim_endsWith in T by exact Hd.
    pose proof (@delimFree_snoc (delim v) buf b Fr T) as Fr'.
    destruct (len (buf ++ [b]) =? valueMaxScanSizeLimit v) eqn:L.
    + injection H as <- <- <-. right. split; [reflexivity|].
      apply Z.eqb_eq in L. exists [b]. auto.
    + apply IH in H as [H|(H1 & c & E1 & E2 & E3 & E4)];
        [left; exact H | right | exact Fr'].
      split; [exact H1|]. exists (b :: c).
      rewrite <- app_assoc in E2, E3, E4. simpl in E2, E3, E4.
      split; [simpl; congruence | auto].
Qed.

(** What one call changes, whatever it returns. *)
Lemma Next_count (v v' : valueReader) (val : bytes) (e : option error) :
  Next v = ((val, e), v') ->
  (isEOF v = true ->
   rd_data (reader v) = [] /\ isEOFErr (rd_err (reader v)) = true) ->
  rd_err (reader v') = rd_err (reader v)
  /\ (isEOF v' = true ->
      rd_data (reader v') = [] /\ isEOFErr (rd_err (reader v')) = true)
  /\ exists consumed,
      rd_data (reader v) = consumed ++ rd_data (reader v')
      /\ scanByteNum v' = bump (scanByteNum v) (length consumed).
Proof.
  unfold Next. intros H K. destruct (isEOF v) eqn:E.
  - injection H as _ _ <-. split; [reflexivity|]. split; [intros _; auto|].
    exists []. rewrite (proj1 (K eq_refl)). auto.
  - pose proof (scanLoop_spec _ _ _ _ _ _ H) as (_ & _ & Er & _).
    apply scanLoop_count in H as (c & E1 & E2 & E3).
    split; [exact Er|]. split.
    + intros T. rewrite Er. destruct (E3 T) as [F|F]; [congruence | exact F].
    + exists c. auto.
Qed.

Lemma Next_error_kinds (v v' : valueReader) (val : bytes) (e : error) :
  Next v = ((val, Some e), v') ->
  limiter v = None ->
  delim v <> [] ->
  (isEOF v = true /\ e = EOF /\ v' = v)
  \/ (e = rd_err (reader v) /\ isEOFErr e = false
      /\ rd_data (reader v') = [])
  \/ (e = ErrValueReaderMaxScanSizeLimit
      /\ exists c,
          rd_data (reader v) = c ++ rd_data (reader v')
          /\ val = c
          /\ len c = valueMaxScanSizeLimit v
          /\ delimFree (delim v) c = true).
Proof.
  unfold Next. intros H L Hd. destruct (isEOF v) eqn:E.
  - injection H as _ <- <-. left. auto.
  - rewrite L in H. apply scanLoop_error_kinds in H; [|exact Hd|].
    2:{ intros n. rewrite firstn_nil. apply endsWith_nil, Hd. }
    right. destruct H as [H|(H1 & c & E1 & E2 & E3 & E4)]; [left; exact H|].
    right. split; [exact H1|]. exists c. simpl in E2, E3, E4.
    split; [exact E1|]. split; [exact E2|]. split; [exact E3|].
    apply delimFree_spec, E4.
Qed.

Lemma emitChunk_trace s vr w s' w' :
  emitChunk s vr w = Some (s', w') ->
  stopped s' = stopped s
  /\ exists c, flushed w' = flushed w ++ [c]
               /\ ScanByteNum c = scanByteNum vr.
Proof.
  unfold emitChunk, flushChunk. cbn.
  destruct (_ <? 0); [discriminate|]. intros H. injection H as <- <-.
  split; [reflexivity|]. eexists. split; reflexivity.
Qed.

Lemma appendValue_trace s vr value w s' w' :
  appendValue s vr value w = Some (s', w') ->
  stopped s' = stopped s
  /\ (value = [] -> s' = s /\ w' = w)
  /\ (value <> [] -> chunkBuffer s' <> [])
  /\ exists new,
      flushed w' = flushed w ++ new
      /\ Forall (fun c => ScanByteNum c = scanByteNum vr) new.
Proof.
  unfold appendValue. destruct (len value >? 0) eqn:V.
  2:{ intros H. injection H as <- <-. apply gtb_false in V.
      split; [reflexivity|]. split; [auto|]. split.
      - intros N. apply len_pos_iff in N. lia.
      - exists []. rewrite app_nil_r. auto. }
  apply gtb_true in V. apply len_pos_iff in V.
  destruct (preFlushCond s value).
  - destruct (emitChunk s vr w) as [[s1 w1]|] eqn:Em; [|discriminate].
    apply emitChunk_trace in Em as (St & c & Fl & Sb).
    intros H. injection H as <- <-. cbn.
    split; [exact St|]. split; [intros N; congruence|]. split.
    + intros _ N. apply app_eq_nil in N as [N _].
      apply app_eq_nil in N as [_ N]. congruence.
    + exists [c]. auto.
  - intros H. injection H as <- <-. cbn.
    split; [reflexivity|]. split; [intros N; congruence|]. split.
    + intros _ N. apply app_eq_nil in N as [N _].
      apply app_eq_nil in N as [_ N]. congruence.
    + exists []. rewrite app_nil_r. auto.
Qed.

Lemma flushAtEOF_trace s vr w s' w' :
  flushAtEOF s vr w = Some (s', w') ->
  stopped s' = stopped s
  /\ exists new,
      flushed w' = flushed w ++ new
      /\ Forall (fun c => ScanByteNum c = scanByteNum vr) new
      /\ (chunkBuffer s <> [] -> new <> []).
Proof.
  unfold flushAtEOF. destruct (len (chunkBuffer s) >? 0) eqn:C.
  - intros Em. apply emitChunk_trace in Em as (St & c & Fl & Sb).
    split; [exact St|]. exists [c]. split; [exact Fl|].
    split; [auto | discriminate].
  - intros H. injection H as <- <-. split; [reflexivity|].
    exists []. rewrite app_nil_r. split; [reflexivity|].
    split; [constructor|]. intros N. apply len_pos_iff in N.
    apply gtb_false in C. lia.
Qed.

Lemma applyFilter_nil s w : applyFilter s [] w = ([], w).
Proof. unfold applyFilter. destruct (valueFilter s); reflexivity. Qed.

Lemma bump_bump (sbn : Z) (a b : nat) :
  bump (bump sbn a) b = bump sbn (a + b).
Proof.
  unfold bump. destruct a as [|a], b as [|b]; cbn [Nat.add];
    try reflexivity.
  - rewrite Nat.add_0_r. reflexivity.
  - rewrite wrap64_add. f_equal. lia.
Qed.

Section Outcome.

Variable sched : nat -> bool.

Lemma runLoop_outcome :
  forall fuel i s vr w o s' vr' w',
    limiter vr = None ->
    delim vr <> [] ->
    (isEOF vr = true ->
     rd_data (reader vr) = [] /\ isEOFErr (rd_err (reader vr)) = true) ->
    runLoop sched fuel i s vr w = Some (o, s', vr', w') ->
    rd_err (reader vr') = rd_err (reader vr)
    /\ (exists consumed,
           rd_data (reader vr) = consumed ++ rd_data (reader vr')
           /\ scanByteNum vr' = bump (scanByteNum vr) (length consumed))
    /\ (0 < stopped s' -> 0 < stopped s \/ exists j, sched j = true)
    /\ match o with
       | Panicked => True
       | Returned None =>
         rd_data (reader vr') = [] /\ isEOFErr (rd_err (reader vr)) = true
       | Returned (Some e) =>
         (e = ErrSplitterIsStopped /\ 0 < stopped s')
         \/ (e = rd_err (reader vr) /\ isEOFErr e = false
             /\ rd_data (reader vr') = [])
         \/ (e = ErrValueReaderMaxScanSizeLimit
             /\ exists pre c,
                 rd_data (reader vr) = pre ++ c ++ rd_data (reader vr')
                 /\ len c = valueMaxScanSizeLimit vr
                 /\ delimFree (delim vr) c = true)
       end.
Proof.
  induction fuel as [|fuel IH]; intros i s vr w o s' vr' w' L Hd K H;
    [discriminate|].
  cbn [runLoop] in H.
  assert (S1 : 0 < stopped (if sched i then Stop s else s) ->
               0 < stopped s \/ exists j, sched j = true).
  { destruct (sched i) eqn:Si; [right; eauto | left; assumption]. }
  assert (Z0 : exists consumed : bytes,
             rd_data (reader vr) = consumed ++ rd_data (reader vr)
             /\ scanByteNum vr = bump (scanByteNum vr) (length consumed)).
  { exists []. auto. }
  set (s1 := if sched i then Stop s else s) in *. clearbody s1.
  destruct (stopped s1 >? 0) eqn:St.
  { injection H as <- <- <- <-. apply gtb_true in St. auto 10. }
  destruct (Next vr) as [[value err] vr1] eqn:N.
  pose proof (Next_count _ N K) as (Er & K1 & c1 & D1 & B1).
  pose proof (Next_static _ N) as (Dl & Lm & L1). specialize (L1 L).
  destruct (isFatal err) eqn:Fa.
  { injection H as <- <- <- <-. split; [exact Er|].
    split; [eauto|]. split; [exact S1|].
    destruct err as [e|]; [|discriminate Fa].
    destruct (Next_error_kinds _ N L Hd)
      as [(_ & -> & _)|[Hk|(-> & c & E1 & _ & E3 & E4)]];
      [discriminate Fa | auto |].
    right. right. split; [reflexivity|]. exists [], c. auto. }
  destruct (applyFilter s1 value w) as [value1 w1].
  destruct (appendValue s1 vr1 value1 w1) as [[s2 w2]|] eqn:A.
  2:{ injection H as <- <- <- <-. split; [exact Er|]. split; [eauto|].
      split; [exact S1 | exact I]. }
  apply appendValue_trace in A as (Sp & _).
  destruct (isEOFResult err) eqn:EO.
  - destruct err as [e|]; [|discriminate]. simpl in EO.
    assert (R : rd_data (reader vr1) = []
                /\ isEOFErr (rd_err (reader vr)) = true).
    { destruct (Next_error_kinds _ N L Hd)
        as [(E1 & _ & ->)|[(_ & F & _)|[-> _]]];
        [auto | congruence | discriminate]. }
    destruct (flushAtEOF s2 vr1 w2) as [[s3 w3]|] eqn:F;
      injection H as <- <- <- <-; split; try exact Er;
      (split; [eauto|]); (split; [|auto]).
    + apply flushAtEOF_trace in F as (Sf & _). rewrite Sf, Sp. exact S1.
    + rewrite Sp. exact S1.
  - pose proof (not_fatal_not_EOF _ Fa EO) as ->.
    rewrite <- Dl in Hd.
    apply IH in H as (Er2 & (c2 & D2 & B2) & S2 & O2);
      [|exact L1|exact Hd|exact K1].
    split; [congruence|]. split.
    { exists (c1 ++ c2). rewrite <- app_assoc, <- D2. split; [exact D1|].
      rewrite B2, B1, length_app. apply bump_bump. }
    split.
    { intros P. destruct (S2 P) as [Q|Q]; [|auto]. rewrite Sp in Q. auto. }
    destruct o as [[e|]|]; [|rewrite <- Er; exact O2|exact I].
    destruct O2 as [(-> & P)|[(-> & F & R)|(-> & pre & c & E1 & E2 & E3)]].
    + left. auto.
    + right. left. rewrite Er in F |- *. auto.
    + right. right. split; [reflexivity|]. exists (c1 ++ pre), c.
      rewrite <- app_assoc, <- E1, <- Lm, <- Dl. auto.
Qed.

End Outcome.

Lemma byteMarks_weaken (lo lo' hi : Z) (cs : list FlushChunkArgs) :
  lo <= lo' -> byteMarks lo' hi cs -> byteMarks lo hi cs.
Proof. destruct cs as [|c cs]; simpl; [lia | intros ? []; split; [lia|auto]]. Qed.

Lemma byteMarks_app (cs cs' : list FlushChunkArgs) :
  forall lo mid hi,
    byteMarks lo mid cs -> byteMarks mid hi cs' -> byteMarks lo hi (cs ++ cs').
Proof.
  induction cs as [|c cs IH]; intros lo mid hi A B; simpl in *.
  - eapply byteMarks_weaken; eassumption.
  - destruct A as [A1 A2]. split; [exact A1|]. eapply IH; eassumption.
Qed.

Lemma byteMarks_const (m : Z) (cs : list FlushChunkArgs) :
  forall lo hi,
    lo <= m -> m <= hi ->
    Forall (fun c => ScanByteNum c = m) cs ->
    byteMarks lo hi cs.
Proof.
  induction cs as [|c cs IH]; intros lo hi A B F; simpl; [lia|].
  inversion F as [|? ? Hc Hr]; subst. split; [lia|].
  apply IH; [lia | exact B | exact Hr].
Qed.

Lemma flushAtEOF_last s vr w s' w' :
  flushAtEOF s vr w = Some (s', w') ->
  (chunkBuffer s = [] /\ w' = w)
  \/ exists c, flushed w' = flushed w ++ [c]
               /\ ScanByteNum c = scanByteNum vr.
Proof.
  unfold flushAtEOF. destruct (len (chunkBuffer s) >? 0) eqn:C.
  - intros Em. apply emitChunk_trace in Em as (_ & c & Fl & Sb).
    right. exists c. auto.
  - intros H. injection H as <- <-. left. split; [|reflexivity].
    apply gtb_false in C. destruct (chunkBuffer s) as [|x l]; [reflexivity|].
    rewrite len_cons in C. pose proof (len_nonneg l). lia.
Qed.

Section Marks.

Variable sched : nat -> bool.

Lemma runLoop_marks :
  forall fuel i s vr w o s' vr' w',
    limiter vr = None ->
    (isEOF vr = true ->
     rd_data (reader vr) = [] /\ isEOFErr (rd_err (reader vr)) = true) ->
    0 <= scanByteNum vr ->
    scanByteNum vr + len (rd_data (reader vr)) < 2 ^ 63 ->
    (flushed w = [] \/ chunkBuffer s <> []) ->
    runLoop sched fuel i s vr w = Some (o, s', vr', w') ->
    scanByteNum vr' + len (rd_data (reader vr'))
    = scanByteNum vr + len (rd_data (reader vr))
    /\ exists new,
        flushed w' = flushed w ++ new
        /\ byteMarks (scanByteNum vr) (scanByteNum vr') new
        /\ (o = Returned None ->
            flushed w' = []
            \/ last (map ScanByteNum (flushed w')) 0 = scanByteNum vr').
Proof.
  induction fuel as [|fuel IH]; intros i s vr w o s' vr' w' L K P0 P1 J H;
    [discriminate|].
  cbn [runLoop] in H.
  assert (B1 : chunkBuffer (if sched i then Stop s else s) = chunkBuffer s).
  { destruct (sched i); reflexivity. }
  set (s1 := if sched i then Stop s else s) in *. clearbody s1.
  destruct (stopped s1 >? 0).
  { injection H as <- <- <- <-. split; [reflexivity|]. exists [].
    rewrite app_nil_r. split; [reflexivity|]. split; [simpl; lia|].
    discriminate. }
  destruct (Next vr) as [[value err] vr1] eqn:N.
  pose proof (Next_count _ N K) as (Er & K1 & c1 & D1 & C1).
  pose proof (Next_static _ N) as (_ & _ & L1). specialize (L1 L).
  assert (Q : scanByteNum vr1 = scanByteNum vr + Z.of_nat (length c1)
              /\ len (rd_data (reader vr))
                 = Z.of_nat (length c1) + len (rd_data (reader vr1))).
  { assert (E : len (rd_data (reader vr))
                = Z.of_nat (length c1) + len (rd_data (reader vr1))).
    { rewrite D1 at 1. rewrite len_app. reflexivity. }
    split; [|exact E]. rewrite C1. apply bump_small; [exact P0|].
    pose proof (len_nonneg (rd_data (reader vr1))). lia. }
  destruct Q as [Q1 Q2].
  assert (Q3 : 0 <= Z.of_nat (length c1)) by lia.
  destruct (isFatal err) eqn:Fat.
  { injection H as <- <- <- <-. split; [lia|]. exists [].
    rewrite app_nil_r. split; [reflexivity|]. split; [simpl; lia|].
    intros E. injection E as ->. discriminate Fat. }
  pose proof (applyFilter_flushed s1 value w) as Fw.
  destruct (applyFilter s1 value w) as [value1 w1]. cbn [snd] in Fw.
  destruct (appendValue s1 vr1 value1 w1) as [[s2 w2]|] eqn:A.
  2:{ injection H as <- <- <- <-. split; [lia|]. exists [].
      rewrite app_nil_r. split; [exact Fw|]. split; [simpl; lia|].
      discriminate. }
  apply appendValue_trace in A as (_ & Ve & Vn & na & Fa & Ma).
  assert (J2 : flushed w2 = [] \/ chunkBuffer s2 <> []).
  { destruct value1 as [|x r].
    - destruct (Ve eq_refl) as [-> ->]. rewrite Fw, B1. exact J.
    - right. apply Vn. discriminate. }
  rewrite Fw in Fa.
  destruct (isEOFResult err).
  - destruct (flushAtEOF s2 vr1 w2) as [[s3 w3]|] eqn:F;
      injection H as <- <- <- <-; (split; [lia|]).
    + apply flushAtEOF_last in F as [[Be ->]|(c & Fc & Mc)].
      * exists na. split; [exact Fa|]. split.
        { apply byteMarks_const with (m := scanByteNum vr1);
            [lia | lia | exact Ma]. }
        intros _. left. destruct J2 as [J2|J2]; [exact J2 | contradiction].
      * exists (na ++ [c]). rewrite Fc, Fa, <- app_assoc.
        split; [reflexivity|]. split.
        { apply byteMarks_const with (m := scanByteNum vr1); [lia | lia |].
          apply Forall_app. split; [exact Ma | constructor; auto]. }
        intros _. right.
        rewrite app_assoc, map_app. simpl. rewrite last_last. exact Mc.
    + exists na. split; [exact Fa|]. split; [|discriminate].
      apply byteMarks_const with (m := scanByteNum vr1);
        [lia | lia | exact Ma].
  - apply IH in H as (E2 & nr & Fr & Mr & Lr);
      [|exact L1|exact K1|lia|lia|exact J2].
    split; [lia|]. exists (na ++ nr).
    rewrite Fr, Fa, <- app_assoc. split; [reflexivity|].
    split; [|rewrite app_assoc, <- Fa, <- Fr; exact Lr].
    eapply byteMarks_app; [|exact Mr].
    apply byteMarks_const with (m := scanByteNum vr1); [lia | lia | exact Ma].
Qed.

End Marks.

(** A run on a fresh splitter is its loop on a fresh value reader, and the
    loop returns without a panic. *)
Lemma RunSplit_loop (sched : nat -> bool) (conf : Conf) (s : splitter)
    (rd : Reader) :
  NewSplitter conf = Some s ->
  exists o s' vr' w',
    runLoop sched (S (S (length (rd_data rd)))) 0 (set_started s 1)
      (mkValueReader rd (delimiter s) (s_valueMaxScanSizeLimit s) 0 false
         None) world0
    = Some (o, s', vr', w')
    /\ RunSplit sched s rd world0 = Some (o, s', reader vr', w')
    /\ o <> Panicked
    /\ delimiter s <> [].
Proof.
  intros H.
  destruct (@RunSplit_structure sched conf s rd H)
    as (o & s' & rd' & w' & R & NP & _).
  pose proof R as R'.
  rewrite (@RunSplit_fresh sched conf s rd world0 H) in R'.
  destruct (runLoop sched _ _ _ _ _) as [[[[o1 s1] vr1] w1]|] eqn:L;
    [|discriminate].
  injection R' as -> -> <- ->.
  exists o, s', vr1, w'. split; [reflexivity|]. split; [exact R|].
  split; [exact NP|].
  apply NewSplitter_some in H as [D ->]. exact D.
Qed.

(** X8: Every run on a fresh splitter returns, and in one of four ways: with
    [nil], after the byte source reported [io.EOF] and all its bytes were
    read; with [ErrSplitterIsStopped], which takes a [Stop] call; with the
    error of the byte source, which is then not [io.EOF] and was reported
    after all the bytes before it were read; or with
    [ErrValueReaderMaxScanSizeLimit], and then the stream holds, right
    before the bytes left unread, a run of [valueMaxScanSizeLimit] bytes
    no prefix of which ends with the delimiter.  The byte source is read
    front to back: what is left of it is a suffix of the stream. *)
Theorem RunSplit_outcomes
    (sched : nat -> bool) (conf : Conf) (s : splitter) (rd : Reader) :
  NewSplitter conf = Some s ->
  exists o s' rd' w',
    RunSplit sched s rd world0 = Some (o, s', rd', w')
    /\ rd_err rd' = rd_err rd
    /\ (exists consumed, rd_data rd = consumed ++ rd_data rd')
    /\ ((o = Returned None /\ rd_err rd = EOF /\ rd_data rd' = [])
        \/ (o = Returned (Some ErrSplitterIsStopped)
            /\ exists j, sched j = true)
        \/ (o = Returned (Some (rd_err rd)) /\ rd_err rd <> EOF
            /\ rd_data rd' = [])
        \/ (o = Returned (Some ErrValueReaderMaxScanSizeLimit)
            /\ exists pre c,
                rd_data rd = pre ++ c ++ rd_data rd'
                /\ len c = s_valueMaxScanSizeLimit s
                /\ delimFree (delimiter s) c = true)).
Proof.
  intros H.
  destruct (@RunSplit_loop sched conf s rd H)
    as (o & s' & vr' & w' & L & R & NP & D).
  exists o, s', (reader vr'), w'. split; [exact R|].
  assert (S0 : stopped (set_started s 1) = 0).
  { apply NewSplitter_some in H as [_ ->]. reflexivity. }
  apply runLoop_outcome in L as (Er & (c & Dc & _) & St & O);
    [|reflexivity|exact D|discriminate].
  cbn [reader rd_err rd_data delim valueMaxScanSizeLimit] in *.
  split; [exact Er|]. split; [eauto|].
  destruct o as [[e|]|]; [|left|congruence].
  - right. destruct O as [(-> & P)|[(-> & F & E)|(-> & X)]].
    + left. split; [reflexivity|].
      destruct (St P) as [Q|Q]; [rewrite S0 in Q; lia | exact Q].
    + right. left. split; [reflexivity|]. split; [|exact E].
      intros EE. rewrite EE in F. discriminate F.
    + right. right. auto.
  - destruct O as [E F]. split; [reflexivity|]. split; [|exact E].
    destruct (rd_err rd); try discriminate F. reflexivity.
Qed.

Lemma RunSplit_outcomes_witness :
  exists o s' rd' w',
    RunSplit noStop readme_splitter readme_stream world0
    = Some (o, s', rd', w')
    /\ rd_err rd' = rd_err readme_stream
    /\ (exists consumed, rd_data readme_stream = consumed ++ rd_data rd')
    /\ ((o = Returned None /\ rd_err readme_stream = EOF
         /\ rd_data rd' = [])
        \/ (o = Returned (Some ErrSplitterIsStopped)
            /\ exists j, noStop j = true)
        \/ (o = Returned (Some (rd_err readme_stream))
            /\ rd_err readme_stream <> EOF
            /\ rd_data rd' = [])
        \/ (o = Returned (Some ErrValueReaderMaxScanSizeLimit)
            /\ exists pre c,
                rd_data readme_stream = pre ++ c ++ rd_data rd'
                /\ len c = s_valueMaxScanSizeLimit readme_splitter
                /\ delimFree (delimiter readme_splitter) c = true)).
Proof.
  apply (@RunSplit_outcomes noStop readme_conf readme_splitter
           readme_stream). reflexivity.
Defined.

(** X9: A run returns [nil] and reads the byte source to its end whenever the
    source ends with [io.EOF], no [Stop] call arrives, and every run of
    [valueMaxScanSizeLimit] bytes of the stream has a prefix that ends
    with the delimiter. *)
Theorem RunSplit_succeeds
    (sched : nat -> bool) (conf : Conf) (s : splitter) (rd : Reader) :
  NewSplitter conf = Some s ->
  rd_err rd = EOF ->
  (forall j, sched j = false) ->
  (forall pre c rest,
      rd_data rd = pre ++ c ++ rest ->
      len c = s_valueMaxScanSizeLimit s ->
      delimFree (delimiter s) c = false) ->
  exists s' calls w',
    RunSplit sched s rd world0
    = Some (Returned None, s', mkReader [] EOF calls, w').
Proof.
  intros H E NS W.
  destruct (@RunSplit_outcomes sched conf s rd H)
    as (o & s' & rd' & w' & R & Er & _ & O).
  destruct O as [(-> & _ & D)|[(_ & j & Sj)|[(_ & N & _)|(_ & X)]]].
  - exists s', (rd_calls rd'), w'. rewrite R. do 4 f_equal.
    destruct rd' as [dt er cl]. simpl in *. congruence.
  - rewrite NS in Sj. discriminate Sj.
  - congruence.
  - destruct X as (pre & c & E1 & E2 & E3).
    rewrite (W _ _ _ E1 E2) in E3. discriminate E3.
Qed.

Lemma RunSplit_succeeds_witness :
  exists s' calls w',
    RunSplit noStop readme_splitter readme_stream world0
    = Some (Returned None, s', mkReader [] EOF calls, w').
Proof.
  apply (@RunSplit_succeeds noStop readme_conf readme_splitter
           readme_stream).
  - reflexivity.
  - reflexivity.
  - intros j. reflexivity.
  - intros pre c rest E L. exfalso.
    apply (f_equal (@length byte)) in E. rewrite !length_app in E.
    unfold len in L. cbn in E, L. lia.
Defined.

(** X10: The byte counts that the chunks report: for a stream of fewer than
    [2^63] bytes they never decrease from one chunk to the next, each lies
    between 0 and the number of bytes the run took from the byte source,
    and after a run that returned [nil] the last chunk reports the length
    of the whole stream. *)
Theorem RunSplit_scan_byte_marks
    (sched : nat -> bool) (conf : Conf) (s : splitter) (rd : Reader) :
  NewSplitter conf = Some s ->
  len (rd_data rd) < 2 ^ 63 ->
  exists o s' rd' w',
    RunSplit sched s rd world0 = Some (o, s', rd', w')
    /\ byteMarks 0 (len (rd_data rd) - len (rd_data rd')) (flushed w')
    /\ (o = Returned None ->
        flushed w' = []
        \/ last (map ScanByteNum (flushed w')) 0 = len (rd_data rd)).
Proof.
  intros H B.
  destruct (@RunSplit_loop sched conf s rd H)
    as (o & s' & vr' & w' & L & R & NP & D).
  exists o, s', (reader vr'), w'. split; [exact R|].
  pose proof L as L'.
  apply runLoop_outcome in L' as (_ & _ & _ & O);
    [|reflexivity|exact D|discriminate].
  apply runLoop_marks in L as (E & new & Fl & M & La);
    [|reflexivity|discriminate|simpl; lia|simpl; lia|left; reflexivity].
  cbn [reader rd_data scanByteNum flushed world0 app] in *.
  rewrite Fl.
  replace (len (rd_data rd) - len (rd_data (reader vr')))
    with (scanByteNum vr') by lia.
  split; [exact M|]. intros EE. rewrite <- Fl.
  destruct (La EE) as [X|X]; [left; exact X | right].
  rewrite X. subst o. destruct O as [O _]. rewrite O in E.
  rewrite len_nil in E. lia.
Qed.

Lemma RunSplit_scan_byte_marks_witness :
  exists o s' rd' w',
    RunSplit noStop readme_splitter readme_stream world0
    = Some (o, s', rd', w')
    /\ byteMarks 0 (len (rd_data readme_stream) - len (rd_data rd'))
         (flushed w')
    /\ (o = Returned None ->
        flushed w' = []
        \/ last (map ScanByteNum (flushed w')) 0
           = len (rd_data readme_stream)).
Proof.
  apply (@RunSplit_scan_byte_marks noStop readme_conf readme_splitter
           readme_stream).
  - reflexivity.
  - reflexivity.
Defined.

(** ** The value reader across revisions *)

Lemma scanLoop_forget (v : valueReader) (data : bytes) :
  forall calls sbn buf,
    V0.scanLoop (forget v) data calls buf
    = (fst (scanLoop v data calls None sbn buf),
       forget (snd (scanLoop v data calls None sbn buf))).
Proof.
  induction data as [|b data IH]; intros calls sbn buf;
    cbn [scanLoop V0.scanLoop waitLimiter forget V0.reader V0.delim
         V0.valueMaxScanSizeLimit V0.isEOF].
  - destruct (isEOFErr (rd_err (reader v))); reflexivity.
  - destruct (tailIsDelim b (buf ++ [b]) (delim v)); [reflexivity|].
    destruct (len (buf ++ [b]) =? valueMaxScanSizeLimit v); [reflexivity|].
    apply IH.
Qed.

(** X11: The byte counter and the limiter changed nothing else: a reader built
    by [NewValueReader] is, counter and limiter apart, the reader the
    earlier constructor builds, and on a reader with no limiter [Next]
    returns what the earlier [Next] returns and leaves the reader in the
    same state, still with no limiter. *)
Theorem Next_refines_earlier_Next (v : valueReader) :
  limiter v = None ->
  V0.Next (forget v) = (fst (Next v), forget (snd (Next v)))
  /\ limiter (snd (Next v)) = None
  /\ forall rd d scanLimit,
      V0.NewValueReader rd d scanLimit
      = match NewValueReader rd d scanLimit with
        | Some v0 => Some (forget v0)
        | None => None
        end.
Proof.
  intros L. split; [|split].
  - unfold Next, V0.Next. cbn [forget V0.isEOF V0.reader].
    destruct (isEOF v) eqn:E; [reflexivity|].
    rewrite L. apply scanLoop_forget.
  - destruct (Next v) as [[val e] v'] eqn:N.
    apply Next_static in N as (_ & _ & K). exact (K L).
  - intros rd d scanLimit.
    unfold V0.NewValueReader, NewValueReader, NewValueReaderAndLimiter.
    destruct (len d =? 0); reflexivity.
Qed.

Lemma Next_refines_earlier_Next_witness :
  limiter abcd_reader = None
  /\ V0.Next (forget abcd_reader)
     = (fst (Next abcd_reader), forget (snd (Next abcd_reader))).
Proof.
  split; [reflexivity|].
  apply (Next_refines_earlier_Next abcd_reader). reflexivity.
Defined.

(** ** [Split] of the first revision and [RunSplit] *)

Lemma wrap64_add_r (k x : Z) : wrap64 (k + wrap64 x) = wrap64 (k + x).
Proof. rewrite Z.add_comm, wrap64_add. f_equal. lia. Qed.

Lemma wrap64_range (x : Z) : - 2 ^ 63 <= wrap64 x < 2 ^ 63.
Proof.
  unfold wrap64, wrap.
  pose proof (Z.mod_pos_bound (x + 2 ^ (64 - 1)) (2 ^ 64) eq_refl) as B.
  change (2 ^ (64 - 1)) with (2 ^ 63) in *.
  change (2 ^ 64) with (2 * 2 ^ 63) in *. lia.
Qed.

Section AsV1.

Variables (sched : nat -> bool) (start : Z).

Lemma asV1_emitChunk s vr w :
  V1.emitChunk (asV1 start s) (map (asCall start) (flushed w))
  = match emitChunk s vr w with
    | Some (s', w') => Some (asV1 start s', map (asCall start) (flushed w'))
    | None => None
    end.
Proof.
  unfold V1.emitChunk, emitChunk, V1.flushChunk, flushChunk. cbn.
  destruct (len (chunkBuffer s) - len (delimiter s) <? 0); [reflexivity|].
  cbn. rewrite map_app. unfold asV1, asCall. cbn.
  rewrite wrap64_add, wrap64_add_r, Z.add_assoc. reflexivity.
Qed.

Lemma asV1_appendValue s vr value w :
  - 2 ^ 63 <= nextValueSn s < 2 ^ 63 ->
  V1.appendValue (asV1 start s) value (map (asCall start) (flushed w))
  = match appendValue s vr value w with
    | Some (s', w') => Some (asV1 start s', map (asCall start) (flushed w'))
    | None => None
    end.
Proof.
  intros R. unfold V1.appendValue, appendValue, preFlushCond.
  cbn [asV1 V1.chunkBuffer V1.chunkSizeLimit].
  destruct (len value >? 0); [|reflexivity].
  destruct ((len (chunkBuffer s) + len value >? chunkSizeLimit s)
            && (len (chunkBuffer s) >? 0)).
  - change (V1.mkSplitter (chunkSizeLimit s) (chunkBuffer s)
              (wrap64 (start + chunkSn s)) (chunkStartValueSn s)
              (wrap64 (nextValueSn s - 1)) (delimiter s)
              (s_valueMaxScanSizeLimit s) (valueFilter s) (started s)
              (stopped s)) with (asV1 start s).
    rewrite (asV1_emitChunk s vr w).
    destruct (emitChunk s vr w) as [[s1 w1]|] eqn:E; [|reflexivity].
    assert (N : nextValueSn s1 = nextValueSn s).
    { unfold emitChunk, flushChunk in E. cbn in E.
      destruct (_ <? 0); [discriminate|]. injection E as <- _. reflexivity. }
    unfold asV1. cbn. rewrite !wrap64_add, wrap64_sub, N.
    replace (nextValueSn s - 1 + 1) with (nextValueSn s) by lia.
    replace (nextValueSn s + 1 - 1) with (nextValueSn s) by lia.
    rewrite (wrap64_small R). reflexivity.
  - unfold asV1. cbn. rewrite wrap64_add, wrap64_sub.
    replace (nextValueSn s - 1 + 1) with (nextValueSn s) by lia.
    replace (nextValueSn s + 1 - 1) with (nextValueSn s) by lia.
    reflexivity.
Qed.

Lemma appendValue_next_range s vr value w s' w' :
  appendValue s vr value w = Some (s', w') ->
  - 2 ^ 63 <= nextValueSn s < 2 ^ 63 ->
  - 2 ^ 63 <= nextValueSn s' < 2 ^ 63.
Proof.
  unfold appendValue. destruct (len value >? 0).
  2:{ intros H. injection H as <- _. auto. }
  destruct (preFlushCond s value).
  - destruct (emitChunk s vr w) as [[s1 w1]|]; [|discriminate].
    intros H _. injection H as <- _. cbn. apply wrap64_range.
  - intros H _. injection H as <- _. cbn. apply wrap64_range.
Qed.

Lemma asV1_flushAtEOF s vr w :
  V1.flushAtEOF (asV1 start s) (map (asCall start) (flushed w))
  = match flushAtEOF s vr w with
    | Some (s', w') => Some (asV1 start s', map (asCall start) (flushed w'))
    | None => None
    end.
Proof.
  unfold V1.flushAtEOF, flushAtEOF. cbn [asV1 V1.chunkBuffer].
  destruct (len (chunkBuffer s) >? 0); [|reflexivity].
  apply asV1_emitChunk.
Qed.

Lemma asV1_applyFilter s value w :
  V1.applyFilter (asV1 start s) value = fst (applyFilter s value w)
  /\ flushed (snd (applyFilter s value w)) = flushed w.
Proof.
  unfold V1.applyFilter, applyFilter. cbn [asV1 V1.valueFilter].
  destruct (valueFilter s); [|auto]. destruct (len value >? 0); auto.
Qed.

Lemma asV1_loop :
  forall fuel i s vr w,
    - 2 ^ 63 <= nextValueSn s < 2 ^ 63 ->
    V1.splitLoop sched fuel i (asV1 start s) vr
      (map (asCall start) (flushed w))
    = match runLoop sched fuel i s vr w with
      | Some (o, s', vr', w') =>
        Some (asSplitResult s' o, asV1 start s', vr',
              map (asCall start) (flushed w'))
      | None => None
      end.
Proof.
  induction fuel as [|fuel IH]; intros i s vr w R; [reflexivity|].
  cbn [V1.splitLoop runLoop].
  replace (if sched i then V1.Stop (asV1 start s) else asV1 start s)
    with (asV1 start (if sched i then Stop s else s))
    by (destruct (sched i); reflexivity).
  assert (R1 : - 2 ^ 63 <= nextValueSn (if sched i then Stop s else s)
               < 2 ^ 63) by (destruct (sched i); exact R).
  set (s1 := if sched i then Stop s else s) in *. clearbody s1.
  change (V1.stopped (asV1 start s1)) with (stopped s1).
  unfold asSplitResult.
  destruct (stopped s1 >? 0) eqn:St.
  { rewrite St. reflexivity. }
  destruct (Next vr) as [[value err] vr1].
  destruct (isFatal err).
  { rewrite St. reflexivity. }
  destruct (asV1_applyFilter s1 value w) as [Fv Fw].
  destruct (applyFilter s1 value w) as [value1 w1]. cbn [fst snd] in Fv, Fw.
  rewrite Fv, <- Fw, (asV1_appendValue s1 vr1 value1 w1 R1).
  destruct (appendValue s1 vr1 value1 w1) as [[s2 w2]|] eqn:A.
  2:{ rewrite St. reflexivity. }
  pose proof (appendValue_next_range _ _ _ _ A R1) as R2.
  apply appendValue_trace in A as (Sp & _).
  destruct (isEOFResult err).
  - rewrite (asV1_flushAtEOF s2 vr1 w2).
    destruct (flushAtEOF s2 vr1 w2) as [[s3 w3]|] eqn:F.
    + apply flushAtEOF_trace in F as (Sf & _). rewrite Sf, Sp, St.
      reflexivity.
    + rewrite Sp, St. reflexivity.
  - apply IH, R2.
Qed.

End AsV1.

(** X12: [Split] of the first revision does what [RunSplit] does on the same
    configuration and stream: it returns in the same state of the byte
    source, having handed its handler the same payloads and value ranges,
    chunk by chunk, with the chunk numbers counted from [StartChunkSn]
    instead of 0; and it returns the same error, except that it returns
    [nil] where [RunSplit] reports a stop. *)
Theorem Split_is_RunSplit_renumbered
    (sched : nat -> bool) (conf : V1.Conf) (s1 : V1.splitter) (rd : Reader) :
  V1.NewSplitter conf = Some s1 ->
  - 2 ^ 63 <= V1.StartChunkSn conf < 2 ^ 63 ->
  exists s o s' rd' w',
    NewSplitter (asConf conf) = Some s
    /\ RunSplit sched s rd world0 = Some (o, s', rd', w')
    /\ V1.Split sched s1 rd []
       = Some (asSplitResult s' o, asV1 (V1.StartChunkSn conf) s', rd',
               map (asCall (V1.StartChunkSn conf)) (flushed w')).
Proof.
  intros H R. unfold V1.NewSplitter in H.
  destruct (len (V1.Delim conf) =? 0) eqn:D; [discriminate|].
  destruct (V1.ChunkSizeLimit conf <? 0) eqn:C; [discriminate|].
  injection H as <-.
  assert (HS : NewSplitter (asConf conf)
               = Some (mkSplitter
                         (Z.max (V1.ChunkSizeLimit conf) MinChunkSizeLimit)
                         [] 0 0 0 (V1.Delim conf)
                         (Z.max (V1.ValueMaxScanSizeLimit conf)
                                MinValueMaxScanSizeLimit)
                         (V1.ValueFilter conf) 0 0)).
  { unfold NewSplitter, asConf. cbn. rewrite D, C. reflexivity. }
  set (s := mkSplitter _ _ _ _ _ _ _ _ _ _) in HS.
  destruct (@RunSplit_loop sched (asConf conf) s rd HS)
    as (o & s' & vr' & w' & L & Rn & _ & _).
  exists s, o, s', (reader vr'), w'. split; [exact HS|]. split; [exact Rn|].
  unfold V1.Split. cbn [V1.started V1.set_started V1.delimiter
                        V1.valueMaxScanSizeLimit].
  change (wrap32 (0 + 1)) with 1. cbn [Z.eqb Pos.eqb negb].
  unfold NewValueReader, NewValueReaderAndLimiter. rewrite D.
  rewrite (Z.max_l (Z.max _ _)) by (unfold MinValueMaxScanSizeLimit; lia).
  cbn [Z.ltb Z.compare].
  assert (E0 : V1.set_started
                 (V1.mkSplitter
                    (Z.max (V1.ChunkSizeLimit conf) MinChunkSizeLimit) []
                    (V1.StartChunkSn conf) 0 (-1) (V1.Delim conf)
                    (Z.max (V1.ValueMaxScanSizeLimit conf)
                           MinValueMaxScanSizeLimit)
                    (V1.ValueFilter conf) 0 0) 1
               = asV1 (V1.StartChunkSn conf) (set_started s 1)).
  { unfold asV1, V1.set_started, set_started, s.
    cbn [V1.chunkSizeLimit V1.chunkBuffer V1.chunkSn V1.chunkStartIndex
         V1.dataValueIndex V1.delimiter V1.valueMaxScanSizeLimit
         V1.valueFilter V1.started V1.stopped chunkSizeLimit chunkBuffer
         chunkSn chunkStartValueSn nextValueSn delimiter
         s_valueMaxScanSizeLimit valueFilter started stopped].
    rewrite Z.add_0_r, (wrap64_small R). reflexivity. }
  rewrite E0.
  change (@nil V1.FlushCall)
    with (map (asCall (V1.StartChunkSn conf)) (flushed world0)).
  rewrite asV1_loop by (cbn; lia).
  change (delimiter s) with (V1.Delim conf) in L.
  change (s_valueMaxScanSizeLimit s)
    with (Z.max (V1.ValueMaxScanSizeLimit conf) MinValueMaxScanSizeLimit)
    in L.
  rewrite L. reflexivity.
Qed.

Lemma Split_is_RunSplit_renumbered_witness :
  exists s o s' rd' w',
    NewSplitter (asConf V1.example_conf) = Some s
    /\ RunSplit noStop s readme_stream world0 = Some (o, s', rd', w')
    /\ V1.Split noStop V1.example_splitter readme_stream []
       = Some (asSplitResult s' o,
               asV1 (V1.StartChunkSn V1.example_conf) s', rd',
               map (asCall (V1.StartChunkSn V1.example_conf)) (flushed w')).
Proof.
  apply (@Split_is_RunSplit_renumbered noStop V1.example_conf
           V1.example_splitter readme_stream).
  - reflexivity.
  - cbn. lia.
Defined.

(** ** [Split] of the revision whose [flushChunk] drops its copy *)

Section AsV2.

Variables (sched : nat -> bool) (d : bytes).

Lemma asV2_emitChunk s vr w :
  delimiter s = d ->
  (exists p, chunkBuffer s = p ++ d) ->
  V2.emitChunk (asV2 s) vr (map (asArgs d) (flushed w))
  = match emitChunk s vr w with
    | Some (s', w') => Some (asV2 s', map (asArgs d) (flushed w'))
    | None => None
    end.
Proof.
  intros D [p B].
  unfold V2.emitChunk, emitChunk, V2.flushChunk, flushChunk. cbn.
  rewrite B, D, len_app.
  replace (len p + len d - len d <? 0) with false
    by (symmetry; apply Z.ltb_ge; pose proof (len_nonneg p); lia).
  cbn. rewrite map_app. unfold asV2, asArgs. cbn.
  rewrite firstn_app_exact. reflexivity.
Qed.

Lemma asV2_appendValue s vr value w :
  closedBuffer d s ->
  - 2 ^ 63 <= nextValueSn s < 2 ^ 63 ->
  V2.appendValue (asV2 s) vr value (map (asArgs d) (flushed w))
  = match appendValue s vr value w with
    | Some (s', w') => Some (asV2 s', map (asArgs d) (flushed w'))
    | None => None
    end.
Proof.
  intros [D B] R. unfold V2.appendValue, appendValue, preFlushCond.
  cbn [asV2 V2.chunkBuffer V2.chunkSizeLimit].
  destruct (len value >? 0); [|reflexivity].
  destruct ((len (chunkBuffer s) + len value >? chunkSizeLimit s)
            && (len (chunkBuffer s) >? 0)) eqn:C.
  - apply andb_true_iff in C as [_ C]. apply gtb_true in C.
    destruct B as [B|B]; [rewrite B, len_nil in C; lia|].
    change (V2.mkSplitter (chunkSizeLimit s) (chunkBuffer s) (chunkSn s)
              (chunkStartValueSn s) (wrap64 (nextValueSn s - 1))
              (delimiter s) (s_valueMaxScanSizeLimit s) (valueFilter s)
              (started s) (stopped s)) with (asV2 s).
    rewrite (@asV2_emitChunk s vr w D B).
    destruct (emitChunk s vr w) as [[s1 w1]|] eqn:E; [|reflexivity].
    assert (N : nextValueSn s1 = nextValueSn s).
    { unfold emitChunk, flushChunk in E. cbn in E.
      destruct (_ <? 0); [discriminate|]. injection E as <- _. reflexivity. }
    unfold asV2. cbn. rewrite !wrap64_add, wrap64_sub, N.
    replace (nextValueSn s - 1 + 1) with (nextValueSn s) by lia.
    replace (nextValueSn s + 1 - 1) with (nextValueSn s) by lia.
    rewrite (wrap64_small R). reflexivity.
  - unfold asV2. cbn. rewrite wrap64_add, wrap64_sub.
    replace (nextValueSn s - 1 + 1) with (nextValueSn s) by lia.
    replace (nextValueSn s + 1 - 1) with (nextValueSn s) by lia.
    reflexivity.
Qed.

Lemma appendValue_closedBuffer s vr value w s' w' :
  appendValue s vr value w = Some (s', w') ->
  closedBuffer d s -> closedBuffer d s'.
Proof.
  unfold appendValue, closedBuffer. destruct (len value >? 0).
  2:{ intros H. injection H as <- _. auto. }
  destruct (preFlushCond s value).
  - destruct (emitChunk s vr w) as [[s1 w1]|] eqn:E; [|discriminate].
    unfold emitChunk, flushChunk in E. cbn in E.
    destruct (_ <? 0); [discriminate|]. injection E as <- _.
    intros H [D _]. injection H as <- _. cbn. split; [exact D|].
    right. rewrite D. eauto.
  - intros H [D _]. injection H as <- _. cbn. split; [exact D|].
    right. rewrite D. eauto.
Qed.

Lemma asV2_flushAtEOF s vr w :
  closedBuffer d s ->
  V2.flushAtEOF (asV2 s) vr (map (asArgs d) (flushed w))
  = match flushAtEOF s vr w with
    | Some (s', w') => Some (asV2 s', map (asArgs d) (flushed w'))
    | None => None
    end.
Proof.
  intros [D B]. unfold V2.flushAtEOF, flushAtEOF.
  cbn [asV2 V2.chunkBuffer].
  destruct (len (chunkBuffer s) >? 0) eqn:C; [|reflexivity].
  apply gtb_true in C.
  destruct B as [B|B]; [rewrite B, len_nil in C; lia|].
  apply asV2_emitChunk; assumption.
Qed.

Lemma asV2_applyFilter s value w :
  V2.applyFilter (asV2 s) value = fst (applyFilter s value w)
  /\ flushed (snd (applyFilter s value w)) = flushed w.
Proof.
  unfold V2.applyFilter, applyFilter. cbn [asV2 V2.valueFilter].
  destruct (valueFilter s); [|auto]. destruct (len value >? 0); auto.
Qed.

Lemma asV2_loop :
  forall fuel i s vr w,
    closedBuffer d s ->
    - 2 ^ 63 <= nextValueSn s < 2 ^ 63 ->
    V2.splitLoop sched fuel i (asV2 s) vr (map (asArgs d) (flushed w))
    = match runLoop sched fuel i s vr w with
      | Some (o, s', vr', w') =>
        Some (asSplitResult s' o, asV2 s', vr',
              map (asArgs d) (flushed w'))
      | None => None
      end.
Proof.
  induction fuel as [|fuel IH]; intros i s vr w B R; [reflexivity|].
  cbn [V2.splitLoop runLoop].
  replace (if sched i then V2.Stop (asV2 s) else asV2 s)
    with (asV2 (if sched i then Stop s else s))
    by (destruct (sched i); reflexivity).
  assert (R1 : - 2 ^ 63 <= nextValueSn (if sched i then Stop s else s)
               < 2 ^ 63) by (destruct (sched i); exact R).
  assert (B1 : closedBuffer d (if sched i then Stop s else s))
    by (destruct (sched i); exact B).
  set (s1 := if sched i then Stop s else s) in *. clearbody s1.
  change (V2.stopped (asV2 s1)) with (stopped s1).
  unfold asSplitResult.
  destruct (stopped s1 >? 0) eqn:St.
  { rewrite St. reflexivity. }
  destruct (Next vr) as [[value err] vr1].
  destruct (isFatal err).
  { rewrite St. reflexivity. }
  destruct (asV2_applyFilter s1 value w) as [Fv Fw].
  destruct (applyFilter s1 value w) as [value1 w1]. cbn [fst snd] in Fv, Fw.
  rewrite Fv, <- Fw, (@asV2_appendValue s1 vr1 value1 w1 B1 R1).
  destruct (appendValue s1 vr1 value1 w1) as [[s2 w2]|] eqn:A.
  2:{ rewrite St. reflexivity. }
  pose proof (appendValue_next_range _ _ _ _ A R1) as R2.
  pose proof (@appendValue_closedBuffer _ _ _ _ _ _ A B1) as B2.
  apply appendValue_trace in A as (Sp & _).
  destruct (isEOFResult err).
  - rewrite (@asV2_flushAtEOF s2 vr1 w2 B2).
    destruct (flushAtEOF s2 vr1 w2) as [[s3 w3]|] eqn:F.
    + apply flushAtEOF_trace in F as (Sf & _). rewrite Sf, Sp, St.
      reflexivity.
    + rewrite Sp, St. reflexivity.
  - apply IH; assumption.
Qed.

End AsV2.

(** X13: In the revision whose [flushChunk] makes the stripped copy and then
    passes on its argument, [Split] goes through the stream as [RunSplit]
    does and calls the handler for the same chunks with the same numbers
    and byte counts, but every payload it hands over still has the
    delimiter at its end; and it returns [nil] where [RunSplit] reports a
    stop. *)
Theorem Split_V2_hands_over_framed_chunks
    (sched : nat -> bool) (conf : Conf) (s2 : V2.splitter) (rd : Reader) :
  V2.NewSplitter conf = Some s2 ->
  exists s o s' rd' w',
    NewSplitter conf = Some s
    /\ RunSplit sched s rd world0 = Some (o, s', rd', w')
    /\ V2.Split sched s2 rd []
       = Some (asSplitResult s' o, asV2 s', rd',
               map (asArgs (Delim conf)) (flushed w'))
    /\ Forall (fun c => endsWith (Delim conf) (V2.Data c) = true)
              (map (asArgs (Delim conf)) (flushed w')).
Proof.
  intros H. unfold V2.NewSplitter in H.
  destruct (len (Delim conf) =? 0) eqn:D; [discriminate|].
  destruct (ChunkSizeLimit conf <? 0) eqn:C; [discriminate|].
  injection H as <-.
  assert (HS : NewSplitter conf
               = Some (mkSplitter
                         (Z.max (ChunkSizeLimit conf) MinChunkSizeLimit)
                         [] 0 0 0 (Delim conf)
                         (Z.max (ValueMaxScanSizeLimit conf)
                                MinValueMaxScanSizeLimit)
                         (ValueFilter conf) 0 0)).
  { unfold NewSplitter. rewrite D, C. reflexivity. }
  set (s := mkSplitter _ _ _ _ _ _ _ _ _ _) in HS.
  destruct (@RunSplit_loop sched conf s rd HS)
    as (o & s' & vr' & w' & L & Rn & _ & _).
  exists s, o, s', (reader vr'), w'. split; [exact HS|]. split; [exact Rn|].
  split.
  - unfold V2.Split. cbn [V2.started V2.set_started V2.delimiter
                          V2.valueMaxScanSizeLimit].
    change (wrap32 (0 + 1)) with 1. cbn [Z.eqb Pos.eqb negb].
    unfold NewValueReader, NewValueReaderAndLimiter. rewrite D.
    rewrite (Z.max_l (Z.max _ _)) by (unfold MinValueMaxScanSizeLimit; lia).
    cbn [Z.ltb Z.compare].
    change (V2.set_started
              (V2.mkSplitter (Z.max (ChunkSizeLimit conf) MinChunkSizeLimit)
                 [] 0 0 (-1) (Delim conf)
                 (Z.max (ValueMaxScanSizeLimit conf)
                        MinValueMaxScanSizeLimit)
                 (ValueFilter conf) 0 0) 1)
      with (asV2 (set_started s 1)).
    change (@nil V2.FlushChunkArgs)
      with (map (asArgs (Delim conf)) (flushed world0)).
    rewrite asV2_loop.
    + change (delimiter s) with (Delim conf) in L.
      change (s_valueMaxScanSizeLimit s)
        with (Z.max (ValueMaxScanSizeLimit conf) MinValueMaxScanSizeLimit)
        in L.
      rewrite L. reflexivity.
    + split; [reflexivity | left; reflexivity].
    + cbn. lia.
  - apply Forall_forall. intros c Hc. apply in_map_iff in Hc as (c0 & <- & _).
    apply endsWith_suffix.
Qed.

Lemma Split_V2_hands_over_framed_chunks_witness :
  exists s o s' rd' w',
    NewSplitter readme_conf = Some s
    /\ RunSplit noStop s readme_stream world0 = Some (o, s', rd', w')
    /\ V2.Split noStop
         (V2.mkSplitter 16 [] 0 0 (-1) (bytesOf ",") 4096 (Some dropBanana)
            0 0) readme_stream []
       = Some (asSplitResult s' o, asV2 s', rd',
               map (asArgs (Delim readme_conf)) (flushed w'))
    /\ Forall (fun c => endsWith (Delim readme_conf) (V2.Data c) = true)
              (map (asArgs (Delim readme_conf)) (flushed w')).
Proof.
  apply (@Split_V2_hands_over_framed_chunks noStop readme_conf
           (V2.mkSplitter 16 [] 0 0 (-1) (bytesOf ",") 4096
              (Some dropBanana) 0 0) readme_stream).
  reflexivity.
Defined.
